(** * Flavor plugin composition and type routing (infrakit)

    A shallow embedding of the combo flavor plugin (Validate, Healthy, Drain,
    cloneSpec, mergeSpecs, Prepare) and of the RPC flavor service (getPlugin
    and its four handlers), with the properties of their natural-language
    specification.

    Go values that are references (maps, slices, pointers) live in an explicit
    store, so that aliasing between an instance spec and its clones is
    visible.  A call through a nil interface and a nil pointer dereference are
    run-time panics; they are the [Fault] outcome of the monad below. *)

From Stdlib Require Import Strings.String Strings.Ascii Strings.Byte Lists.List Lia.
From stdpp Require Import base option gmap strings list fin_maps.

Open Scope string_scope.
Open Scope list_scope.

(** ** Basic types *)

(** json.RawMessage is a byte slice. *)
Abbreviation RawMessage := (list Byte.byte) (only parsing).

(** A Go [error] value is represented by its message ([err.Error()]); the nil
    error is [None]. *)
Abbreviation error := string (only parsing).

(** Addresses of the store. *)
Abbreviation loc := nat (only parsing).

(** The line feed of Go's ["\n"]. *)
Definition newline : string := String (ascii_of_nat 10) EmptyString.

Module instance.

(** Modelled from the spec: the declaration of instance.Attachment is not
    part of the sources; it is an identifier of a resource to attach, a
    plain value. *)
Abbreviation Attachment := string (only parsing).

(** Modelled from the spec: instance.LogicalID, a string-valued identifier. *)
Abbreviation LogicalID := string (only parsing).

(** instance.Spec, passed by value.  [Properties] and [LogicalID] are
    pointers, [Tags] a map and [Attachments] a slice: each is [None] when
    nil and otherwise the address of the object in the store. *)
Record Spec : Type := mkSpec {
  Properties : option loc;
  Tags : option loc;
  Init : string;
  LogicalID_ : option loc;
  Attachments : option loc;
}.

(** Modelled from the spec: instance.Description, the read-only view of a
    provisioned instance handed unchanged to every member. *)
Record Description : Type := mkDescription {
  ID : string;
  DescLogicalID : option LogicalID;
  DescTags : gmap string string;
}.

End instance.

Module types.

(** Modelled from the spec: types.AllocationMethod, passed through to every
    member plugin as it is. *)
Record AllocationMethod : Type := mkAllocationMethod {
  Size : nat;
  LogicalIDs : list instance.LogicalID;
}.

(** types.FlavorPlugin: one member of a composition, a plugin reference and
    its configuration blob (a pointer to a raw message, possibly nil). *)
Record FlavorPlugin : Type := mkFlavorPlugin {
  Plugin : string;
  Properties : option RawMessage;
}.

End types.

(** ** The store *)

(** One list of objects per kind of reference; the address of an object is
    its index and allocation appends. *)
Record heap : Type := mkHeap {
  h_maps : list (gmap string string);
  h_arrs : list (list instance.Attachment);
  h_ids : list instance.LogicalID;
  h_raws : list RawMessage;
}.

Definition empty_heap : heap := mkHeap [] [] [] [].

(** What a holder of an instance spec reads through its references. *)
Record SpecView : Type := mkSpecView {
  sv_properties : option RawMessage;
  sv_tags : gmap string string;
  sv_init : string;
  sv_logicalID : option instance.LogicalID;
  sv_attachments : list instance.Attachment;
}.

Definition read_map (h : heap) (r : option loc) : gmap string string :=
  match r with
  | None => ∅
  | Some l => default ∅ (h_maps h !! l)
  end.

Definition read_arr (h : heap) (r : option loc) : list instance.Attachment :=
  match r with
  | None => []
  | Some l => default [] (h_arrs h !! l)
  end.

Definition view (h : heap) (s : instance.Spec) : SpecView :=
  {| sv_properties := l ← instance.Properties s; h_raws h !! l;
     sv_tags := read_map h (instance.Tags s);
     sv_init := instance.Init s;
     sv_logicalID := l ← instance.LogicalID_ s; h_ids h !! l;
     sv_attachments := read_arr h (instance.Attachments s) |}.

(** Every reference of the spec points into the store. *)
Definition valid_ref {A : Type} (objs : list A) (r : option loc) : bool :=
  match r with
  | None => true
  | Some l => bool_decide (l < length objs)
  end.

Definition spec_wf (h : heap) (s : instance.Spec) : bool :=
  valid_ref (h_raws h) (instance.Properties s)
  && valid_ref (h_maps h) (instance.Tags s)
  && valid_ref (h_ids h) (instance.LogicalID_ s)
  && valid_ref (h_arrs h) (instance.Attachments s).

Module flavor.

(** flavor.Health: Unknown is the zero value. *)
Inductive Health : Type := Unknown | Healthy | Unhealthy.

#[global] Instance Health_eq_dec : EqDecision Health.
Proof. solve_decision. Defined.

(** The flavor.Plugin interface.  A plugin is an external collaborator:
    Healthy and Drain are given by their answer to the call; Prepare
    receives a spec by value and may read and write the store through the
    references it is handed. *)
Module Plugin.
Record t : Type := mk {
  Validate : RawMessage -> types.AllocationMethod -> option error;
  Prepare : RawMessage -> instance.Spec -> types.AllocationMethod ->
            heap -> instance.Spec * option error * heap;
  Healthy : RawMessage -> instance.Description -> Health * option error;
  Drain : RawMessage -> instance.Description -> option error;
}.
End Plugin.

End flavor.

(** ** Calls made to member plugins

    Every call that reaches a plugin is recorded, with the plugin reference
    it was resolved from and the arguments of the call; for Prepare also what
    the plugin reads through the spec it receives, at the time of the call. *)
Inductive call : Type :=
  | CallValidate (name : string) (props : RawMessage)
  | CallPrepare (name : string) (props : RawMessage)
                (clone : instance.Spec) (seen : SpecView)
  | CallHealthy (name : string) (props : RawMessage)
  | CallDrain (name : string) (props : RawMessage).

Definition call_name (c : call) : string :=
  match c with
  | CallValidate n _ | CallPrepare n _ _ _ | CallHealthy n _ | CallDrain n _ => n
  end.

Record state : Type := mkState {
  st_heap : heap;
  st_calls : list call;
}.

(** ** The monad: a store, a call log, and panics *)

Inductive outcome (A : Type) : Type :=
  | Ok (a : A)
  | Fault (reason : string).
Arguments Ok {A} a.
Arguments Fault {A} reason.

Definition M (A : Type) : Type := state -> outcome A * state.

Definition ret {A : Type} (a : A) : M A := fun s => (Ok a, s).

Definition bind {A B : Type} (m : M A) (k : A -> M B) : M B :=
  fun s =>
    match m s with
    | (Ok a, s') => k a s'
    | (Fault r, s') => (Fault r, s')
    end.

Definition panic {A : Type} (reason : string) : M A := fun s => (Fault reason, s).

Notation "x <- m ;; k" := (bind m (fun x => k))
  (at level 100, m at next level, right associativity).
Notation "m ;;; k" := (bind m (fun _ => k))
  (at level 100, right associativity).

Definition nil_dereference : string := "invalid memory address or nil pointer dereference".

Definition get_heap : M heap := fun s => (Ok (st_heap s), s).
Definition put_heap (h : heap) : M unit :=
  fun s => (Ok tt, mkState h (st_calls s)).
Definition record_call (c : call) : M unit :=
  fun s => (Ok tt, mkState (st_heap s) (st_calls s ++ [c])).

(** [make(map[string]string)] and friends: the new object gets the next
    address. *)
Definition alloc_map (m : gmap string string) : M loc :=
  fun s =>
    let h := st_heap s in
    (Ok (length (h_maps h)),
     mkState (mkHeap (h_maps h ++ [m]) (h_arrs h) (h_ids h) (h_raws h)) (st_calls s)).

Definition alloc_arr (a : list instance.Attachment) : M loc :=
  fun s =>
    let h := st_heap s in
    (Ok (length (h_arrs h)),
     mkState (mkHeap (h_maps h) (h_arrs h ++ [a]) (h_ids h) (h_raws h)) (st_calls s)).

Definition alloc_id (i : instance.LogicalID) : M loc :=
  fun s =>
    let h := st_heap s in
    (Ok (length (h_ids h)),
     mkState (mkHeap (h_maps h) (h_arrs h) (h_ids h ++ [i]) (h_raws h)) (st_calls s)).

(** Reading through a reference.  Ranging over a nil map or a nil slice
    yields nothing; dereferencing a nil pointer panics.  A reference to no
    object of the store does not arise in Go; reading through one is a
    [Fault] here, and the properties below are about well-formed specs
    ([spec_wf]). *)
Definition load_map (r : option loc) : M (gmap string string) :=
  match r with
  | None => ret ∅
  | Some l =>
      h <- get_heap ;;
      match h_maps h !! l with
      | Some m => ret m
      | None => panic "dangling map"
      end
  end.

Definition load_arr (r : option loc) : M (list instance.Attachment) :=
  match r with
  | None => ret []
  | Some l =>
      h <- get_heap ;;
      match h_arrs h !! l with
      | Some a => ret a
      | None => panic "dangling slice"
      end
  end.

Definition load_id (r : option loc) : M instance.LogicalID :=
  match r with
  | None => panic nil_dereference
  | Some l =>
      h <- get_heap ;;
      match h_ids h !! l with
      | Some i => ret i
      | None => panic "dangling pointer"
      end
  end.

(** Writing through a reference: an assignment to a nil map panics. *)
Definition store_map (r : option loc) (m : gmap string string) : M unit :=
  match r with
  | None => panic "assignment to entry in nil map"
  | Some l =>
      h <- get_heap ;;
      put_heap (mkHeap (<[l:=m]> (h_maps h)) (h_arrs h) (h_ids h) (h_raws h))
  end.

(** [for k, v := range src { dst[k] = v }] on the contents of two maps. *)
Definition assign_all (src dst : gmap string string) : gmap string string :=
  map_fold (fun k v acc => <[k:=v]> acc) dst src.

(** [for _, v := range src { dst = append(dst, v) }]. *)
Definition append_all (src dst : list instance.Attachment) : list instance.Attachment :=
  fold_left (fun acc v => acc ++ [v]) src dst.

(** Method calls through an interface value: a nil interface panics, any
    other value is called and the call recorded. *)
Definition call_Validate (name : string) (p : option flavor.Plugin.t)
    (props : RawMessage) (a : types.AllocationMethod) : M (option error) :=
  match p with
  | None => panic nil_dereference
  | Some p =>
      record_call (CallValidate name props) ;;;
      ret (flavor.Plugin.Validate p props a)
  end.

Definition call_Healthy (name : string) (p : option flavor.Plugin.t)
    (props : RawMessage) (inst : instance.Description)
    : M (flavor.Health * option error) :=
  match p with
  | None => panic nil_dereference
  | Some p =>
      record_call (CallHealthy name props) ;;;
      ret (flavor.Plugin.Healthy p props inst)
  end.

Definition call_Drain (name : string) (p : option flavor.Plugin.t)
    (props : RawMessage) (inst : instance.Description) : M (option error) :=
  match p with
  | None => panic nil_dereference
  | Some p =>
      record_call (CallDrain name props) ;;;
      ret (flavor.Plugin.Drain p props inst)
  end.

Definition call_Prepare (name : string) (p : option flavor.Plugin.t)
    (props : RawMessage) (spec : instance.Spec) (a : types.AllocationMethod)
    : M (instance.Spec * option error) :=
  match p with
  | None => panic nil_dereference
  | Some p =>
      h <- get_heap ;;
      record_call (CallPrepare name props spec (view h spec)) ;;;
      let '(out, err, h') := flavor.Plugin.Prepare p props spec a h in
      put_heap h' ;;;
      ret (out, err)
  end.

(** [for k, v := range src { dst[k] = v }] through the store.  Nothing is
    written when [src] has no entry. *)
Definition range_assign (src dst : option loc) : M unit :=
  m <- load_map src ;;
  if decide (m = ∅) then ret tt
  else d <- load_map dst ;; store_map dst (assign_all m d).

(** [for _, v := range src { dst = append(dst, v) }] through the store, with
    the new value of [dst] as result.  [append] never changes what another
    holder of the old slice reads, and the code below never assigns to an
    element of a slice: the grown slice is a new array with the old contents
    and the appended elements. *)
Definition range_append (src dst : option loc) : M (option loc) :=
  vs <- load_arr src ;;
  match vs with
  | [] => ret dst
  | _ :: _ =>
      cur <- load_arr dst ;;
      l <- alloc_arr (append_all vs cur) ;;
      ret (Some l)
  end.

(** The new value of [result.Init] after one round of the loop of
    mergeSpecs: a non-empty [spec.Init] is appended, behind a line feed when
    [result.Init] is not empty. *)
Definition append_init (result spec : string) : string :=
  if decide (spec = EmptyString) then result
  else
    (if decide (result = EmptyString) then result else result +:+ newline)
    +:+ spec.

(** ** The combo flavor plugin *)

Module combo.

(** Spec is the model of the plugin Properties. *)
Record Spec : Type := mkSpec {
  Flavors : list types.FlavorPlugin;
}.

(** Functions of other packages that the plugin calls: [json.Unmarshal]
    into a [Spec] (the decoded value, zero where nothing was decoded, and
    the error) and [types.RawMessage], which turns the pointer of a member's
    properties into a raw message. *)
Class Externals : Type := mkExternals {
  json_Unmarshal : RawMessage -> Spec * option error;
  types_RawMessage : option RawMessage -> RawMessage;
}.

(** [flavorPlugins] is a group.FlavorPluginLookup: from a plugin name to an
    interface value and an error, either of which may be nil. *)
Record flavorCombo : Type := NewPlugin {
  flavorPlugins : string -> option flavor.Plugin.t * option error;
}.

Section Operations.
Context `{Externals}.

Definition Validate (f : flavorCombo) (flavorProperties : RawMessage)
    (allocation : types.AllocationMethod) : M (option error) :=
  let '(s, err) := json_Unmarshal flavorProperties in
  ret err.

(** The loop of Healthy over [s.Flavors], with the return that follows
    the loop as its last case. *)
Fixpoint Healthy_range (f : flavorCombo) (inst : instance.Description)
    (flavors : list types.FlavorPlugin) : M (flavor.Health * option error) :=
  match flavors with
  | [] => ret (flavor.Healthy, None)
  | pluginSpec :: rest =>
      let '(plugin, err) := flavorPlugins f (types.Plugin pluginSpec) in
      match err with
      | Some e => ret (flavor.Unknown, Some e)
      | None =>
          r <- call_Healthy (types.Plugin pluginSpec) plugin
                 (types_RawMessage (types.Properties pluginSpec)) inst ;;
          match r with
          | (flavor.Healthy, None) => Healthy_range f inst rest
          | (health, err) => ret (health, err)
          end
      end
  end.

Definition Healthy (f : flavorCombo) (flavorProperties : RawMessage)
    (inst : instance.Description) : M (flavor.Health * option error) :=
  let '(s, err) := json_Unmarshal flavorProperties in
  match err with
  | Some e => ret (flavor.Unknown, Some e)
  | None => Healthy_range f inst (Flavors s)
  end.

(** The loop of Drain: [errs] is the slice of messages collected so
    far.  After a failed lookup the message is appended and the loop body
    goes on to the call of [plugin.Drain]. *)
Fixpoint Drain_range (f : flavorCombo) (inst : instance.Description)
    (flavors : list types.FlavorPlugin) (errs : list string) : M (list string) :=
  match flavors with
  | [] => ret errs
  | pluginSpec :: rest =>
      let '(plugin, err) := flavorPlugins f (types.Plugin pluginSpec) in
      let errs :=
        match err with
        | Some e => errs ++ [e]
        | None => errs
        end in
      derr <- call_Drain (types.Plugin pluginSpec) plugin
                (types_RawMessage (types.Properties pluginSpec)) inst ;;
      let errs :=
        match derr with
        | Some e => errs ++ [e]
        | None => errs
        end in
      Drain_range f inst rest errs
  end.

Definition Drain (f : flavorCombo) (flavorProperties : RawMessage)
    (inst : instance.Description) : M (option error) :=
  let '(s, err) := json_Unmarshal flavorProperties in
  match err with
  | Some e => ret (Some e)
  | None =>
      errs <- Drain_range f inst (Flavors s) [] ;;
      if bool_decide (length errs = 0) then ret None
      else ret (Some (String.concat ", " errs))
  end.

Definition cloneSpec (spec : instance.Spec) : M instance.Spec :=
  tags <- alloc_map ∅ ;;
  range_assign (instance.Tags spec) (Some tags) ;;;
  logicalID <-
    match instance.LogicalID_ spec with
    | None => ret None
    | Some l =>
        idCopy <- load_id (Some l) ;;
        l' <- alloc_id idCopy ;;
        ret (Some l')
    end ;;
  empty <- alloc_arr [] ;;
  attachments <- range_append (instance.Attachments spec) (Some empty) ;;
  ret (instance.mkSpec (instance.Properties spec) (Some tags)
         (instance.Init spec) logicalID attachments).

(** One round of the loop of mergeSpecs on [result]. *)
Definition merge_one (result spec : instance.Spec) : M instance.Spec :=
  range_assign (instance.Tags spec) (instance.Tags result) ;;;
  let init := append_init (instance.Init result) (instance.Init spec) in
  attachments <- range_append (instance.Attachments spec)
                   (instance.Attachments result) ;;
  ret (instance.mkSpec (instance.Properties result) (instance.Tags result)
         init (instance.LogicalID_ result) attachments).

Fixpoint mergeSpecs_range (result : instance.Spec)
    (specs : list instance.Spec) : M instance.Spec :=
  match specs with
  | [] => ret result
  | spec :: rest =>
      result' <- merge_one result spec ;;
      mergeSpecs_range result' rest
  end.

Definition mergeSpecs (initial : instance.Spec) (specs : list instance.Spec)
    : M (instance.Spec * option error) :=
  result <- cloneSpec initial ;;
  result <- mergeSpecs_range result specs ;;
  ret (result, None).

(** The loop of Prepare: [inl] is a return from inside the loop, [inr]
    the collected outputs when the loop runs to its end. *)
Fixpoint Prepare_range (f : flavorCombo) (inst : instance.Spec)
    (allocation : types.AllocationMethod)
    (flavors : list types.FlavorPlugin) (specs : list instance.Spec)
    : M (instance.Spec * option error + list instance.Spec) :=
  match flavors with
  | [] => ret (inr specs)
  | pluginSpec :: rest =>
      clone <- cloneSpec inst ;;
      let '(plugin, err) := flavorPlugins f (types.Plugin pluginSpec) in
      match err with
      | Some e => ret (inl (inst, Some e))
      | None =>
          r <- call_Prepare (types.Plugin pluginSpec) plugin
                 (types_RawMessage (types.Properties pluginSpec))
                 clone allocation ;;
          match r with
          | (_, Some e) => ret (inl (inst, Some e))
          | (flavorOutput, None) =>
              Prepare_range f inst allocation rest (specs ++ [flavorOutput])
          end
      end
  end.

Definition Prepare (f : flavorCombo) (flavor : RawMessage)
    (inst : instance.Spec) (allocation : types.AllocationMethod)
    : M (instance.Spec * option error) :=
  let '(combo, err) := json_Unmarshal flavor in
  match err with
  | Some e => ret (inst, Some e)
  | None =>
      r <- Prepare_range f inst allocation (Flavors combo) [] ;;
      match r with
      | inl early => ret early
      | inr specs => mergeSpecs inst specs
      end
  end.

End Operations.

End combo.

(** ** The RPC flavor service *)

Module rpc.

(** Modelled from the spec: the request and response types of the four
    methods are declared in a file that is not part of the sources; their
    fields are those the handlers use.  [Properties] is a pointer to a raw
    message. *)
Module ValidateRequest.
Record t : Type := mk {
  Type_ : string;
  Properties : option RawMessage;
  Allocation : types.AllocationMethod;
}.
End ValidateRequest.

Module ValidateResponse.
Record t : Type := mk { Type_ : string; OK : bool }.
End ValidateResponse.

Module PrepareRequest.
Record t : Type := mk {
  Type_ : string;
  Properties : option RawMessage;
  Spec : instance.Spec;
  Allocation : types.AllocationMethod;
}.
End PrepareRequest.

Module PrepareResponse.
Record t : Type := mk { Type_ : string; Spec : instance.Spec }.
End PrepareResponse.

Module HealthyRequest.
Record t : Type := mk {
  Type_ : string;
  Properties : option RawMessage;
  Instance : instance.Description;
}.
End HealthyRequest.

Module HealthyResponse.
Record t : Type := mk { Type_ : string; Health : flavor.Health }.
End HealthyResponse.

Module DrainRequest.
Record t : Type := mk {
  Type_ : string;
  Properties : option RawMessage;
  Instance : instance.Description;
}.
End DrainRequest.

Module DrainResponse.
Record t : Type := mk { Type_ : string; OK : bool }.
End DrainResponse.

(** Flavor, the exported type of the service: a default plugin and the
    plugins by type; both may be nil, and so may a value of the map. *)
Record Flavor : Type := mkFlavor {
  plugin : option flavor.Plugin.t;
  typedPlugins : option (gmap string (option flavor.Plugin.t));
}.

Definition PluginServer (p : option flavor.Plugin.t) : Flavor :=
  {| plugin := p; typedPlugins := None |}.

Definition PluginServerWithTypes
    (typed : option (gmap string (option flavor.Plugin.t))) : Flavor :=
  {| plugin := None; typedPlugins := typed |}.

Definition getPlugin (p : Flavor) (flavorType : string) : option flavor.Plugin.t :=
  if decide (flavorType = EmptyString) then plugin p
  else
    match typedPlugins p with
    | None => None
    | Some typed =>
        match typed !! flavorType with
        | Some q => q
        | None => None
        end
    end.

(** [fmt.Errorf("no-plugin:%s", req.Type)]. *)
Definition no_plugin (type : string) : error := "no-plugin:" +:+ type.

(** [*req.Properties]. *)
Definition deref (r : option RawMessage) : M RawMessage :=
  match r with
  | None => panic nil_dereference
  | Some raw => ret raw
  end.

(** Each handler returns the response it has filled in and the error. *)
Definition Validate (p : Flavor) (req : ValidateRequest.t)
    (resp : ValidateResponse.t) : M (ValidateResponse.t * option error) :=
  let raw : RawMessage :=
    match ValidateRequest.Properties req with
    | Some r => r
    | None => []
    end in
  let resp := ValidateResponse.mk (ValidateRequest.Type_ req) (ValidateResponse.OK resp) in
  match getPlugin p (ValidateRequest.Type_ req) with
  | None => ret (resp, Some (no_plugin (ValidateRequest.Type_ req)))
  | Some c =>
      err <- call_Validate (ValidateRequest.Type_ req) (Some c) raw
               (ValidateRequest.Allocation req) ;;
      match err with
      | Some e => ret (resp, Some e)
      | None => ret (ValidateResponse.mk (ValidateResponse.Type_ resp) true, None)
      end
  end.

Definition Prepare (p : Flavor) (req : PrepareRequest.t)
    (resp : PrepareResponse.t) : M (PrepareResponse.t * option error) :=
  let raw : RawMessage :=
    match PrepareRequest.Properties req with
    | Some r => r
    | None => []
    end in
  let resp := PrepareResponse.mk (PrepareRequest.Type_ req) (PrepareResponse.Spec resp) in
  match getPlugin p (PrepareRequest.Type_ req) with
  | None => ret (resp, Some (no_plugin (PrepareRequest.Type_ req)))
  | Some c =>
      r <- call_Prepare (PrepareRequest.Type_ req) (Some c) raw
             (PrepareRequest.Spec req) (PrepareRequest.Allocation req) ;;
      match r with
      | (_, Some e) => ret (resp, Some e)
      | (spec, None) => ret (PrepareResponse.mk (PrepareResponse.Type_ resp) spec, None)
      end
  end.

Definition Healthy (p : Flavor) (req : HealthyRequest.t)
    (resp : HealthyResponse.t) : M (HealthyResponse.t * option error) :=
  let resp := HealthyResponse.mk (HealthyRequest.Type_ req) (HealthyResponse.Health resp) in
  match getPlugin p (HealthyRequest.Type_ req) with
  | None => ret (resp, Some (no_plugin (HealthyRequest.Type_ req)))
  | Some c =>
      props <- deref (HealthyRequest.Properties req) ;;
      r <- call_Healthy (HealthyRequest.Type_ req) (Some c) props
             (HealthyRequest.Instance req) ;;
      match r with
      | (_, Some e) => ret (resp, Some e)
      | (health, None) => ret (HealthyResponse.mk (HealthyResponse.Type_ resp) health, None)
      end
  end.

Definition Drain (p : Flavor) (req : DrainRequest.t)
    (resp : DrainResponse.t) : M (DrainResponse.t * option error) :=
  let resp := DrainResponse.mk (DrainRequest.Type_ req) (DrainResponse.OK resp) in
  match getPlugin p (DrainRequest.Type_ req) with
  | None => ret (resp, Some (no_plugin (DrainRequest.Type_ req)))
  | Some c =>
      props <- deref (DrainRequest.Properties req) ;;
      err <- call_Drain (DrainRequest.Type_ req) (Some c) props
               (DrainRequest.Instance req) ;;
      match err with
      | Some e => ret (resp, Some e)
      | None => ret (DrainResponse.mk (DrainResponse.Type_ resp) true, None)
      end
  end.

End rpc.

(** ** Vocabulary of the statements *)

(** The state after further calls have been recorded. *)
Definition log_calls (st : state) (cs : list call) : state :=
  mkState (st_heap st) (st_calls st ++ cs).

Section Members.
Context `{combo.Externals}.

(** The raw message a member's plugin is called with. *)
Definition member_props (m : types.FlavorPlugin) : RawMessage :=
  combo.types_RawMessage (types.Properties m).

(** A member resolves when the lookup yields a plugin and no error. *)
Definition resolve (f : combo.flavorCombo) (m : types.FlavorPlugin)
    : option flavor.Plugin.t :=
  match combo.flavorPlugins f (types.Plugin m) with
  | (Some p, None) => Some p
  | _ => None
  end.

(** What a resolved member answers to Healthy and to Drain. *)
Definition member_Healthy (f : combo.flavorCombo) (inst : instance.Description)
    (m : types.FlavorPlugin) : option (flavor.Health * option error) :=
  p ← resolve f m; Some (flavor.Plugin.Healthy p (member_props m) inst).

Definition member_Drain (f : combo.flavorCombo) (inst : instance.Description)
    (m : types.FlavorPlugin) : option (option error) :=
  p ← resolve f m; Some (flavor.Plugin.Drain p (member_props m) inst).

(** The messages of the members whose Drain fails, in listed order. *)
Definition Drain_failures (f : combo.flavorCombo) (inst : instance.Description)
    (ms : list types.FlavorPlugin) : list string :=
  omap (fun m => d ← member_Drain f inst m; d) ms.

Definition Healthy_call (m : types.FlavorPlugin) : call :=
  CallHealthy (types.Plugin m) (member_props m).

Definition Drain_call (m : types.FlavorPlugin) : call :=
  CallDrain (types.Plugin m) (member_props m).

End Members.

(** ** Vocabulary of the store *)

(** Every object of [old] is still there, unchanged, in [new]. *)
Definition extends {A : Type} (old new : list A) : Prop :=
  forall l x, old !! l = Some x -> new !! l = Some x.

(** The same, but for the object [own] refers to. *)
Definition keeps {A : Type} (old new : list A) (own : option loc) : Prop :=
  forall l x, old !! l = Some x -> own <> Some l -> new !! l = Some x.

(** The maps, arrays and identifiers of [h] are unchanged in [h']; raw
    messages are still allocated. *)
Definition heap_extends (h h' : heap) : Prop :=
  extends (h_maps h) (h_maps h')
  /\ extends (h_arrs h) (h_arrs h')
  /\ extends (h_ids h) (h_ids h')
  /\ length (h_raws h) <= length (h_raws h').

(** The map, the array and the identifier of [c] were allocated after [h]. *)
Definition fresh (h : heap) (c : instance.Spec) : Prop :=
  (exists l, instance.Tags c = Some l /\ length (h_maps h) <= l)
  /\ (exists l, instance.Attachments c = Some l /\ length (h_arrs h) <= l)
  /\ (forall l, instance.LogicalID_ c = Some l -> length (h_ids h) <= l).

(** A view without its properties: the part of an instance spec that
    cloneSpec copies. *)
Definition isolated (v : SpecView) : SpecView :=
  mkSpecView None (sv_tags v) (sv_init v) (sv_logicalID v) (sv_attachments v).

(** One round of the loop of mergeSpecs, on what is read through the specs. *)
Definition merge_view (acc v : SpecView) : SpecView :=
  {| sv_properties := sv_properties acc;
     sv_tags := sv_tags v ∪ sv_tags acc;
     sv_init := append_init (sv_init acc) (sv_init v);
     sv_logicalID := sv_logicalID acc;
     sv_attachments := sv_attachments acc ++ sv_attachments v |}.

(** No object has been deallocated between [h] and [h']. *)
Definition heap_le (h h' : heap) : Prop :=
  length (h_maps h) <= length (h_maps h')
  /\ length (h_arrs h) <= length (h_arrs h')
  /\ length (h_ids h) <= length (h_ids h')
  /\ length (h_raws h) <= length (h_raws h').

(** What a member plugin may do in Prepare: it is handed a well-formed
    spec and leaves every object of the store as it is, but for those the spec
    refers to (its map, its array, its identifier, and any raw message); it
    may allocate, and it returns a well-formed spec. *)
Definition well_behaved (p : flavor.Plugin.t) : Prop :=
  forall props spec a h,
    spec_wf h spec = true ->
    let r := flavor.Plugin.Prepare p props spec a h in
    heap_le h r.2
    /\ keeps (h_maps h) (h_maps r.2) (instance.Tags spec)
    /\ keeps (h_arrs h) (h_arrs r.2) (instance.Attachments spec)
    /\ keeps (h_ids h) (h_ids r.2) (instance.LogicalID_ spec)
    /\ spec_wf r.2 r.1.1 = true.

Definition all_well_behaved (f : combo.flavorCombo) : Prop :=
  forall name p e, combo.flavorPlugins f name = (Some p, e) -> well_behaved p.

(** The clone and the view recorded with a call of Prepare. *)
Definition Prepare_clone (c : call) : option instance.Spec :=
  match c with
  | CallPrepare _ _ clone _ => Some clone
  | _ => None
  end.

Definition Prepare_seen (c : call) : option SpecView :=
  match c with
  | CallPrepare _ _ _ seen => Some seen
  | _ => None
  end.

Definition clone_tags (c : call) : option loc :=
  clone ← Prepare_clone c; instance.Tags clone.

Definition clone_attachments (c : call) : option loc :=
  clone ← Prepare_clone c; instance.Attachments clone.

(** A call of Prepare that hands the plugin a clone of [inst] as it is in
    the store [h0]: new objects, through which the plugin reads what is read
    through [inst]. *)
Definition hands_clone (h0 : heap) (inst : instance.Spec) (c : call) : Prop :=
  exists clone seen,
    Prepare_clone c = Some clone
    /\ Prepare_seen c = Some seen
    /\ fresh h0 clone
    /\ isolated seen = isolated (view h0 inst).

(** The invariant of the loop of Prepare, from a call that starts in the
    store [h0] with the calls [calls0] on record: the objects of [h0] are as
    they were, and every call recorded since has handed its plugin a clone of
    [inst], made of objects that no other clone shares. *)
Definition Prepare_inv (h0 : heap) (inst : instance.Spec) (calls0 : list call)
    (st : state) : Prop :=
  heap_extends h0 (st_heap st)
  /\ exists evs,
       st_calls st = calls0 ++ evs
       /\ Forall (hands_clone h0 inst) evs
       /\ Forall (fun ev => forall c, Prepare_clone ev = Some c ->
                              spec_wf (st_heap st) c = true) evs
       /\ NoDup (omap clone_tags evs)
       /\ NoDup (omap clone_attachments evs).

(** ** Concrete plugins, lookups and payloads for the examples *)

Module demo.

Definition bytes (s : string) : RawMessage := list_byte_of_string s.

(** A plugin that succeeds at everything, reports [h] and hands back the
    spec it is given. *)
Definition steady (h : flavor.Health) : flavor.Plugin.t :=
  flavor.Plugin.mk
    (fun _ _ => None)
    (fun _ spec _ hp => (spec, None, hp))
    (fun _ _ => (h, None))
    (fun _ _ => None).

(** A plugin all of whose operations fail with [msg]. *)
Definition failing (msg : string) : flavor.Plugin.t :=
  flavor.Plugin.mk
    (fun _ _ => Some msg)
    (fun _ spec _ hp => (spec, Some msg, hp))
    (fun _ _ => (flavor.Unknown, Some msg))
    (fun _ _ => Some msg).

(** A plugin whose Prepare writes the tag role=worker into the map of the
    spec it is given, replaces the first attachment of its array, and hands
    the spec back with a line of init. *)
Definition tagger : flavor.Plugin.t :=
  flavor.Plugin.mk
    (fun _ _ => None)
    (fun _ spec _ hp =>
       (instance.mkSpec (instance.Properties spec) (instance.Tags spec)
          "echo tagged" (instance.LogicalID_ spec) (instance.Attachments spec),
        None,
        mkHeap
          match instance.Tags spec with
          | Some l => alter (fun m => <[ "role" := "worker" ]> m) l (h_maps hp)
          | None => h_maps hp
          end
          match instance.Attachments spec with
          | Some l => alter (fun a => <[ 0 := "scratch" ]> a) l (h_arrs hp)
          | None => h_arrs hp
          end
          (h_ids hp) (h_raws hp)))
    (fun _ _ => (flavor.Healthy, None))
    (fun _ _ => None).

Definition machine : instance.Description :=
  instance.mkDescription "i-0001" None ∅.

Definition one : types.AllocationMethod := types.mkAllocationMethod 1 [].

Definition start : state := mkState empty_heap [].

(** The payloads of the examples: the byte "=" followed by one byte per
    member, the name of its plugin; anything else does not decode. *)
Definition member_of_byte (b : Byte.byte) : types.FlavorPlugin :=
  types.mkFlavorPlugin (String (ascii_of_byte b) EmptyString) None.

Definition Unmarshal (raw : RawMessage) : combo.Spec * option error :=
  match raw with
  | [] => (combo.mkSpec [], Some "unexpected end of JSON input")
  | b :: members =>
      if Byte.eqb b "="%byte then (combo.mkSpec (map member_of_byte members), None)
      else (combo.mkSpec [], Some "invalid character")
  end.

Definition externals : combo.Externals :=
  combo.mkExternals Unmarshal (fun r => default [] r).

(** The lookup of the examples: "h" is healthy, "u" unhealthy, "x" and "y"
    fail with their name, "t" is the tagger, and no other name resolves. *)
Definition plugins : combo.flavorCombo :=
  combo.NewPlugin (fun name =>
    if decide (name = "h") then (Some (steady flavor.Healthy), None)
    else if decide (name = "u") then (Some (steady flavor.Unhealthy), None)
    else if decide (name = "x") then (Some (failing "x"), None)
    else if decide (name = "y") then (Some (failing "y"), None)
    else if decide (name = "t") then (Some tagger, None)
    else (None, Some ("plugin not found: " +:+ name))).

(** A store with the objects of an original spec (tags role=base and k=0,
    no init, a logical identifier, attachment x) and of three member
    outputs: A with tags k=1, init "echo a" and attachment x; B with tags
    k=2, no init and attachments y, z; C with no tags and init "echo c". *)
Definition store : heap :=
  mkHeap
    [ {[ "k" := "1" ]}; {[ "k" := "2" ]}; {[ "role" := "base"; "k" := "0" ]} ]
    [ ["x"]; ["y"; "z"] ]
    [ "10.0.0.1" ]
    [ bytes "{}" ].

Definition loaded : state := mkState store [].

Definition base : instance.Spec :=
  instance.mkSpec (Some 0) (Some 2) EmptyString (Some 0) (Some 0).

Definition outA : instance.Spec :=
  instance.mkSpec (Some 0) (Some 0) "echo a" None (Some 0).

Definition outB : instance.Spec :=
  instance.mkSpec (Some 0) (Some 1) EmptyString None (Some 1).

Definition outC : instance.Spec :=
  instance.mkSpec (Some 0) None "echo c" None None.

End demo.

(** ** Further vocabulary of the combo flavor plugin *)

Section MoreMembers.
Context `{combo.Externals}.

(** What one round of the loop of Drain appends to [errs] for a member whose
    lookup yields the plugin [p]: the message of the lookup error, if any,
    then the message of the error of Drain, if any. *)
Definition Drain_round (f : combo.flavorCombo) (inst : instance.Description)
    (m : types.FlavorPlugin) : list string :=
  match combo.flavorPlugins f (types.Plugin m) with
  | (Some p, err) =>
      option_list err
      ++ option_list (flavor.Plugin.Drain p (member_props m) inst)
  | (None, err) => option_list err
  end.

(** The lookup of a member yields a plugin (with or without an error). *)
Definition has_plugin (f : combo.flavorCombo) (m : types.FlavorPlugin) : bool :=
  match combo.flavorPlugins f (types.Plugin m) with
  | (Some _, _) => true
  | (None, _) => false
  end.

(** The lookup of a member yields a plugin or an error, not nil and nil. *)
Definition answers (f : combo.flavorCombo) (m : types.FlavorPlugin) : bool :=
  match combo.flavorPlugins f (types.Plugin m) with
  | (None, None) => false
  | _ => true
  end.

(** The member resolves to a plugin whose Prepare never returns an error. *)
Definition never_fails (f : combo.flavorCombo) (m : types.FlavorPlugin) : Prop :=
  exists p,
    combo.flavorPlugins f (types.Plugin m) = (Some p, None)
    /\ forall props c a h, (flavor.Plugin.Prepare p props c a h).1.2 = None.

(** The call on record is the call of Prepare on the member: under its name
    and with its properties. *)
Definition called (m : types.FlavorPlugin) (ev : call) : Prop :=
  exists clone seen,
    ev = CallPrepare (types.Plugin m) (member_props m) clone seen.

(** Why the loop of Prepare has returned the error [err] after calling the
    members [ms1], with the members [ms2] left: the lookup of the next member
    has failed with it, or the plugin of the last member called has returned
    it. *)
Definition stopped (f : combo.flavorCombo) (allocation : types.AllocationMethod)
    (ms1 ms2 : list types.FlavorPlugin) (err : option error) : Prop :=
  (exists m rest p e,
      ms2 = m :: rest
      /\ combo.flavorPlugins f (types.Plugin m) = (p, Some e)
      /\ err = Some e)
  \/ (exists before m p c h e,
        ms1 = before ++ [m]
        /\ combo.flavorPlugins f (types.Plugin m) = (Some p, None)
        /\ (flavor.Plugin.Prepare p (member_props m) c allocation h).1.2 = Some e
        /\ err = Some e).

(** The outputs of the members, in listed order: for each member a clone of
    [inst] is made, the member's plugin is looked up and called on the clone
    in the store as it then is, and what it returns without error is the
    member's output; the call goes on record and the plugin's store is the
    store the next member starts from. *)
Inductive collects (f : combo.flavorCombo) (inst : instance.Spec)
    (allocation : types.AllocationMethod)
    : list types.FlavorPlugin -> state -> list instance.Spec -> state -> Prop :=
  | collects_nil (st : state) : collects f inst allocation [] st [] st
  | collects_cons (m : types.FlavorPlugin) (ms : list types.FlavorPlugin)
      (st st1 st' : state) (c out : instance.Spec) (p : flavor.Plugin.t)
      (h2 : heap) (outs : list instance.Spec) :
      combo.cloneSpec inst st = (Ok c, st1) ->
      combo.flavorPlugins f (types.Plugin m) = (Some p, None) ->
      flavor.Plugin.Prepare p (member_props m) c allocation (st_heap st1)
        = (out, None, h2) ->
      collects f inst allocation ms
        (mkState h2
           (st_calls st1 ++
              [CallPrepare (types.Plugin m) (member_props m) c
                 (view (st_heap st1) c)]))
        outs st' ->
      collects f inst allocation (m :: ms) st (out :: outs) st'.

End MoreMembers.

Module demo2.

(** A lookup whose entries for "x" and "y" are stale: it yields the plugin
    together with an error. *)
Definition stale : combo.flavorCombo :=
  combo.NewPlugin (fun name =>
    if decide (name = "h") then (Some (demo.steady flavor.Healthy), None)
    else if decide (name = "x")
    then (Some (demo.failing "x"), Some "stale entry: x")
    else if decide (name = "y")
    then (Some (demo.failing "y"), Some "stale entry: y")
    else (None, None)).

End demo2.

(** ** The RPC flavor service: vendor information and example properties *)

Module rpcx.

(** The type assertions [p.plugin.(spi.Vendor)] and
    [p.plugin.(spi.InputExample)], on a plugin that is not nil: whether the
    plugin implements the interface and, if so, what its method returns (a
    pointer, possibly nil).  Modelled from the spec: spi.VendorInfo is
    declared outside the sources and is kept abstract. *)
Class Assertions : Type := mkAssertions {
  VendorInfo_t : Type;
  as_Vendor : flavor.Plugin.t -> option (option VendorInfo_t);
  as_InputExample : flavor.Plugin.t -> option (option RawMessage);
}.

(** The [request interface{}] of SetExampleProperties: a pointer to one of
    the request types, or a value of any other type. *)
Inductive request : Type :=
  | ValidateRequestPtr (r : rpc.ValidateRequest.t)
  | PrepareRequestPtr (r : rpc.PrepareRequest.t)
  | HealthyRequestPtr (r : rpc.HealthyRequest.t)
  | DrainRequestPtr (r : rpc.DrainRequest.t)
  | OtherValue.

Definition request_Properties (r : request) : option RawMessage :=
  match r with
  | ValidateRequestPtr r => rpc.ValidateRequest.Properties r
  | PrepareRequestPtr r => rpc.PrepareRequest.Properties r
  | HealthyRequestPtr r => rpc.HealthyRequest.Properties r
  | DrainRequestPtr r => rpc.DrainRequest.Properties r
  | OtherValue => None
  end.

(** The request types that have a case in the type switch. *)
Definition takes_example (r : request) : bool :=
  match r with
  | PrepareRequestPtr _ | HealthyRequestPtr _ | DrainRequestPtr _ => true
  | ValidateRequestPtr _ | OtherValue => false
  end.

Section Operations.
Context `{Assertions}.

Definition VendorInfo (p : rpc.Flavor) : option VendorInfo_t :=
  match rpc.plugin p with
  | None => None
  | Some c =>
      match as_Vendor c with
      | Some info => info
      | None => None
      end
  end.

(** The request after the call: the object [request] points to. *)
Definition SetExampleProperties (p : rpc.Flavor) (request : rpcx.request)
    : rpcx.request :=
  match rpc.plugin p with
  | None => request
  | Some c =>
      match as_InputExample c with
      | None => request
      | Some None => request
      | Some (Some example) =>
          match request with
          | PrepareRequestPtr r =>
              PrepareRequestPtr
                (rpc.PrepareRequest.mk (rpc.PrepareRequest.Type_ r) (Some example)
                   (rpc.PrepareRequest.Spec r) (rpc.PrepareRequest.Allocation r))
          | HealthyRequestPtr r =>
              HealthyRequestPtr
                (rpc.HealthyRequest.mk (rpc.HealthyRequest.Type_ r) (Some example)
                   (rpc.HealthyRequest.Instance r))
          | DrainRequestPtr r =>
              DrainRequestPtr
                (rpc.DrainRequest.mk (rpc.DrainRequest.Type_ r) (Some example)
                   (rpc.DrainRequest.Instance r))
          | _ => request
          end
      end
  end.

(** The type assertion on a nil plugin fails without a panic. *)
Definition exampleProperties (p : rpc.Flavor) : option RawMessage :=
  match rpc.plugin p with
  | None => None
  | Some c =>
      match as_InputExample c with
      | Some example => example
      | None => None
      end
  end.

End Operations.

End rpcx.

(** ** Template functions *)

Module template.

(** A value of type [interface{}] as SplitLines inspects it: a string, a
    byte slice, or a value of any other type. *)
Inductive any : Type :=
  | AString (s : string)
  | ABytes (b : list Byte.byte)
  | AOther.

Definition newline_char : ascii := ascii_of_nat 10.

(** [strings.Split(s, "\n")] of the Go library: the substrings of [s] between
    the line feeds; a string without line feed, the empty string too, is the
    only element of the result. *)
Fixpoint strings_Split_newline (s : string) : list string :=
  match s with
  | EmptyString => [EmptyString]
  | String c rest =>
      if decide (c = newline_char)
      then EmptyString :: strings_Split_newline rest
      else
        match strings_Split_newline rest with
        | line :: lines => String c line :: lines
        | [] => [String c EmptyString]
        end
  end.

(** SplitLines splits the input into a string slice. *)
Definition SplitLines (o : any) : list string * option error :=
  match o with
  | AString o => (strings_Split_newline o, None)
  | ABytes o => (strings_Split_newline (string_of_list_byte o), None)
  | AOther => ([], Some "not-supported-value-type")
  end.

(** The line has no line feed. *)
Definition one_line (s : string) : Prop :=
  newline_char ∉ list_ascii_of_string s.

Section Binds.
Variable value : Type.

(** The functions "var" and "global" of DefaultFuncs are closures over
    [t.binds], a map from names to values of any type, which the constructor
    of the template (outside the sources) allocates.  "var" returns the value
    bound to the name or else [v], the slice of its further arguments. *)
Definition DefaultFuncs_var (binds : gmap string value) (name doc : string)
    (v : list value) : value + list value :=
  match binds !! name with
  | Some found => inl found
  | None => inr v
  end.

(** "global" binds the name and returns the empty string; the result is the
    map after the call and the value returned. *)
Definition DefaultFuncs_global (binds : gmap string value) (name : string)
    (v : value) : gmap string value * string :=
  (<[name := v]> binds, EmptyString).

End Binds.

End template.

(** ** The vagrant instance plugin *)

Module vagrant.

(** What DescribeInstances uses of an os.FileInfo. *)
Record FileInfo : Type := mkFileInfo {
  Name : string;
  IsDir : bool;
}.

(** The calls of DescribeInstances into the operating system and the Go
    library.  DescribeInstances only reads: each call is given by its result,
    a value and an error, for a file system that does not change during the
    call.  [json_Unmarshal_tags] decodes into a new [map[string]string]. *)
Class Files : Type := mkFiles {
  ioutil_ReadDir : string -> list FileInfo * option error;
  ioutil_ReadFile : string -> list Byte.byte * option error;
  os_IsNotExist : error -> bool;
  path_Join : string -> string -> string;
  json_Unmarshal_tags : list Byte.byte -> gmap string string * option error;
}.

(** The plugin; its template, [VagrantTmpl], is used only to run it, and
    what running it gives is an answer of the system (see [Execute]
    below). *)
Record vagrantPlugin : Type := NewVagrantPlugin {
  VagrantfilesDir : string;
}.

(** Validate performs local validation on a provision request. *)
Definition Validate (v : vagrantPlugin) (req : RawMessage) : option error := None.

(** The loop over [tags] that computes [allMatched]: the loop stops at the
    first tag that the machine lacks or has with another value, and
    [allMatched] is true when there is none. *)
Definition allMatched (tags machineTags : gmap string string) : bool :=
  map_fold (fun k v matched => matched && bool_decide (machineTags !! k = Some v))
    true tags.

Section Operations.
Context `{Files}.

(** The loop of DescribeInstances over the entries of the directory; a
    return from inside the loop yields nil and the error. *)
Fixpoint DescribeInstances_range (v : vagrantPlugin) (tags : gmap string string)
    (files : list FileInfo) (descriptions : list instance.Description)
    : list instance.Description * option error :=
  match files with
  | [] => (descriptions, None)
  | file :: rest =>
      if negb (IsDir file) then DescribeInstances_range v tags rest descriptions
      else
        let machineDir := path_Join (VagrantfilesDir v) (Name file) in
        let '(tagData, err) := ioutil_ReadFile (path_Join machineDir "tags") in
        match err with
        | Some e =>
            if os_IsNotExist e
            then DescribeInstances_range v tags rest descriptions
            else ([], Some e)
        | None =>
            let '(machineTags, err) := json_Unmarshal_tags tagData in
            match err with
            | Some e => ([], Some e)
            | None =>
                if allMatched tags machineTags then
                  let '(ipData, err) := ioutil_ReadFile (path_Join machineDir "ip") in
                  match err with
                  | None =>
                      DescribeInstances_range v tags rest
                        (descriptions ++
                           [instance.mkDescription (Name file)
                              (Some (string_of_list_byte ipData)) machineTags])
                  | Some e =>
                      if os_IsNotExist e
                      then
                        DescribeInstances_range v tags rest
                          (descriptions ++
                             [instance.mkDescription (Name file) None machineTags])
                      else ([], Some e)
                  end
                else DescribeInstances_range v tags rest descriptions
            end
        end
  end.

(** DescribeInstances returns descriptions of all instances matching all of
    the provided tags. *)
Definition DescribeInstances (v : vagrantPlugin) (tags : gmap string string)
    : list instance.Description * option error :=
  let '(files, err) := ioutil_ReadDir (VagrantfilesDir v) in
  match err with
  | Some e => ([], Some e)
  | None => DescribeInstances_range v tags files []
  end.

(** The tags of a machine: the decoded tags file of a directory entry that is
    a directory, when the file can be read and decoded. *)
Definition machine_tags (v : vagrantPlugin) (file : FileInfo)
    : option (gmap string string) :=
  if IsDir file then
    match ioutil_ReadFile
            (path_Join (path_Join (VagrantfilesDir v) (Name file)) "tags") with
    | (tagData, None) =>
        match json_Unmarshal_tags tagData with
        | (machineTags, None) => Some machineTags
        | (_, Some _) => None
        end
    | (_, Some _) => None
    end
  else None.

(** The logical identifier of a machine: the contents of its ip file, when
    the file can be read. *)
Definition machine_ip (v : vagrantPlugin) (name : string) : option string :=
  match ioutil_ReadFile (path_Join (path_Join (VagrantfilesDir v) name) "ip") with
  | (ipData, None) => Some (string_of_list_byte ipData)
  | (_, Some _) => None
  end.

(** The description of a directory entry that is a machine with all the
    requested tags. *)
Definition selected (v : vagrantPlugin) (tags : gmap string string)
    (file : FileInfo) : option instance.Description :=
  machineTags ← machine_tags v file;
  if allMatched tags machineTags
  then Some (instance.mkDescription (Name file) (machine_ip v (Name file)) machineTags)
  else None.

End Operations.

(** *** Provision and Destroy

    Provision and Destroy act on the file system and run vagrant.  Every call
    into the operating system, the template and the standard output is an
    event; a run is the sequence of its events, and each call is answered,
    through [answer], as a function of the events so far and of the call. *)

(** A value of the decoded properties: the Go int that Provision stores as a
    default, or the value decoded from a piece of JSON other than null. *)
Inductive jvalue : Type :=
  | JInt (n : Z)
  | JDecoded (source : list Byte.byte).

Inductive os_call : Type :=
  | Println (operands : list string)
  | Printf (format : string) (args : list string)
  | Stat (name : string)
  | CombinedOutput (name : string) (args : list string) (extraEnv : list string)
  | RemoveAll (path : string)
  | TempDir (dir : string) (prefix : string)
  | WriteFile (filename : string) (data : list Byte.byte) (perm : N)
  | Execute (NetworkOptions : string) (Properties : gmap string (option jvalue)).

(** The answer to a call: what it returns besides the error (the output of a
    command, the name of a directory, the text a template has written), and
    the error. *)
Record reply : Type := mkReply {
  r_out : string;
  r_err : option error;
}.

(** [json.Unmarshal] into a nil [map[string]interface{}] (a JSON null is a
    nil value of the map), [json.Marshal] of the tags (a nil map and an empty
    one are marshalled differently), and [path.Base]. *)
Class System : Type := mkSystem {
  answer : list os_call -> os_call -> reply;
  json_Unmarshal_properties :
    list Byte.byte -> gmap string (option jvalue) * option error;
  json_Marshal_tags : option (gmap string string) -> list Byte.byte * option error;
  path_Base : string -> string;
}.

Definition IO (A : Type) : Type := list os_call -> outcome A * list os_call.

Definition io_ret {A : Type} (a : A) : IO A := fun tr => (Ok a, tr).

Definition io_bind {A B : Type} (m : IO A) (k : A -> IO B) : IO B :=
  fun tr =>
    match m tr with
    | (Ok a, tr') => k a tr'
    | (Fault r, tr') => (Fault r, tr')
    end.

Definition io_panic {A : Type} (reason : string) : IO A := fun tr => (Fault reason, tr).

Notation "x <~ m ;; k" := (io_bind m (fun x => k))
  (at level 100, m at next level, right associativity).

(** The double quote of Go's [`, ip: "%s"`]. *)
Definition quote : string := String (ascii_of_nat 34) EmptyString.

(** [properties[k] == nil]: no entry, or a nil value. *)
Definition is_nil (o : option (option jvalue)) : bool :=
  match o with
  | Some (Some _) => false
  | _ => true
  end.

(** The events that remove a directory tree, run vagrant up, and write a
    file. *)
Definition is_RemoveAll (c : os_call) : bool :=
  match c with
  | RemoveAll _ => true
  | _ => false
  end.

Definition is_vagrant_up (c : os_call) : bool :=
  match c with
  | CombinedOutput name args _ =>
      bool_decide (name = "vagrant") && bool_decide (args = ["up"])
  | _ => false
  end.

Definition is_vagrant_destroy (c : os_call) : bool :=
  match c with
  | CombinedOutput name args _ =>
      bool_decide (name = "vagrant") && bool_decide (args = ["destroy"; "-f"])
  | _ => false
  end.

Definition written (c : os_call) : option (string * list Byte.byte) :=
  match c with
  | WriteFile filename data _ => Some (filename, data)
  | _ => None
  end.

Section Effects.
Context {files : Files} {system : System}.

Definition call (c : os_call) : IO reply :=
  fun tr => (Ok (answer tr c), tr ++ [c]).

(** [exec.Command(cmdAndArgs[0], cmdAndArgs[1:]...)] with the environment of
    the process and [extraEnv], run to its end; indexing an empty slice
    panics. *)
Definition inheritedEnvCommand (cmdAndArgs : list string) (extraEnv : list string)
    : IO (string * option error) :=
  match cmdAndArgs with
  | [] => io_panic "index out of range"
  | name :: args =>
      r <~ call (CombinedOutput name args extraEnv) ;;
      _ <~ call (Printf ("DEBUGGING cmd output: %s" +:+ newline) [r_out r]) ;;
      _ <~ match r_err r with
           | Some e => call (Printf ("Err: %s" +:+ newline) [e])
           | None => io_ret (mkReply EmptyString None)
           end ;;
      io_ret (r_out r, r_err r)
  end.

(** Destroy terminates an existing instance. *)
Definition Destroy (v : vagrantPlugin) (id : string) : IO (option error) :=
  _ <~ call (Println ["Destroying "; id]) ;;
  let machineDir := path_Join (VagrantfilesDir v) id in
  st <~ call (Stat machineDir) ;;
  if match r_err st with
     | Some e => os_IsNotExist e
     | None => false
     end
  then io_ret (Some "Instance does not exist")
  else
    r <~ inheritedEnvCommand ["vagrant"; "destroy"; "-f"]
           ["VAGRANT_CWD=" +:+ machineDir] ;;
    _ <~ match r.2 with
         | Some e => call (Println ["Vagrant destroy failed: "; e])
         | None => io_ret (mkReply EmptyString None)
         end ;;
    rm <~ call (RemoveAll machineDir) ;;
    io_ret (r_err rm).

(** [if err != nil { return nil, err }]. *)
Definition or_return {A : Type} (err : option error)
    (k : IO (option A * option error)) : IO (option A * option error) :=
  match err with
  | Some e => io_ret (None, Some e)
  | None => k
  end.

(** The tags of a spec: nil, or the map the reference points to. *)
Definition spec_Tags (h : heap) (spec : instance.Spec) : option (gmap string string) :=
  l ← instance.Tags spec; h_maps h !! l.

(** Provision creates a new instance.  The spec is read through its
    references in [h]; the result is the pointer to the ID (nil with an
    error) and the error. *)
Definition Provision (v : vagrantPlugin) (h : heap) (s : instance.Spec)
    : IO (option string * option error) :=
  let spec := view h s in
  let '(properties, err) :=
    match sv_properties spec with
    | Some raw => json_Unmarshal_properties raw
    | None => (∅, None)
    end in
  match err with
  | Some e => io_ret (None, Some ("Invalid instance properties: " +:+ e))
  | None =>
      if is_nil (properties !! "Box")
      then io_ret (None, Some "Property 'Box' must be set")
      else
        let properties :=
          if is_nil (properties !! "CPUs")
          then <["CPUs" := Some (JInt 2)]> properties else properties in
        let properties :=
          if is_nil (properties !! "Memory")
          then <["Memory" := Some (JInt 512)]> properties else properties in
        let networkOptions :=
          match sv_logicalID spec with
          | Some id => ", ip: " +:+ quote +:+ id +:+ quote
          | None => ", type: " +:+ quote +:+ "dhcp" +:+ quote
          end in
        config <~ call (Execute networkOptions properties) ;;
        or_return (r_err config) (
        dir <~ call (TempDir (VagrantfilesDir v) "infrakit-") ;;
        or_return (r_err dir) (
        let machineDir := r_out dir in
        boot <~ call (WriteFile (path_Join machineDir "boot.sh")
                        (list_byte_of_string (sv_init spec)) 493) ;;
        or_return (r_err boot) (
        vf <~ call (WriteFile (path_Join machineDir "Vagrantfile")
                      (list_byte_of_string (r_out config)) 438) ;;
        or_return (r_err vf) (
        let id := path_Base machineDir in
        up <~ inheritedEnvCommand ["vagrant"; "up"]
                ["VAGRANT_CWD=" +:+ machineDir] ;;
        match up.2 with
        | Some e => _ <~ Destroy v id ;; io_ret (None, Some e)
        | None =>
            let '(tagData, err) := json_Marshal_tags (spec_Tags h s) in
            or_return err (
            tg <~ call (WriteFile (path_Join machineDir "tags") tagData 438) ;;
            or_return (r_err tg) (
            match sv_logicalID spec with
            | Some logicalID =>
                ip <~ call (WriteFile (path_Join machineDir "ip")
                              (list_byte_of_string logicalID) 438) ;;
                or_return (r_err ip) (io_ret (Some id, None))
            | None => io_ret (Some id, None)
            end))
        end))))
  end.

(** Whether every removal of a directory and every vagrant destroy among
    the events [evs], which follow the events [tr], comes after a vagrant up
    that has failed; [failed] says whether there has been one already. *)
Fixpoint cleanup_follows_failed_up (tr : list os_call) (failed : bool)
    (evs : list os_call) : bool :=
  match evs with
  | [] => true
  | c :: rest =>
      (if is_RemoveAll c || is_vagrant_destroy c then failed else true)
      && cleanup_follows_failed_up (tr ++ [c])
           (failed || (is_vagrant_up c && bool_decide (is_Some (r_err (answer tr c)))))
           rest
  end.

End Effects.

End vagrant.

Module demo3.

(** A directory /vms with a machine m1 (tags role=web, an ip file), a plain
    file, a directory m2 without tags file and a machine m3 (tags role=db, no
    ip file); a tags file holds the value of the tag role. *)
Definition files : vagrant.Files :=
  vagrant.mkFiles
    (fun dir =>
       if decide (dir = "/vms")
       then ([vagrant.mkFileInfo "m1" true; vagrant.mkFileInfo "notes.txt" false;
              vagrant.mkFileInfo "m2" true; vagrant.mkFileInfo "m3" true], None)
       else ([], Some "no such file"))
    (fun path =>
       if decide (path = "/vms/m1/tags") then (demo.bytes "web", None)
       else if decide (path = "/vms/m1/ip") then (demo.bytes "10.0.0.5", None)
       else if decide (path = "/vms/m3/tags") then (demo.bytes "db", None)
       else ([], Some "no such file"))
    (fun e => bool_decide (e = "no such file"))
    (fun dir name => dir +:+ "/" +:+ name)
    (fun data => ({[ "role" := string_of_list_byte data ]}, None)).

Definition vms : vagrant.vagrantPlugin := vagrant.NewVagrantPlugin "/vms".

(** The last element of a path that does not end in a slash. *)
Fixpoint has_slash (s : string) : bool :=
  match s with
  | EmptyString => false
  | String c rest => Ascii.eqb c "/" || has_slash rest
  end.

Fixpoint Base (s : string) : string :=
  match s with
  | EmptyString => EmptyString
  | String c rest => if has_slash s then Base rest else s
  end.

(** The properties of the examples, [{"Box":"ubuntu"}], and the value of
    their key Box. *)
Definition box_properties : string :=
  "{" +:+ vagrant.quote +:+ "Box" +:+ vagrant.quote +:+ ":"
  +:+ vagrant.quote +:+ "ubuntu" +:+ vagrant.quote +:+ "}".

Definition box_value : string := vagrant.quote +:+ "ubuntu" +:+ vagrant.quote.

(** json.Unmarshal on the payloads of the examples: the properties above
    decode to a map with the key Box, an empty object decodes to an empty
    map, null leaves the map nil, and the empty input is an error; the
    examples use no other payload, and this decoder refuses them. *)
Definition Unmarshal_properties (raw : list Byte.byte)
    : gmap string (option vagrant.jvalue) * option error :=
  let text := string_of_list_byte raw in
  if String.eqb text box_properties
  then ({[ "Box" := Some (vagrant.JDecoded (demo.bytes box_value)) ]}, None)
  else if String.eqb text "{}" then (∅, None)
  else if String.eqb text "null" then (∅, None)
  else if String.eqb text EmptyString then (∅, Some "unexpected end of JSON input")
  else (∅, Some "not a payload of the examples").

(** json.Marshal on the tags of the examples: nil is null, and a map is the
    object of its entries (the examples have at most one entry, and no
    character that is escaped). *)
Definition Marshal_tags (tags : option (gmap string string))
    : list Byte.byte * option error :=
  match tags with
  | None => (demo.bytes "null", None)
  | Some m =>
      (demo.bytes
         ("{" +:+
          String.concat ","
            (map (fun kv => vagrant.quote +:+ kv.1 +:+ vagrant.quote +:+ ":"
                            +:+ vagrant.quote +:+ kv.2 +:+ vagrant.quote)
               (map_to_list m))
          +:+ "}"),
       None)
  end.

Definition is_TempDir (c : vagrant.os_call) : bool :=
  match c with
  | vagrant.TempDir _ _ => true
  | _ => false
  end.

(** A system in which the machines of [files] exist, every command, write
    and removal succeeds, the temporary directory is numbered 7 and exists
    once it has been made, and the template prints the network options. *)
Definition system : vagrant.System :=
  vagrant.mkSystem
    (fun tr c =>
       match c with
       | vagrant.Stat name =>
           if bool_decide (name ∈ ["/vms/m1"; "/vms/m2"; "/vms/m3"])
              || (String.eqb name "/vms/infrakit-7" && existsb is_TempDir tr)
           then vagrant.mkReply EmptyString None
           else vagrant.mkReply EmptyString (Some "no such file")
       | vagrant.TempDir dir prefix =>
           vagrant.mkReply (dir +:+ "/" +:+ prefix +:+ "7") None
       | vagrant.Execute options _ =>
           vagrant.mkReply ("config.vm.network :private_network" +:+ options) None
       | _ => vagrant.mkReply EmptyString None
       end)
    Unmarshal_properties
    Marshal_tags
    Base.

(** The same system, in which vagrant up fails. *)
Definition broken : vagrant.System :=
  vagrant.mkSystem
    (fun tr c =>
       if vagrant.is_vagrant_up c
       then vagrant.mkReply "up failed" (Some "exit status 1")
       else @vagrant.answer system tr c)
    Unmarshal_properties
    Marshal_tags
    Base.

(** A store with the objects of a spec for a machine: the properties above,
    the tag role=web, an init script and the logical identifier 10.0.0.9;
    and the same spec without logical identifier. *)
Definition store : heap :=
  mkHeap [ {[ "role" := "web" ]} ] [ [] ] [ "10.0.0.9" ] [ demo.bytes box_properties ].

Definition machine : instance.Spec :=
  instance.mkSpec (Some 0) (Some 0) "echo boot" (Some 0) (Some 0).

Definition machine_dhcp : instance.Spec :=
  instance.mkSpec (Some 0) (Some 0) "echo boot" None (Some 0).

End demo3.

(** * Properties *)

(** ** The monad *)

Lemma bind_ret_l {A B : Type} (a : A) (k : A -> M B) (s : state) :
  bind (ret a) k s = k a s.
Proof. reflexivity. Qed.

Lemma bind_Ok {A B : Type} (m : M A) (k : A -> M B) (s s' : state) (a : A) :
  m s = (Ok a, s') -> bind m k s = k a s'.
Proof. intros Hm. unfold bind. now rewrite Hm. Qed.

Lemma bind_Fault {A B : Type} (m : M A) (k : A -> M B) (s s' : state) (r : string) :
  m s = (Fault r, s') -> bind m k s = (Fault r, s').
Proof. intros Hm. unfold bind. now rewrite Hm. Qed.

Lemma bind_assoc {A B C : Type} (m : M A) (k : A -> M B) (k' : B -> M C) (s : state) :
  bind (bind m k) k' s = bind m (fun a => bind (k a) k') s.
Proof. unfold bind. destruct (m s) as [[a|r] s1]; reflexivity. Qed.

(** ** Type routing in the RPC service *)

Section Routing.
Import rpc.

Lemma getPlugin_empty (p : Flavor) : getPlugin p EmptyString = plugin p.
Proof. reflexivity. Qed.

Lemma getPlugin_typed (p : Flavor) (tag : string) :
  tag <> EmptyString ->
  getPlugin p tag = typed ← typedPlugins p; q ← typed !! tag; q.
Proof.
  intros Hne. unfold getPlugin. destruct (decide (tag = EmptyString)) as [->|_]; [done|].
  destruct (typedPlugins p) as [typed|]; simpl; [|done].
  now destruct (typed !! tag).
Qed.

Lemma Validate_no_plugin (p : Flavor) req resp (st : state) :
  getPlugin p (ValidateRequest.Type_ req) = None ->
  Validate p req resp st =
    (Ok (ValidateResponse.mk (ValidateRequest.Type_ req) (ValidateResponse.OK resp),
         Some (no_plugin (ValidateRequest.Type_ req))), st).
Proof. intros Hg. unfold Validate. now rewrite Hg. Qed.

Lemma Prepare_no_plugin (p : Flavor) req resp (st : state) :
  getPlugin p (PrepareRequest.Type_ req) = None ->
  Prepare p req resp st =
    (Ok (PrepareResponse.mk (PrepareRequest.Type_ req) (PrepareResponse.Spec resp),
         Some (no_plugin (PrepareRequest.Type_ req))), st).
Proof. intros Hg. unfold Prepare. now rewrite Hg. Qed.

Lemma Healthy_no_plugin (p : Flavor) req resp (st : state) :
  getPlugin p (HealthyRequest.Type_ req) = None ->
  Healthy p req resp st =
    (Ok (HealthyResponse.mk (HealthyRequest.Type_ req) (HealthyResponse.Health resp),
         Some (no_plugin (HealthyRequest.Type_ req))), st).
Proof. intros Hg. unfold Healthy. now rewrite Hg. Qed.

Lemma Drain_no_plugin (p : Flavor) req resp (st : state) :
  getPlugin p (DrainRequest.Type_ req) = None ->
  Drain p req resp st =
    (Ok (DrainResponse.mk (DrainRequest.Type_ req) (DrainResponse.OK resp),
         Some (no_plugin (DrainRequest.Type_ req))), st).
Proof. intros Hg. unfold Drain. now rewrite Hg. Qed.

End Routing.

(** C4, as the code has it: with a single default plugin and no registry only
    the empty type tag resolves, to the default plugin, and every other tag
    resolves to nothing; with a registry the empty tag resolves to nothing
    and so does a tag that the registry does not hold; a handler whose type
    resolves to nothing answers with the no-plugin error of that tag. *)
Theorem getPlugin_routes_by_tag
    (p : flavor.Plugin.t) (typed : gmap string (option flavor.Plugin.t))
    (tag : string) (r : rpc.Flavor) (req : rpc.HealthyRequest.t)
    (resp : rpc.HealthyResponse.t) (st : state) :
  tag <> EmptyString ->
  typed !! tag = None ->
  rpc.getPlugin r (rpc.HealthyRequest.Type_ req) = None ->
  rpc.getPlugin (rpc.PluginServer (Some p)) EmptyString = Some p
  /\ rpc.getPlugin (rpc.PluginServer (Some p)) tag = None
  /\ rpc.getPlugin (rpc.PluginServerWithTypes (Some typed)) EmptyString = None
  /\ rpc.getPlugin (rpc.PluginServerWithTypes (Some typed)) tag = None
  /\ rpc.Healthy r req resp st =
       (Ok (rpc.HealthyResponse.mk (rpc.HealthyRequest.Type_ req)
              (rpc.HealthyResponse.Health resp),
            Some ("no-plugin:" +:+ rpc.HealthyRequest.Type_ req)), st).
Proof.
  intros Hne Habs Hnone.
  split; [reflexivity|].
  split; [now rewrite getPlugin_typed|].
  split; [reflexivity|].
  split; [rewrite getPlugin_typed by done; simpl; now rewrite Habs|].
  now apply Healthy_no_plugin.
Qed.

Lemma getPlugin_routes_by_tag_witness :
  rpc.getPlugin (rpc.PluginServer (Some (demo.steady flavor.Healthy))) EmptyString =
    Some (demo.steady flavor.Healthy)
  /\ rpc.getPlugin (rpc.PluginServer (Some (demo.steady flavor.Healthy))) "vanilla" = None
  /\ rpc.getPlugin (rpc.PluginServerWithTypes
       (Some {[ "swarm" := Some (demo.failing "down") ]})) EmptyString = None
  /\ rpc.getPlugin (rpc.PluginServerWithTypes
       (Some {[ "swarm" := Some (demo.failing "down") ]})) "vanilla" = None
  /\ rpc.Healthy (rpc.PluginServer (Some (demo.steady flavor.Healthy)))
       (rpc.HealthyRequest.mk "vanilla" (Some (demo.bytes "{}")) demo.machine)
       (rpc.HealthyResponse.mk EmptyString flavor.Unknown) demo.start =
       (Ok (rpc.HealthyResponse.mk "vanilla" flavor.Unknown,
            Some "no-plugin:vanilla"), demo.start).
Proof.
  apply (getPlugin_routes_by_tag (demo.steady flavor.Healthy)
           {[ "swarm" := Some (demo.failing "down") ]} "vanilla"
           (rpc.PluginServer (Some (demo.steady flavor.Healthy)))
           (rpc.HealthyRequest.mk "vanilla" (Some (demo.bytes "{}")) demo.machine)).
  - discriminate.
  - reflexivity.
  - reflexivity.
Defined.

(** C4 fails as stated: a router with a single default plugin and no registry
    does not route the non-empty tag "vanilla" to that plugin. *)
Lemma getPlugin_default_ignores_tag :
  rpc.getPlugin (rpc.PluginServer (Some (demo.steady flavor.Healthy))) "vanilla" = None
  /\ rpc.getPlugin (rpc.PluginServer (Some (demo.steady flavor.Healthy))) "vanilla"
     <> Some (demo.steady flavor.Healthy).
Proof. split; [reflexivity | discriminate]. Qed.

(** ** Nil properties at the RPC boundary *)

Lemma Healthy_nil_Properties_resolved (p : rpc.Flavor) (type : string)
    (inst : instance.Description) (resp : rpc.HealthyResponse.t)
    (c : flavor.Plugin.t) (st : state) :
  rpc.getPlugin p type = Some c ->
  rpc.Healthy p (rpc.HealthyRequest.mk type None inst) resp st =
    (Fault nil_dereference, st).
Proof. intros Hg. unfold rpc.Healthy. simpl. now rewrite Hg. Qed.

Lemma Drain_nil_Properties_resolved (p : rpc.Flavor) (type : string)
    (inst : instance.Description) (resp : rpc.DrainResponse.t)
    (c : flavor.Plugin.t) (st : state) :
  rpc.getPlugin p type = Some c ->
  rpc.Drain p (rpc.DrainRequest.mk type None inst) resp st =
    (Fault nil_dereference, st).
Proof. intros Hg. unfold rpc.Drain. simpl. now rewrite Hg. Qed.

Lemma Validate_returns (p : rpc.Flavor) (req : rpc.ValidateRequest.t)
    (resp : rpc.ValidateResponse.t) (st : state) :
  exists r st', rpc.Validate p req resp st = (Ok r, st').
Proof.
  unfold rpc.Validate. destruct (rpc.getPlugin p _) as [c|]; [|by eexists _, _].
  unfold call_Validate, bind, record_call, ret.
  destruct (flavor.Plugin.Validate c _ _); by eexists _, _.
Qed.

Lemma Prepare_returns (p : rpc.Flavor) (req : rpc.PrepareRequest.t)
    (resp : rpc.PrepareResponse.t) (st : state) :
  exists r st', rpc.Prepare p req resp st = (Ok r, st').
Proof.
  unfold rpc.Prepare. destruct (rpc.getPlugin p _) as [c|]; [|by eexists _, _].
  unfold call_Prepare, bind, record_call, get_heap, put_heap, ret.
  destruct (flavor.Plugin.Prepare c _ _ _ _) as [[out [e|]] h']; by eexists _, _.
Qed.

(** C10, as the code has it: Healthy and Drain dereference the Properties
    pointer of the request after the type has been resolved.  With nil
    Properties, a request whose type resolves to no plugin is answered with
    the no-plugin error, and one whose type resolves to a plugin panics at
    the dereference, before any call to the plugin.  Validate and Prepare
    treat nil Properties as the empty payload and return. *)
Theorem nil_Properties_at_the_handlers
    (p : rpc.Flavor) (type : string) (inst : instance.Description)
    (alloc : types.AllocationMethod) (spec : instance.Spec)
    (hresp : rpc.HealthyResponse.t) (dresp : rpc.DrainResponse.t)
    (vresp : rpc.ValidateResponse.t) (presp : rpc.PrepareResponse.t)
    (st : state) :
  match rpc.getPlugin p type with
  | None =>
      rpc.Healthy p (rpc.HealthyRequest.mk type None inst) hresp st =
        (Ok (rpc.HealthyResponse.mk type (rpc.HealthyResponse.Health hresp),
             Some ("no-plugin:" +:+ type)), st)
      /\ rpc.Drain p (rpc.DrainRequest.mk type None inst) dresp st =
        (Ok (rpc.DrainResponse.mk type (rpc.DrainResponse.OK dresp),
             Some ("no-plugin:" +:+ type)), st)
  | Some _ =>
      rpc.Healthy p (rpc.HealthyRequest.mk type None inst) hresp st =
        (Fault nil_dereference, st)
      /\ rpc.Drain p (rpc.DrainRequest.mk type None inst) dresp st =
        (Fault nil_dereference, st)
  end
  /\ rpc.Validate p (rpc.ValidateRequest.mk type None alloc) vresp st =
       rpc.Validate p (rpc.ValidateRequest.mk type (Some []) alloc) vresp st
  /\ rpc.Prepare p (rpc.PrepareRequest.mk type None spec alloc) presp st =
       rpc.Prepare p (rpc.PrepareRequest.mk type (Some []) spec alloc) presp st
  /\ (exists r st',
        rpc.Validate p (rpc.ValidateRequest.mk type None alloc) vresp st = (Ok r, st'))
  /\ (exists r st',
        rpc.Prepare p (rpc.PrepareRequest.mk type None spec alloc) presp st = (Ok r, st')).
Proof.
  split.
  - destruct (rpc.getPlugin p type) as [c|] eqn:Hg.
    + split.
      * now apply Healthy_nil_Properties_resolved with c.
      * now apply Drain_nil_Properties_resolved with c.
    + split.
      * now rewrite Healthy_no_plugin.
      * now rewrite Drain_no_plugin.
  - split; [reflexivity|]. split; [reflexivity|].
    split; [apply Validate_returns | apply Prepare_returns].
Qed.

(** C10 fails as stated: a Healthy or Drain request with nil Properties whose
    type resolves to no plugin is answered with an error value, not with a
    panic. *)
Lemma nil_Properties_unresolved_type_returns_error :
  rpc.Healthy (rpc.PluginServerWithTypes (Some ∅))
    (rpc.HealthyRequest.mk "vanilla" None demo.machine)
    (rpc.HealthyResponse.mk EmptyString flavor.Unknown) demo.start =
    (Ok (rpc.HealthyResponse.mk "vanilla" flavor.Unknown, Some "no-plugin:vanilla"),
     demo.start)
  /\ rpc.Drain (rpc.PluginServerWithTypes (Some ∅))
    (rpc.DrainRequest.mk "vanilla" None demo.machine)
    (rpc.DrainResponse.mk EmptyString false) demo.start =
    (Ok (rpc.DrainResponse.mk "vanilla" false, Some "no-plugin:vanilla"),
     demo.start).
Proof. split; reflexivity. Qed.

(** ** Healthy and Drain of the composition *)

Lemma log_calls_nil (st : state) : log_calls st [] = st.
Proof. destruct st as [h cs]. unfold log_calls. simpl. now rewrite app_nil_r. Qed.

Lemma log_calls_app (st : state) (a b : list call) :
  log_calls (log_calls st a) b = log_calls st (a ++ b).
Proof. unfold log_calls. simpl. now rewrite app_assoc. Qed.

Section Aggregation.
Context `{combo.Externals}.
Variable f : combo.flavorCombo.
Variable inst : instance.Description.

Lemma resolve_Some (m : types.FlavorPlugin) (p : flavor.Plugin.t) :
  resolve f m = Some p <->
  combo.flavorPlugins f (types.Plugin m) = (Some p, None).
Proof.
  unfold resolve.
  destruct (combo.flavorPlugins f (types.Plugin m)) as [[q|] [e|]];
    split; intros Heq; congruence.
Qed.

Lemma member_Healthy_Some (m : types.FlavorPlugin) (r : flavor.Health * option error) :
  member_Healthy f inst m = Some r <->
  exists p, combo.flavorPlugins f (types.Plugin m) = (Some p, None)
            /\ flavor.Plugin.Healthy p (member_props m) inst = r.
Proof.
  unfold member_Healthy. split.
  - destruct (resolve f m) as [p|] eqn:Hr; simpl; [|done].
    intros [= <-]. exists p. split; [now apply resolve_Some | done].
  - intros (p & Hp & <-). apply resolve_Some in Hp. now rewrite Hp.
Qed.

Lemma member_Drain_Some (m : types.FlavorPlugin) (r : option error) :
  member_Drain f inst m = Some r <->
  exists p, combo.flavorPlugins f (types.Plugin m) = (Some p, None)
            /\ flavor.Plugin.Drain p (member_props m) inst = r.
Proof.
  unfold member_Drain. split.
  - destruct (resolve f m) as [p|] eqn:Hr; simpl; [|done].
    intros [= <-]. exists p. split; [now apply resolve_Some | done].
  - intros (p & Hp & <-). apply resolve_Some in Hp. now rewrite Hp.
Qed.

(** One round of the loop of Healthy on a member that resolves. *)
Lemma Healthy_range_step (m : types.FlavorPlugin) (rest : list types.FlavorPlugin)
    (r : flavor.Health * option error) (st : state) :
  member_Healthy f inst m = Some r ->
  combo.Healthy_range f inst (m :: rest) st =
    if decide (r = (flavor.Healthy, None))
    then combo.Healthy_range f inst rest (log_calls st [Healthy_call m])
    else (Ok r, log_calls st [Healthy_call m]).
Proof.
  intros (p & Hp & Hr)%member_Healthy_Some. simpl. rewrite Hp.
  unfold call_Healthy, bind, record_call, ret. fold (member_props m). rewrite Hr.
  destruct r as [[] [e|]]; case_decide; try congruence; reflexivity.
Qed.

Lemma Healthy_range_passing (ms rest : list types.FlavorPlugin) (st : state) :
  Forall (fun m => member_Healthy f inst m = Some (flavor.Healthy, None)) ms ->
  combo.Healthy_range f inst (ms ++ rest) st =
    combo.Healthy_range f inst rest (log_calls st (map Healthy_call ms)).
Proof.
  intros Hall. revert st. induction Hall as [|m ms Hm _ IH]; intros st.
  - simpl. now rewrite log_calls_nil.
  - rewrite <- app_comm_cons, (Healthy_range_step _ _ _ _ Hm).
    rewrite decide_True by done. rewrite IH, log_calls_app. reflexivity.
Qed.

(** A composition that returns Healthy without error has consulted every
    member, and each has answered Healthy without error. *)
Lemma Healthy_range_Healthy (ms : list types.FlavorPlugin) (st st' : state) :
  combo.Healthy_range f inst ms st = (Ok (flavor.Healthy, None), st') ->
  Forall (fun m => member_Healthy f inst m = Some (flavor.Healthy, None)) ms.
Proof.
  revert st. induction ms as [|m ms IH]; intros st Hrun; [constructor|].
  simpl in Hrun.
  destruct (combo.flavorPlugins f (types.Plugin m)) as [[p|] [e|]] eqn:Hp;
    try (unfold ret, call_Healthy, bind, panic in Hrun; simpl in Hrun; congruence).
  unfold call_Healthy, bind, record_call, ret in Hrun. fold (member_props m) in Hrun.
  destruct (flavor.Plugin.Healthy p (member_props m) inst) as [h e] eqn:Hh.
  assert (Hm : member_Healthy f inst m = Some (h, e)).
  { apply member_Healthy_Some. eauto. }
  destruct h, e; try congruence.
  constructor; [done | eauto].
Qed.

(** C2: when the properties decode, the members are consulted in listed
    order; the first member that answers with a health other than Healthy or
    with an error decides the result, which is returned with no later member
    called; and the composition returns Healthy without error exactly when
    every member does. *)
Theorem Healthy_first_failure_decides
    (flavorProperties : RawMessage) (s : combo.Spec) (st : state) :
  combo.json_Unmarshal flavorProperties = (s, None) ->
  (forall ms1 m ms2 r,
      combo.Flavors s = ms1 ++ m :: ms2 ->
      Forall (fun x => member_Healthy f inst x = Some (flavor.Healthy, None)) ms1 ->
      member_Healthy f inst m = Some r ->
      fst r <> flavor.Healthy \/ snd r <> None ->
      combo.Healthy f flavorProperties inst st =
        (Ok r, log_calls st (map Healthy_call (ms1 ++ [m]))))
  /\ (Forall (fun x => member_Healthy f inst x = Some (flavor.Healthy, None))
             (combo.Flavors s) ->
      combo.Healthy f flavorProperties inst st =
        (Ok (flavor.Healthy, None),
         log_calls st (map Healthy_call (combo.Flavors s))))
  /\ ((exists st', combo.Healthy f flavorProperties inst st =
                     (Ok (flavor.Healthy, None), st')) <->
      Forall (fun x => member_Healthy f inst x = Some (flavor.Healthy, None))
             (combo.Flavors s)).
Proof.
  intros Hdec. unfold combo.Healthy. rewrite Hdec.
  assert (Hall : Forall (fun x => member_Healthy f inst x = Some (flavor.Healthy, None))
                   (combo.Flavors s) ->
                 combo.Healthy_range f inst (combo.Flavors s) st =
                   (Ok (flavor.Healthy, None),
                    log_calls st (map Healthy_call (combo.Flavors s)))).
  { intros Hpass. rewrite <- (app_nil_r (combo.Flavors s)) at 1.
    now rewrite Healthy_range_passing. }
  split; [|split; [exact Hall|]].
  - intros ms1 m ms2 r -> Hpass Hm Hr.
    rewrite Healthy_range_passing by done.
    rewrite (Healthy_range_step _ _ _ _ Hm).
    rewrite decide_False.
    + now rewrite log_calls_app, map_app.
    + intros ->. simpl in Hr. now destruct Hr.
  - split.
    + intros [st' Hrun]. eapply Healthy_range_Healthy, Hrun.
    + intros Hpass. eexists. now apply Hall.
Qed.

End Aggregation.

Lemma Healthy_first_failure_decides_witness :
  combo.Healthy (H := demo.externals) demo.plugins (demo.bytes "=huh")
    demo.machine demo.start =
    (Ok (flavor.Unhealthy, None),
     log_calls demo.start [CallHealthy "h" []; CallHealthy "u" []]).
Proof.
  destruct (Healthy_first_failure_decides (H := demo.externals) demo.plugins
              demo.machine (demo.bytes "=huh") _ demo.start eq_refl)
    as (Hfirst & _).
  apply (Hfirst [demo.member_of_byte "h"%byte] (demo.member_of_byte "u"%byte)
           [demo.member_of_byte "h"%byte]).
  - reflexivity.
  - repeat constructor.
  - reflexivity.
  - left. discriminate.
Defined.

Section Draining.
Context `{combo.Externals}.
Variable f : combo.flavorCombo.
Variable inst : instance.Description.

Lemma Drain_failures_cons (m : types.FlavorPlugin) (ms : list types.FlavorPlugin)
    (d : option error) :
  member_Drain f inst m = Some d ->
  Drain_failures f inst (m :: ms) =
    match d with
    | Some e => e :: Drain_failures f inst ms
    | None => Drain_failures f inst ms
    end.
Proof. intros Hm. unfold Drain_failures. simpl. rewrite Hm. now destruct d. Qed.

(** One round of the loop of Drain on a member that resolves. *)
Lemma Drain_range_step (m : types.FlavorPlugin) (rest : list types.FlavorPlugin)
    (d : option error) (errs : list string) (st : state) :
  member_Drain f inst m = Some d ->
  combo.Drain_range f inst (m :: rest) errs st =
    combo.Drain_range f inst rest
      (errs ++ match d with Some e => [e] | None => [] end)
      (log_calls st [Drain_call m]).
Proof.
  intros (p & Hp & Hd)%member_Drain_Some. simpl. rewrite Hp.
  unfold call_Drain, bind, record_call, ret. fold (member_props m). rewrite Hd.
  destruct d; [reflexivity | now rewrite app_nil_r].
Qed.

(** The loop of Drain over members that all resolve: every member is
    called, and the failures are collected in order behind [errs]. *)
Lemma Drain_range_resolved (ms : list types.FlavorPlugin) (errs : list string)
    (st : state) :
  Forall (fun m => is_Some (resolve f m)) ms ->
  combo.Drain_range f inst ms errs st =
    (Ok (errs ++ Drain_failures f inst ms), log_calls st (map Drain_call ms)).
Proof.
  intros Hall. revert errs st.
  induction Hall as [|m ms [p Hp] _ IH]; intros errs st.
  - simpl. unfold ret. now rewrite app_nil_r, log_calls_nil.
  - assert (Hm : member_Drain f inst m =
                 Some (flavor.Plugin.Drain p (member_props m) inst)).
    { unfold member_Drain. now rewrite Hp. }
    rewrite (Drain_failures_cons _ _ _ Hm), (Drain_range_step _ _ _ _ _ Hm).
    rewrite IH, log_calls_app, <- app_assoc.
    now destruct (flavor.Plugin.Drain p (member_props m) inst).
Qed.

Lemma Drain_failures_nil (ms : list types.FlavorPlugin) :
  Forall (fun m => is_Some (resolve f m)) ms ->
  Drain_failures f inst ms = [] <->
  Forall (fun m => member_Drain f inst m = Some None) ms.
Proof.
  induction 1 as [|m ms [p Hp] _ IH]; [by split|].
  assert (Hm : member_Drain f inst m =
               Some (flavor.Plugin.Drain p (member_props m) inst)).
  { unfold member_Drain. now rewrite Hp. }
  rewrite (Drain_failures_cons _ _ _ Hm), Forall_cons, Hm.
  destruct (flavor.Plugin.Drain p (member_props m) inst) as [e|].
  - split; [discriminate | intros [[=] _]].
  - rewrite IH. split; [by split | by intros [_ ?]].
Qed.

(** After a failed lookup that yields no plugin, the loop of Drain records
    the failure and then calls Drain through the nil interface value. *)
Lemma Drain_range_unresolved (m : types.FlavorPlugin)
    (rest : list types.FlavorPlugin) (e : error) (errs : list string) (st : state) :
  combo.flavorPlugins f (types.Plugin m) = (None, Some e) ->
  combo.Drain_range f inst (m :: rest) errs st = (Fault nil_dereference, st).
Proof. intros Hp. simpl. now rewrite Hp. Qed.

(** C5: when every member resolves, Drain is called on every member in listed
    order whatever the earlier ones answered; the composition returns no
    error exactly when no member's Drain fails, and otherwise a single error
    whose message is the failures' messages in order, separated by ", ". *)
Theorem Drain_runs_all_and_joins_failures
    (flavorProperties : RawMessage) (s : combo.Spec) (st : state) :
  combo.json_Unmarshal flavorProperties = (s, None) ->
  Forall (fun m => is_Some (resolve f m)) (combo.Flavors s) ->
  combo.Drain f flavorProperties inst st =
    (Ok match Drain_failures f inst (combo.Flavors s) with
        | [] => None
        | msgs => Some (String.concat ", " msgs)
        end,
     log_calls st (map Drain_call (combo.Flavors s)))
  /\ ((exists st', combo.Drain f flavorProperties inst st = (Ok None, st')) <->
      Forall (fun m => member_Drain f inst m = Some None) (combo.Flavors s)).
Proof.
  intros Hdec Hall.
  assert (Hrun : combo.Drain f flavorProperties inst st =
    (Ok match Drain_failures f inst (combo.Flavors s) with
        | [] => None
        | msgs => Some (String.concat ", " msgs)
        end,
     log_calls st (map Drain_call (combo.Flavors s)))).
  { unfold combo.Drain. rewrite Hdec.
    erewrite bind_Ok by (now apply Drain_range_resolved).
    simpl. now destruct (Drain_failures f inst (combo.Flavors s)). }
  split; [exact Hrun|]. rewrite Hrun, <- Drain_failures_nil by done.
  destruct (Drain_failures f inst (combo.Flavors s)) as [|msg msgs].
  - split; [done | eauto].
  - split; [intros [st' [=]] | discriminate].
Qed.

End Draining.

Lemma Drain_runs_all_and_joins_failures_witness :
  combo.Drain (H := demo.externals) demo.plugins (demo.bytes "=hxy")
    demo.machine demo.start =
    (Ok (Some "x, y"),
     log_calls demo.start [CallDrain "h" []; CallDrain "x" []; CallDrain "y" []]).
Proof.
  apply (Drain_runs_all_and_joins_failures (H := demo.externals) demo.plugins
           demo.machine (demo.bytes "=hxy") _ demo.start eq_refl).
  repeat constructor; by eexists.
Defined.

(** C1 against the code: in the composition "h", then a member whose lookup
    fails, then "x", Drain panics at the member that does not resolve.  The
    call is made through the absent plugin, the lookup failure is never
    returned, and the member behind it is not drained. *)
Theorem Drain_unresolved_member_panics :
  combo.flavorPlugins demo.plugins "?" = (None, Some "plugin not found: ?")
  /\ combo.Drain (H := demo.externals) demo.plugins (demo.bytes "=h?x")
       demo.machine demo.start =
       (Fault nil_dereference, log_calls demo.start [CallDrain "h" []]).
Proof. split; reflexivity. Qed.

(** ** The store *)

Lemma extends_refl {A : Type} (l : list A) : extends l l.
Proof. now intros i x. Qed.

Lemma extends_trans {A : Type} (l1 l2 l3 : list A) :
  extends l1 l2 -> extends l2 l3 -> extends l1 l3.
Proof. intros H12 H23 i x Hi. eauto. Qed.

Lemma extends_length {A : Type} (old new : list A) :
  extends old new -> length old <= length new.
Proof.
  intros Hext. destruct (decide (length old = 0)) as [->|Hne]; [lia|].
  destruct (lookup_lt_is_Some_2 old (length old - 1)) as [x Hx]; [lia|].
  apply Hext, lookup_lt_Some in Hx. lia.
Qed.

Lemma extends_app {A : Type} (old new more : list A) :
  extends old new -> extends old (new ++ more).
Proof. intros Hext i x Hi. apply lookup_app_l_Some. eauto. Qed.

Lemma extends_insert_fresh {A : Type} (old new : list A) (l : loc) (x : A) :
  extends old new -> length old <= l -> extends old (<[l:=x]> new).
Proof.
  intros Hext Hl i y Hi. rewrite list_lookup_insert_ne; [eauto|].
  apply lookup_lt_Some in Hi. lia.
Qed.

Lemma extends_keeps {A : Type} (old cur new : list A) (own : option loc) :
  extends old cur -> keeps cur new own ->
  (forall l, own = Some l -> length old <= l) ->
  extends old new.
Proof.
  intros Hext Hkeep Hown i x Hi. apply Hkeep; [eauto|].
  intros Heq. apply Hown in Heq. apply lookup_lt_Some in Hi. lia.
Qed.

Lemma heap_extends_refl (h : heap) : heap_extends h h.
Proof. repeat split; (apply extends_refl || lia). Qed.

Lemma heap_extends_trans (h1 h2 h3 : heap) :
  heap_extends h1 h2 -> heap_extends h2 h3 -> heap_extends h1 h3.
Proof.
  intros (Hm & Ha & Hi & Hr) (Hm' & Ha' & Hi' & Hr').
  repeat split; try (eapply extends_trans; eassumption). lia.
Qed.

Lemma valid_ref_Some {A : Type} (objs : list A) (l : loc) :
  valid_ref objs (Some l) = true <-> l < length objs.
Proof. simpl. apply bool_decide_eq_true. Qed.

Lemma valid_ref_mono {A : Type} (objs objs' : list A) (r : option loc) :
  length objs <= length objs' ->
  valid_ref objs r = true -> valid_ref objs' r = true.
Proof.
  destruct r as [l|]; [|done]. rewrite !valid_ref_Some. lia.
Qed.

Lemma spec_wf_parts (h : heap) (s : instance.Spec) :
  spec_wf h s = true <->
  valid_ref (h_raws h) (instance.Properties s) = true
  /\ valid_ref (h_maps h) (instance.Tags s) = true
  /\ valid_ref (h_ids h) (instance.LogicalID_ s) = true
  /\ valid_ref (h_arrs h) (instance.Attachments s) = true.
Proof. unfold spec_wf. rewrite !andb_true_iff. tauto. Qed.

Lemma spec_wf_mono (h h' : heap) (s : instance.Spec) :
  heap_extends h h' -> spec_wf h s = true -> spec_wf h' s = true.
Proof.
  intros (Hm%extends_length & Ha%extends_length & Hi%extends_length & Hr).
  rewrite !spec_wf_parts. intros (? & ? & ? & ?).
  repeat split; eapply valid_ref_mono; eassumption.
Qed.

Lemma read_map_extends (h0 h : heap) (r : option loc) :
  extends (h_maps h0) (h_maps h) ->
  valid_ref (h_maps h0) r = true ->
  read_map h r = read_map h0 r.
Proof.
  destruct r as [l|]; [|done]. intros Hext Hl%valid_ref_Some.
  destruct (lookup_lt_is_Some_2 _ _ Hl) as [m Hm]. unfold read_map.
  now rewrite Hm, (Hext _ _ Hm).
Qed.

Lemma read_arr_extends (h0 h : heap) (r : option loc) :
  extends (h_arrs h0) (h_arrs h) ->
  valid_ref (h_arrs h0) r = true ->
  read_arr h r = read_arr h0 r.
Proof.
  destruct r as [l|]; [|done]. intros Hext Hl%valid_ref_Some.
  destruct (lookup_lt_is_Some_2 _ _ Hl) as [m Hm]. unfold read_arr.
  now rewrite Hm, (Hext _ _ Hm).
Qed.

Lemma read_id_extends (h0 h : heap) (r : option loc) :
  extends (h_ids h0) (h_ids h) ->
  valid_ref (h_ids h0) r = true ->
  (l ← r; h_ids h !! l) = (l ← r; h_ids h0 !! l).
Proof.
  destruct r as [l|]; [|done]. intros Hext Hl%valid_ref_Some.
  destruct (lookup_lt_is_Some_2 _ _ Hl) as [m Hm].
  change (h_ids h !! l = h_ids h0 !! l).
  now rewrite Hm, (Hext _ _ Hm).
Qed.

(** What is read through a well-formed spec, but for its properties, is the
    same in every store that extends the one it is well-formed in. *)
Lemma isolated_view_extends (h0 h : heap) (s : instance.Spec) :
  heap_extends h0 h -> spec_wf h0 s = true ->
  isolated (view h s) = isolated (view h0 s).
Proof.
  intros (Hm & Ha & Hi & _) (_ & ? & ? & ?)%spec_wf_parts.
  unfold isolated, view. simpl.
  rewrite (read_map_extends h0 h), (read_arr_extends h0 h),
    (read_id_extends h0 h) by done.
  reflexivity.
Qed.

Lemma view_extends (h0 h : heap) (s : instance.Spec) :
  heap_extends h0 h -> h_raws h = h_raws h0 -> spec_wf h0 s = true ->
  view h s = view h0 s.
Proof.
  intros (Hm & Ha & Hi & _) Hraws (_ & ? & ? & ?)%spec_wf_parts.
  unfold view. rewrite Hraws.
  rewrite (read_map_extends h0 h), (read_arr_extends h0 h),
    (read_id_extends h0 h) by done.
  reflexivity.
Qed.

Lemma assign_all_union (src dst : gmap string string) :
  assign_all src dst = src ∪ dst.
Proof.
  unfold assign_all.
  apply (map_fold_weak_ind (fun r m => r = m ∪ dst)).
  - now rewrite (left_id_L ∅ (∪)).
  - intros k v m r _ ->. now rewrite insert_union_l.
Qed.

Lemma append_all_app (src dst : list instance.Attachment) :
  append_all src dst = dst ++ src.
Proof.
  unfold append_all. revert dst.
  induction src as [|v src IH]; intros dst; simpl.
  - now rewrite app_nil_r.
  - now rewrite IH, <- app_assoc.
Qed.

(** ** The operations on the store *)

Lemma range_assign_spec (src : option loc) (l : loc) (st : state) :
  valid_ref (h_maps (st_heap st)) src = true ->
  l < length (h_maps (st_heap st)) ->
  range_assign src (Some l) st =
    (Ok tt,
     mkState
       (mkHeap
          (<[l := read_map (st_heap st) src ∪ read_map (st_heap st) (Some l)]>
             (h_maps (st_heap st)))
          (h_arrs (st_heap st)) (h_ids (st_heap st)) (h_raws (st_heap st)))
       (st_calls st)).
Proof.
  destruct st as [[maps arrs ids raws] calls]. simpl.
  intros Hsrc Hl. destruct (lookup_lt_is_Some_2 maps l Hl) as [d Hd].
  assert (Hid : <[l := ∅ ∪ d]> maps = maps).
  { rewrite (left_id_L ∅ (∪)). now apply list_insert_id. }
  unfold range_assign, read_map. rewrite Hd. simpl.
  destruct src as [ls|].
  - apply valid_ref_Some in Hsrc.
    destruct (lookup_lt_is_Some_2 maps ls Hsrc) as [m Hm].
    unfold load_map, bind, get_heap, ret. simpl. rewrite Hm. simpl.
    destruct (decide (m = ∅)) as [->|Hne].
    + now rewrite Hid.
    + simpl. rewrite Hd. unfold store_map, bind, get_heap, put_heap. simpl.
      now rewrite assign_all_union.
  - unfold load_map, bind, ret. simpl.
    rewrite decide_True by done. now rewrite Hid.
Qed.

Lemma range_append_spec (src dst : option loc) (st : state) :
  valid_ref (h_arrs (st_heap st)) src = true ->
  valid_ref (h_arrs (st_heap st)) dst = true ->
  exists r more,
    range_append src dst st =
      (Ok r,
       mkState
         (mkHeap (h_maps (st_heap st)) (h_arrs (st_heap st) ++ more)
            (h_ids (st_heap st)) (h_raws (st_heap st)))
         (st_calls st))
    /\ valid_ref (h_arrs (st_heap st) ++ more) r = true
    /\ (r = dst \/ r = Some (length (h_arrs (st_heap st))))
    /\ default [] (r' ← r; (h_arrs (st_heap st) ++ more) !! r') =
         read_arr (st_heap st) dst ++ read_arr (st_heap st) src.
Proof.
  destruct st as [[maps arrs ids raws] calls]. simpl.
  intros Hsrc Hdst.
  assert (Hrd : forall r, valid_ref arrs r = true ->
            load_arr r (mkState (mkHeap maps arrs ids raws) calls) =
              (Ok (read_arr (mkHeap maps arrs ids raws) r),
               mkState (mkHeap maps arrs ids raws) calls)).
  { intros [l|] Hr; [|reflexivity]. apply valid_ref_Some in Hr.
    destruct (lookup_lt_is_Some_2 arrs l Hr) as [a Ha].
    unfold load_arr, read_arr, bind, get_heap, ret. simpl. now rewrite Ha. }
  unfold range_append. rewrite (bind_Ok _ _ _ _ _ (Hrd _ Hsrc)).
  destruct (read_arr _ src) as [|v vs] eqn:Hvs.
  - exists dst, []. rewrite !app_nil_r. unfold ret. split; [done|].
    split; [done|]. split; [now left|].
    destruct dst as [l|]; reflexivity.
  - rewrite (bind_Ok _ _ _ _ _ (Hrd _ Hdst)).
    exists (Some (length arrs)),
      [append_all (v :: vs) (read_arr (mkHeap maps arrs ids raws) dst)].
    unfold alloc_arr, bind, ret. simpl. split; [done|].
    split; [apply bool_decide_eq_true; rewrite length_app; simpl; lia|].
    split; [now right|].
    rewrite lookup_app_r, Nat.sub_diag by lia. simpl.
    now rewrite append_all_app, <- app_assoc.
Qed.

(** The copy of the logical identifier in cloneSpec. *)
Lemma clone_LogicalID_spec (r : option loc) (st : state) :
  valid_ref (h_ids (st_heap st)) r = true ->
  exists r' more,
    match r with
    | None => ret None
    | Some l =>
        idCopy <- load_id (Some l) ;;
        l' <- alloc_id idCopy ;;
        ret (Some l')
    end st =
      (Ok r',
       mkState
         (mkHeap (h_maps (st_heap st)) (h_arrs (st_heap st))
            (h_ids (st_heap st) ++ more) (h_raws (st_heap st)))
         (st_calls st))
    /\ valid_ref (h_ids (st_heap st) ++ more) r' = true
    /\ (forall l, r' = Some l -> length (h_ids (st_heap st)) <= l)
    /\ (l ← r'; (h_ids (st_heap st) ++ more) !! l) =
       (l ← r; h_ids (st_heap st) !! l).
Proof.
  destruct st as [[maps arrs ids raws] calls]. simpl. intros Hr.
  destruct r as [l|].
  - apply valid_ref_Some in Hr.
    destruct (lookup_lt_is_Some_2 ids l Hr) as [i Hi].
    exists (Some (length ids)), [i].
    unfold load_id, alloc_id, bind, get_heap, ret. simpl. rewrite Hi. simpl.
    split; [done|].
    split; [apply bool_decide_eq_true; rewrite length_app; simpl; lia|].
    split; [intros ? [= <-]; lia|].
    now rewrite lookup_app_r, Nat.sub_diag by lia.
  - exists None, []. rewrite app_nil_r. unfold ret. by repeat split.
Qed.

(** cloneSpec on a well-formed spec: the clone is made of new objects, the
    objects of the store are left as they are, and the same is read through
    the clone as through the spec. *)
Lemma cloneSpec_spec (spec : instance.Spec) (st : state) :
  spec_wf (st_heap st) spec = true ->
  exists c h',
    combo.cloneSpec spec st = (Ok c, mkState h' (st_calls st))
    /\ heap_extends (st_heap st) h'
    /\ h_raws h' = h_raws (st_heap st)
    /\ fresh (st_heap st) c
    /\ spec_wf h' c = true
    /\ view h' c = view (st_heap st) spec.
Proof.
  destruct st as [[maps arrs ids raws] calls]. simpl.
  intros (Hp & Ht & Hi & Ha)%spec_wf_parts. simpl in *.
  set (h := mkHeap maps arrs ids raws).
  set (m := read_map h (instance.Tags spec)).
  unfold combo.cloneSpec.
  rewrite (bind_Ok _ _ _ (mkState (mkHeap (maps ++ [∅]) arrs ids raws) calls)
             (length maps)) by reflexivity.
  erewrite (bind_Ok (range_assign _ _)); cycle 1.
  { apply range_assign_spec; simpl.
    - eapply valid_ref_mono; [|exact Ht]. rewrite length_app. lia.
    - rewrite length_app. simpl. lia. }
  simpl.
  assert (Hmaps :
    <[length maps :=
        read_map (mkHeap (maps ++ [∅]) arrs ids raws) (instance.Tags spec)
        ∪ default ∅ ((maps ++ [∅]) !! length maps)]> (maps ++ [∅]) =
    maps ++ [m]).
  { rewrite (read_map_extends h);
      [| simpl; apply extends_app, extends_refl | exact Ht].
    rewrite lookup_app_r, Nat.sub_diag by lia. simpl.
    rewrite (right_id_L ∅ (∪)).
    rewrite insert_app_r_alt, Nat.sub_diag by lia. reflexivity. }
  rewrite Hmaps. clear Hmaps.
  destruct (clone_LogicalID_spec (instance.LogicalID_ spec)
              (mkState (mkHeap (maps ++ [m]) arrs ids raws) calls) Hi)
    as (rid & idmore & Hid & Hidv & Hidf & Hidr).
  simpl in Hid, Hidv, Hidf, Hidr.
  rewrite (bind_Ok _ _ _ _ _ Hid).
  rewrite (bind_Ok _ _ _
             (mkState (mkHeap (maps ++ [m]) (arrs ++ [[]]) (ids ++ idmore) raws) calls)
             (length arrs)) by reflexivity.
  destruct (range_append_spec (instance.Attachments spec) (Some (length arrs))
              (mkState (mkHeap (maps ++ [m]) (arrs ++ [[]]) (ids ++ idmore) raws) calls))
    as (ra & amore & Hra & Hrav & Hraf & Hrar); simpl.
  { eapply valid_ref_mono; [|exact Ha]. rewrite length_app. lia. }
  { apply bool_decide_eq_true. rewrite length_app. simpl. lia. }
  simpl in Hra, Hrav, Hraf, Hrar.
  rewrite (bind_Ok _ _ _ _ _ Hra). unfold ret.
  eexists _, _. split; [reflexivity|].
  assert (Hext : heap_extends h
            (mkHeap (maps ++ [m]) ((arrs ++ [[]]) ++ amore) (ids ++ idmore) raws)).
  { repeat split; simpl; try lia.
    - apply extends_app, extends_refl.
    - rewrite <- app_assoc. apply extends_app, extends_refl.
    - apply extends_app, extends_refl. }
  split; [exact Hext|]. split; [reflexivity|].
  split.
  { repeat split; simpl.
    - eauto.
    - destruct Hraf as [->| ->]; eexists; (split; [reflexivity|]);
        rewrite ?length_app; simpl; lia.
    - exact Hidf. }
  split.
  { apply spec_wf_parts. simpl. repeat split; try done.
    apply bool_decide_eq_true. rewrite length_app. simpl. lia. }
  unfold view. simpl. f_equal.
  - rewrite lookup_app_r, Nat.sub_diag by lia. reflexivity.
  - exact Hidr.
  - unfold read_arr at 1. simpl.
    destruct ra as [la|]; simpl in Hrar |- *.
    + rewrite Hrar. rewrite lookup_app_r, Nat.sub_diag by lia. simpl.
      apply (read_arr_extends h); simpl; [apply extends_app, extends_refl | done].
    + rewrite Hrar. rewrite lookup_app_r, Nat.sub_diag by lia. simpl.
      apply (read_arr_extends h); simpl; [apply extends_app, extends_refl | done].
Qed.

(** One round of the loop of mergeSpecs.  [h0] is the store the specs to
    merge are well-formed in; the map of [result] was allocated after it, so
    no spec to merge shares it. *)
Lemma merge_one_spec (h0 : heap) (result spec : instance.Spec) (lt : loc)
    (st : state) :
  heap_extends h0 (st_heap st) ->
  spec_wf h0 spec = true ->
  spec_wf (st_heap st) result = true ->
  instance.Tags result = Some lt ->
  length (h_maps h0) <= lt ->
  exists result' h',
    combo.merge_one result spec st = (Ok result', mkState h' (st_calls st))
    /\ heap_extends h0 h'
    /\ h_raws h' = h_raws (st_heap st)
    /\ spec_wf h' result' = true
    /\ instance.Tags result' = Some lt
    /\ view h' result' = merge_view (view (st_heap st) result) (view h0 spec).
Proof.
  destruct st as [[maps arrs ids raws] calls]. simpl.
  intros Hext Hspec Hres Htags Hlt.
  set (h := mkHeap maps arrs ids raws) in *.
  pose proof (spec_wf_mono _ _ _ Hext Hspec) as Hspec'.
  apply spec_wf_parts in Hspec' as (_ & Hst & _ & Hsa).
  pose proof Hres as (Hrp & Hrt & Hri & Hra)%spec_wf_parts.
  pose proof Hext as (Hem & Hea & Hei & Her). simpl in *.
  rewrite Htags in Hrt. pose proof Hrt as Hlt'%valid_ref_Some.
  unfold combo.merge_one. rewrite Htags.
  erewrite (bind_Ok (range_assign _ _)); cycle 1.
  { now apply range_assign_spec. }
  simpl.
  set (maps' := <[lt := _]> maps).
  destruct (range_append_spec (instance.Attachments spec)
              (instance.Attachments result)
              (mkState (mkHeap maps' arrs ids raws) calls))
    as (ra & amore & Hrun & Hrav & _ & Hrar); [done..|].
  simpl in Hrun, Hrav, Hrar.
  rewrite (bind_Ok _ _ _ _ _ Hrun). unfold ret.
  eexists _, _. split; [reflexivity|].
  split.
  { repeat split; simpl; try done.
    - now apply extends_insert_fresh.
    - now apply extends_app. }
  split; [reflexivity|].
  split.
  { apply spec_wf_parts. simpl. repeat split; try done.
    apply valid_ref_Some. unfold maps'. now rewrite length_insert. }
  split; [reflexivity|].
  unfold view, merge_view. simpl. f_equal.
  - unfold maps'. rewrite list_lookup_insert_eq by done. simpl.
    apply spec_wf_parts in Hspec as (_ & Hst0 & _ & _).
    rewrite Htags, (read_map_extends h0 h) by done. reflexivity.
  - unfold read_arr at 1. simpl.
    apply spec_wf_parts in Hspec as (_ & _ & _ & Hsa0).
    rewrite <- (read_arr_extends h0 h) by done.
    destruct ra as [la|]; simpl in Hrar |- *; exact Hrar.
Qed.

Lemma mergeSpecs_range_spec (h0 : heap) (specs : list instance.Spec) :
  Forall (fun s => spec_wf h0 s = true) specs ->
  forall (result : instance.Spec) (lt : loc) (st : state),
    heap_extends h0 (st_heap st) ->
    spec_wf (st_heap st) result = true ->
    instance.Tags result = Some lt ->
    length (h_maps h0) <= lt ->
    exists result' h',
      combo.mergeSpecs_range result specs st = (Ok result', mkState h' (st_calls st))
      /\ heap_extends h0 h'
      /\ h_raws h' = h_raws (st_heap st)
      /\ spec_wf h' result' = true
      /\ view h' result' =
           fold_left merge_view (map (view h0) specs) (view (st_heap st) result).
Proof.
  induction 1 as [|spec specs Hspec _ IH]; intros result lt st Hext Hres Htags Hlt.
  - exists result, (st_heap st). destruct st as [h calls]. simpl in *.
    unfold ret. split; [reflexivity|]. split; [exact Hext|].
    split; [reflexivity|]. split; [exact Hres | reflexivity].
  - destruct (merge_one_spec h0 result spec lt st)
      as (r1 & h1 & Hrun1 & Hext1 & Hraws1 & Hwf1 & Htags1 & Hview1); [done..|].
    destruct (IH r1 lt (mkState h1 (st_calls st)))
      as (r2 & h2 & Hrun2 & Hext2 & Hraws2 & Hwf2 & Hview2); [done..|].
    simpl in Hrun2, Hraws2, Hview2.
    exists r2, h2. simpl. rewrite (bind_Ok _ _ _ _ _ Hrun1).
    split; [exact Hrun2|]. split; [exact Hext2|].
    split; [congruence|]. split; [exact Hwf2|].
    now rewrite Hview2, Hview1.
Qed.

(** mergeSpecs, as a fold over what is read through the specs: it returns
    without error a well-formed spec made of new objects. *)
Lemma mergeSpecs_spec (initial : instance.Spec) (specs : list instance.Spec)
    (st : state) :
  spec_wf (st_heap st) initial = true ->
  Forall (fun s => spec_wf (st_heap st) s = true) specs ->
  exists result h',
    combo.mergeSpecs initial specs st = (Ok (result, None), mkState h' (st_calls st))
    /\ heap_extends (st_heap st) h'
    /\ h_raws h' = h_raws (st_heap st)
    /\ spec_wf h' result = true
    /\ view h' result =
         fold_left merge_view (map (view (st_heap st)) specs)
           (view (st_heap st) initial).
Proof.
  intros Hinit Hspecs.
  destruct (cloneSpec_spec initial st Hinit)
    as (c & h1 & Hrun1 & Hext1 & Hraws1 & Hfresh & Hwf1 & Hview1).
  destruct Hfresh as ((lt & Htags & Hlt) & _).
  destruct (mergeSpecs_range_spec (st_heap st) specs Hspecs c lt
              (mkState h1 (st_calls st)))
    as (r & h2 & Hrun2 & Hext2 & Hraws2 & Hwf2 & Hview2); [done..|].
  simpl in Hrun2, Hraws2, Hview2.
  exists r, h2. unfold combo.mergeSpecs.
  rewrite (bind_Ok _ _ _ _ _ Hrun1), (bind_Ok _ _ _ _ _ Hrun2).
  split; [reflexivity|]. split; [exact Hext2|].
  split; [congruence|]. split; [exact Hwf2|].
  now rewrite Hview2, Hview1.
Qed.

(** ** The merge fold *)

Lemma merged_properties (vs : list SpecView) (acc : SpecView) :
  sv_properties (fold_left merge_view vs acc) = sv_properties acc
  /\ sv_logicalID (fold_left merge_view vs acc) = sv_logicalID acc.
Proof.
  revert acc. induction vs as [|v vs IH]; intros acc; [done|].
  simpl. now rewrite !(proj1 (IH _)), !(proj2 (IH _)).
Qed.

Lemma merged_tags (vs : list SpecView) (acc : SpecView) (k : string) :
  sv_tags (fold_left merge_view vs acc) !! k =
    match last (omap (fun v => sv_tags v !! k) vs) with
    | Some x => Some x
    | None => sv_tags acc !! k
    end.
Proof.
  induction vs as [|v vs IH] using rev_ind; [done|].
  rewrite fold_left_app, omap_app. simpl. rewrite lookup_union.
  destruct (sv_tags v !! k) as [x|] eqn:Hv; simpl.
  - rewrite last_snoc. now destruct (sv_tags (fold_left merge_view vs acc) !! k).
  - rewrite app_nil_r, (left_id_L None (∪)). exact IH.
Qed.

Lemma omap_map {A B C : Type} (f : B -> option C) (g : A -> B) (l : list A) :
  omap f (map g l) = omap (fun x => f (g x)) l.
Proof.
  induction l as [|x l IH]; [done|]. simpl.
  destruct (f (g x)); [f_equal|]; exact IH.
Qed.

Lemma merged_attachments (vs : list SpecView) (acc : SpecView) :
  sv_attachments (fold_left merge_view vs acc) =
    sv_attachments acc ++ concat (map sv_attachments vs).
Proof.
  revert acc. induction vs as [|v vs IH]; intros acc; simpl.
  - now rewrite app_nil_r.
  - rewrite IH. simpl. now rewrite <- app_assoc.
Qed.

Lemma append_assoc (a b c : string) : (a +:+ b) +:+ c = a +:+ (b +:+ c).
Proof.
  induction a as [|x a IH]; [done|].
  change (String x ((a +:+ b) +:+ c) = String x (a +:+ b +:+ c)). now f_equal.
Qed.

Lemma concat_snoc (sep s : string) (l : list string) :
  l <> [] -> String.concat sep (l ++ [s]) = String.concat sep l +:+ sep +:+ s.
Proof.
  induction l as [|x l IH]; [done|]. intros _.
  destruct l as [|y l]; [reflexivity|].
  change (String.concat sep ((x :: y :: l) ++ [s]))
    with (x +:+ sep +:+ String.concat sep ((y :: l) ++ [s])).
  rewrite IH by done.
  change (String.concat sep (x :: y :: l))
    with (x +:+ sep +:+ String.concat sep (y :: l)).
  now rewrite !append_assoc.
Qed.

Lemma concat_nonempty (sep : string) (l : list string) :
  Forall (fun s => s <> EmptyString) l -> l <> [] ->
  String.concat sep l <> EmptyString.
Proof.
  intros Hall Hne. destruct Hall as [|x l Hx _]; [done|].
  destruct x as [|a x]; [done|]. destruct l as [|y l]; [done|].
  change (String a (x +:+ sep +:+ String.concat sep (y :: l)) <> EmptyString).
  discriminate.
Qed.

(** The init of the fold: the non-empty inits, in order, one per line. *)
Lemma merged_init (vs : list SpecView) (acc : SpecView) :
  sv_init (fold_left merge_view vs acc) =
    String.concat newline
      (filter (fun s => s <> EmptyString) (sv_init acc :: map sv_init vs)).
Proof.
  induction vs as [|v vs IH] using rev_ind.
  - simpl. rewrite filter_cons.
    destruct (decide (sv_init acc <> EmptyString)) as [Hacc|Hacc]; [done|].
    apply dec_stable in Hacc. now rewrite Hacc.
  - rewrite fold_left_app, map_app, app_comm_cons, filter_app. simpl.
    rewrite IH. unfold append_init.
    set (l := filter (fun s => s <> EmptyString) (sv_init acc :: map sv_init vs)).
    assert (Hl : Forall (fun s => s <> EmptyString) l).
    { apply Forall_forall. intros s Hs. unfold l in Hs.
      now apply list_elem_of_filter in Hs as [? _]. }
    destruct (decide (sv_init v = EmptyString)) as [Hv|Hv].
    + rewrite filter_cons_False by (now intros ?). now rewrite app_nil_r.
    + rewrite filter_cons_True by done.
      change (filter (fun s => s <> EmptyString) []) with (@nil string).
      destruct (decide (l = [])) as [->|Hne].
      * reflexivity.
      * rewrite decide_False by now apply concat_nonempty.
        now rewrite concat_snoc, append_assoc.
Qed.

(** C6: mergeSpecs overlays the tags of the member outputs in listed order
    onto those of the original spec: under every key the merged spec holds
    the value of the last output that defines the key, and the value of the
    original spec only when no output defines it. *)
Theorem mergeSpecs_last_tag_wins
    (initial : instance.Spec) (specs : list instance.Spec) (st : state)
    (k : string) :
  spec_wf (st_heap st) initial = true ->
  Forall (fun s => spec_wf (st_heap st) s = true) specs ->
  exists result st',
    combo.mergeSpecs initial specs st = (Ok (result, None), st')
    /\ read_map (st_heap st') (instance.Tags result) !! k =
         match last (omap (fun s => read_map (st_heap st) (instance.Tags s) !! k)
                       specs) with
         | Some v => Some v
         | None => read_map (st_heap st) (instance.Tags initial) !! k
         end.
Proof.
  intros Hinit Hspecs.
  destruct (mergeSpecs_spec initial specs st Hinit Hspecs)
    as (result & h' & Hrun & _ & _ & _ & Hview).
  exists result, (mkState h' (st_calls st)). split; [exact Hrun|]. simpl.
  change (read_map h' (instance.Tags result)) with (sv_tags (view h' result)).
  rewrite Hview, merged_tags. simpl.
  now rewrite omap_map.
Qed.

Lemma mergeSpecs_last_tag_wins_witness :
  exists result st',
    combo.mergeSpecs demo.base [demo.outA; demo.outB; demo.outC] demo.loaded =
      (Ok (result, None), st')
    /\ read_map (st_heap st') (instance.Tags result) !! "k" = Some "2".
Proof.
  destruct (mergeSpecs_last_tag_wins demo.base [demo.outA; demo.outB; demo.outC]
              demo.loaded "k") as (result & st' & Hrun & Htag).
  - reflexivity.
  - repeat constructor.
  - exists result, st'. split; [exact Hrun|]. rewrite Htag. reflexivity.
Defined.

(** C7: in the merge fold a member output with a non-empty init appends it
    to the init merged so far, behind a line feed only when that is not
    empty, and an output with an empty init leaves it as it is; the merged
    init is the init of the original spec and the non-empty inits of the
    outputs, in listed order, joined by line feeds. *)
Theorem mergeSpecs_init_joined_by_newlines
    (initial : instance.Spec) (specs : list instance.Spec)
    (spec : instance.Spec) (st : state) :
  spec_wf (st_heap st) initial = true ->
  Forall (fun s => spec_wf (st_heap st) s = true) (specs ++ [spec]) ->
  exists result st' result1 st1,
    combo.mergeSpecs initial specs st = (Ok (result, None), st')
    /\ instance.Init result =
         String.concat newline
           (filter (fun s => s <> EmptyString)
              (instance.Init initial :: map instance.Init specs))
    /\ combo.mergeSpecs initial (specs ++ [spec]) st = (Ok (result1, None), st1)
    /\ instance.Init result1 =
         if decide (instance.Init spec = EmptyString) then instance.Init result
         else if decide (instance.Init result = EmptyString) then instance.Init spec
         else instance.Init result +:+ newline +:+ instance.Init spec.
Proof.
  intros Hinit Hall.
  pose proof Hall as [Hspecs _]%Forall_app.
  destruct (mergeSpecs_spec initial specs st Hinit Hspecs)
    as (result & h' & Hrun & _ & _ & _ & Hview).
  destruct (mergeSpecs_spec initial (specs ++ [spec]) st Hinit Hall)
    as (result1 & h1 & Hrun1 & _ & _ & _ & Hview1).
  exists result, (mkState h' (st_calls st)), result1, (mkState h1 (st_calls st)).
  split; [exact Hrun|].
  assert (Hi : instance.Init result =
               sv_init (fold_left merge_view (map (view (st_heap st)) specs)
                          (view (st_heap st) initial))).
  { now rewrite <- Hview. }
  split.
  { rewrite Hi, merged_init. simpl. now rewrite map_map. }
  split; [exact Hrun1|].
  change (instance.Init result1) with (sv_init (view h1 result1)).
  rewrite Hview1, map_app, fold_left_app. simpl. rewrite <- Hi.
  unfold append_init.
  destruct (decide (instance.Init spec = EmptyString)); [done|].
  destruct (decide (instance.Init result = EmptyString)) as [->|]; [done|].
  now rewrite append_assoc.
Qed.

Lemma mergeSpecs_init_joined_by_newlines_witness :
  exists result st' result1 st1,
    combo.mergeSpecs demo.base [demo.outA; demo.outB] demo.loaded =
      (Ok (result, None), st')
    /\ instance.Init result = "echo a"
    /\ combo.mergeSpecs demo.base [demo.outA; demo.outB; demo.outC] demo.loaded =
      (Ok (result1, None), st1)
    /\ instance.Init result1 = "echo a" +:+ newline +:+ "echo c".
Proof.
  destruct (mergeSpecs_init_joined_by_newlines demo.base [demo.outA; demo.outB]
              demo.outC demo.loaded)
    as (result & st' & result1 & st1 & Hrun & Hinit & Hrun1 & Hinit1).
  - reflexivity.
  - repeat constructor.
  - exists result, st', result1, st1.
    split; [exact Hrun|]. split; [rewrite Hinit; reflexivity|].
    split; [exact Hrun1|]. rewrite Hinit1, Hinit. reflexivity.
Defined.

(** X1: The attachments of the merged spec are those of the original spec
    followed by those of the member outputs, in listed order and, within an
    output, in the order of its slice. *)
Lemma mergeSpecs_attachments_in_order
    (initial : instance.Spec) (specs : list instance.Spec) (st : state) :
  spec_wf (st_heap st) initial = true ->
  Forall (fun s => spec_wf (st_heap st) s = true) specs ->
  exists result st',
    combo.mergeSpecs initial specs st = (Ok (result, None), st')
    /\ read_arr (st_heap st') (instance.Attachments result) =
         read_arr (st_heap st) (instance.Attachments initial)
         ++ concat (map (fun s => read_arr (st_heap st) (instance.Attachments s)) specs).
Proof.
  intros Hinit Hspecs.
  destruct (mergeSpecs_spec initial specs st Hinit Hspecs)
    as (result & h' & Hrun & _ & _ & _ & Hview).
  exists result, (mkState h' (st_calls st)). split; [exact Hrun|]. simpl.
  change (read_arr h' (instance.Attachments result))
    with (sv_attachments (view h' result)).
  rewrite Hview, merged_attachments. simpl. now rewrite map_map.
Qed.

(** The tags and attachments of a clone are never nil: a nil map or slice of
    the spec comes back as an empty one. *)
Lemma cloneSpec_allocates (spec : instance.Spec) (st : state) :
  spec_wf (st_heap st) spec = true ->
  exists c st',
    combo.cloneSpec spec st = (Ok c, st')
    /\ is_Some (instance.Tags c)
    /\ is_Some (instance.Attachments c)
    /\ instance.Properties c = instance.Properties spec.
Proof.
  intros Hwf.
  destruct (cloneSpec_spec spec st Hwf)
    as (c & h' & Hrun & _ & _ & ((lt & Ht & _) & (la & Ha & _) & _) & _ & Hview).
  exists c, (mkState h' (st_calls st)). split; [exact Hrun|].
  split; [by eexists|]. split; [by eexists|].
  revert Hrun. unfold combo.cloneSpec, bind.
  repeat match goal with
         | |- context [match ?m ?s with _ => _ end] =>
             destruct (m s) as [[?|?] ?]; try discriminate
         end.
  unfold ret. intros [= <- _]. reflexivity.
Qed.

(** The init of a clone is that of the spec, and its logical identifier is
    nil exactly when that of the spec is. *)
Lemma cloneSpec_scalars (spec : instance.Spec) (st : state) :
  spec_wf (st_heap st) spec = true ->
  forall c st',
    combo.cloneSpec spec st = (Ok c, st') ->
    instance.Init c = instance.Init spec
    /\ (is_Some (instance.LogicalID_ c) <-> is_Some (instance.LogicalID_ spec)).
Proof.
  intros Hwf c st' Hrun'.
  destruct (cloneSpec_spec spec st Hwf)
    as (c' & h' & Hrun & _ & _ & _ & Hwfc & Hview).
  rewrite Hrun in Hrun'. injection Hrun' as -> <-.
  assert (Hi : sv_init (view h' c) = sv_init (view (st_heap st) spec))
    by now rewrite Hview.
  split; [exact Hi|].
  assert (Hl : sv_logicalID (view h' c) = sv_logicalID (view (st_heap st) spec))
    by now rewrite Hview.
  simpl in Hl. apply spec_wf_parts in Hwf as (_ & _ & Hvs & _).
  apply spec_wf_parts in Hwfc as (_ & _ & Hvc & _).
  destruct (instance.LogicalID_ c) as [lc|], (instance.LogicalID_ spec) as [ls|];
    simpl in Hl; try done.
  - apply valid_ref_Some, lookup_lt_is_Some_2 in Hvc as [x Hx].
    rewrite Hx in Hl. discriminate.
  - apply valid_ref_Some, lookup_lt_is_Some_2 in Hvs as [x Hx].
    rewrite Hx in Hl. discriminate.
Qed.

(** ** Prepare of the composition *)

Section Preparing.
Context `{combo.Externals}.
Variable f : combo.flavorCombo.
Variable inst : instance.Spec.
Variable allocation : types.AllocationMethod.

(** C9, as the code has it: on a payload that decodes to a composition
    without members, Prepare returns without error and without calling any
    plugin a copy of the input spec: the same properties, tags, init, logical
    identifier and attachments are read through it, its properties are the
    very raw message of the input and its init is the input's, but its tags
    map, its attachments slice and its logical identifier are new objects,
    and the map and the slice are never nil, whatever those of the input
    are. *)
Theorem Prepare_no_members_returns_a_copy
    (flavorProperties : RawMessage) (s : combo.Spec) (st : state) :
  combo.json_Unmarshal flavorProperties = (s, None) ->
  combo.Flavors s = [] ->
  spec_wf (st_heap st) inst = true ->
  exists result st',
    combo.Prepare f flavorProperties inst allocation st = (Ok (result, None), st')
    /\ view (st_heap st') result = view (st_heap st) inst
    /\ st_calls st' = st_calls st
    /\ instance.Properties result = instance.Properties inst
    /\ instance.Init result = instance.Init inst
    /\ (is_Some (instance.LogicalID_ result) <-> is_Some (instance.LogicalID_ inst))
    /\ is_Some (instance.Tags result)
    /\ is_Some (instance.Attachments result)
    /\ fresh (st_heap st) result.
Proof.
  intros Hdec Hnil Hwf.
  destruct (cloneSpec_spec inst st Hwf)
    as (c & h' & Hrun & _ & _ & Hfresh & _ & Hview).
  destruct (cloneSpec_allocates inst st Hwf) as (c' & st' & Hrun' & Ht & Ha & Hp).
  rewrite Hrun in Hrun'. injection Hrun' as <- <-.
  destruct (cloneSpec_scalars inst st Hwf _ _ Hrun) as [Hi Hl].
  exists c, (mkState h' (st_calls st)).
  unfold combo.Prepare. rewrite Hdec, Hnil. simpl.
  rewrite bind_ret_l. unfold combo.mergeSpecs.
  rewrite (bind_Ok _ _ _ _ _ Hrun). simpl. rewrite bind_ret_l.
  split; [reflexivity|]. split; [exact Hview|]. split; [reflexivity|].
  split; [exact Hp|]. split; [exact Hi|]. split; [exact Hl|].
  split; [exact Ht|]. split; [exact Ha | exact Hfresh].
Qed.

End Preparing.

Lemma Prepare_no_members_returns_a_copy_witness :
  exists result st',
    combo.Prepare (H := demo.externals) demo.plugins (demo.bytes "=") demo.base
      demo.one demo.loaded = (Ok (result, None), st')
    /\ view (st_heap st') result = view demo.store demo.base
    /\ st_calls st' = []
    /\ instance.Properties result = Some 0
    /\ instance.Init result = EmptyString
    /\ (is_Some (instance.LogicalID_ result) <-> is_Some (Some 0))
    /\ is_Some (instance.Tags result)
    /\ is_Some (instance.Attachments result)
    /\ fresh demo.store result.
Proof.
  apply (Prepare_no_members_returns_a_copy (H := demo.externals) demo.plugins
           demo.base demo.one (demo.bytes "=") (combo.mkSpec []) demo.loaded);
    reflexivity.
Defined.

(** C9 fails as stated: for a spec whose tags map and attachments slice are
    nil, Prepare with a composition without members returns a spec whose
    tags and attachments are not nil: they are a new, empty map and a new,
    empty slice, so the result is not field for field the input. *)
Lemma Prepare_no_members_nil_comes_back_empty :
  exists st',
    combo.Prepare (H := demo.externals) demo.plugins (demo.bytes "=")
      (instance.mkSpec None None "echo" None None) demo.one demo.loaded
    = (Ok (instance.mkSpec None (Some 3) "echo" None (Some 2), None), st')
    /\ h_maps (st_heap st') !! 3 = Some ∅
    /\ h_arrs (st_heap st') !! 2 = Some []
    /\ instance.Tags (instance.mkSpec None None "echo" None None) = None
    /\ instance.Attachments (instance.mkSpec None None "echo" None None) = None.
Proof.
  eexists. split; [vm_compute; reflexivity|]. by repeat split.
Defined.

(** *** The invariant of the loop *)

Lemma heap_extends_le (h h' : heap) : heap_extends h h' -> heap_le h h'.
Proof.
  intros (Hm & Ha & Hi & Hr).
  repeat split; first [assumption | apply extends_length; assumption].
Qed.

Lemma heap_le_trans (h1 h2 h3 : heap) :
  heap_le h1 h2 -> heap_le h2 h3 -> heap_le h1 h3.
Proof. unfold heap_le. intros (? & ? & ? & ?) (? & ? & ? & ?). lia. Qed.

Lemma spec_wf_le (h h' : heap) (s : instance.Spec) :
  heap_le h h' -> spec_wf h s = true -> spec_wf h' s = true.
Proof.
  intros (Hm & Ha & Hi & Hr). rewrite !spec_wf_parts. intros (? & ? & ? & ?).
  repeat split; eapply valid_ref_mono; eassumption.
Qed.

Lemma fresh_le (h0 h : heap) (c : instance.Spec) :
  heap_le h0 h -> fresh h c -> fresh h0 c.
Proof.
  intros (Hm & Ha & Hi & _) ((lt & Ht & Hlt) & (la & Hat & Hla) & Hid).
  repeat split.
  - exists lt. split; [done | lia].
  - exists la. split; [done | lia].
  - intros l Hl. apply Hid in Hl. lia.
Qed.

Lemma Prepare_inv_start (inst : instance.Spec) (st : state) :
  Prepare_inv (st_heap st) inst (st_calls st) st.
Proof.
  split; [apply heap_extends_refl|]. exists [].
  rewrite app_nil_r. repeat split; constructor.
Qed.

(** The invariant holds in a later store that keeps the objects of [h0] and
    deallocates nothing. *)
Lemma Prepare_inv_later (h0 : heap) (inst : instance.Spec) (calls0 : list call)
    (st : state) (h' : heap) :
  Prepare_inv h0 inst calls0 st ->
  heap_extends h0 h' -> heap_le (st_heap st) h' ->
  Prepare_inv h0 inst calls0 (mkState h' (st_calls st)).
Proof.
  intros (_ & evs & Hcalls & Hhands & Hwf & Hnt & Hna) Hext Hle.
  split; [exact Hext|]. exists evs. simpl. repeat split; try done.
  eapply Forall_impl; [exact Hwf|]. intros ev Hev c Hc.
  eapply spec_wf_le; [exact Hle | now apply Hev].
Qed.

(** The call of a well-behaved plugin on a clone keeps the invariant. *)
Lemma Prepare_inv_call (h0 : heap) (inst : instance.Spec) (calls0 : list call)
    (st : state) (h1 : heap) (c : instance.Spec) (p : flavor.Plugin.t)
    (name : string) (props : RawMessage) (a : types.AllocationMethod) :
  spec_wf h0 inst = true ->
  Prepare_inv h0 inst calls0 st ->
  heap_extends (st_heap st) h1 ->
  fresh (st_heap st) c ->
  spec_wf h1 c = true ->
  view h1 c = view (st_heap st) inst ->
  well_behaved p ->
  Prepare_inv h0 inst calls0
    (mkState (flavor.Plugin.Prepare p props c a h1).2
       (st_calls st ++ [CallPrepare name props c (view h1 c)]))
  /\ heap_le (st_heap st) (flavor.Plugin.Prepare p props c a h1).2
  /\ spec_wf (flavor.Plugin.Prepare p props c a h1).2
       (flavor.Plugin.Prepare p props c a h1).1.1 = true.
Proof.
  intros Hinst (Hext0 & evs & Hcalls & Hhands & Hwf & Hnt & Hna)
    Hext1 Hfresh Hc Hview Hp.
  destruct (Hp props c a h1 Hc) as (Hle & Hkm & Hka & Hki & Hout).
  set (h2 := (flavor.Plugin.Prepare p props c a h1).2) in *.
  pose proof (heap_extends_le _ _ Hext0) as Hle0.
  pose proof (heap_extends_le _ _ Hext1) as Hle1.
  pose proof (heap_le_trans _ _ _ Hle1 Hle) as Hle2.
  pose proof (fresh_le _ _ _ Hle0 Hfresh) as Hfresh0.
  pose proof (heap_extends_trans _ _ _ Hext0 Hext1) as Hext01.
  destruct Hfresh as ((lt & Ht & Hlt) & (la & Hat & Hla) & Hid).
  destruct Hfresh0 as ((lt0 & Ht0 & Hlt0) & (la0 & Hat0 & Hla0) & Hid0).
  destruct Hext01 as (Hm01 & Ha01 & Hi01 & Hr01).
  split; [|split; [exact Hle2 | exact Hout]].
  split.
  { repeat split.
    - eapply extends_keeps; [exact Hm01 | exact Hkm |].
      intros l Hl. rewrite Ht0 in Hl. injection Hl as <-. exact Hlt0.
    - eapply extends_keeps; [exact Ha01 | exact Hka |].
      intros l Hl. rewrite Hat0 in Hl. injection Hl as <-. exact Hla0.
    - eapply extends_keeps; [exact Hi01 | exact Hki |]. exact Hid0.
    - destruct Hle0 as (_ & _ & _ & ?), Hle2 as (_ & _ & _ & ?). simpl. lia. }
  exists (evs ++ [CallPrepare name props c (view h1 c)]). simpl.
  split; [now rewrite Hcalls, app_assoc|].
  split.
  { apply Forall_app. split; [exact Hhands|]. constructor; [|constructor].
    exists c, (view h1 c). repeat split; try done.
    - eauto.
    - eauto.
    - rewrite Hview. now apply isolated_view_extends. }
  split.
  { apply Forall_app. split.
    - eapply Forall_impl; [exact Hwf|]. intros ev Hev c' Hc'.
      eapply spec_wf_le; [exact Hle2 | now apply Hev].
    - constructor; [|constructor]. intros c' [= <-].
      eapply spec_wf_le; [exact Hle | exact Hc]. }
  split.
  - rewrite omap_app. apply NoDup_app. split; [exact Hnt|]. split.
    + intros l Hl. apply list_elem_of_omap in Hl as (ev & Hev & Hl).
      unfold clone_tags in Hl.
      destruct (Prepare_clone ev) as [c'|] eqn:Hc'; [|done]. simpl in Hl.
      rewrite Forall_forall in Hwf.
      pose proof (Hwf ev Hev c' Hc') as (_ & Hv & _)%spec_wf_parts.
      rewrite Hl in Hv. apply valid_ref_Some in Hv.
      unfold clone_tags. simpl. rewrite Ht. simpl.
      intros Hin%list_elem_of_singleton. lia.
    + unfold clone_tags. simpl. rewrite Ht. simpl. apply NoDup_singleton.
  - rewrite omap_app. apply NoDup_app. split; [exact Hna|]. split.
    + intros l Hl. apply list_elem_of_omap in Hl as (ev & Hev & Hl).
      unfold clone_attachments in Hl.
      destruct (Prepare_clone ev) as [c'|] eqn:Hc'; [|done]. simpl in Hl.
      rewrite Forall_forall in Hwf.
      pose proof (Hwf ev Hev c' Hc') as (_ & _ & _ & Hv)%spec_wf_parts.
      rewrite Hl in Hv. apply valid_ref_Some in Hv.
      unfold clone_attachments. simpl. rewrite Hat. simpl.
      intros Hin%list_elem_of_singleton. lia.
    + unfold clone_attachments. simpl. rewrite Hat. simpl. apply NoDup_singleton.
Qed.

Lemma call_Prepare_Some (name : string) (p : flavor.Plugin.t) (props : RawMessage)
    (spec : instance.Spec) (a : types.AllocationMethod) (st : state) :
  call_Prepare name (Some p) props spec a st =
    (Ok (flavor.Plugin.Prepare p props spec a (st_heap st)).1,
     mkState (flavor.Plugin.Prepare p props spec a (st_heap st)).2
       (st_calls st ++ [CallPrepare name props spec (view (st_heap st) spec)])).
Proof.
  unfold call_Prepare, bind, get_heap, record_call, put_heap, ret. simpl.
  now destruct (flavor.Plugin.Prepare p props spec a (st_heap st)) as [[out err] h'].
Qed.

Section PrepareLoop.
Context `{combo.Externals}.
Variable f : combo.flavorCombo.
Variable inst : instance.Spec.
Variable allocation : types.AllocationMethod.
Variable h0 : heap.
Variable calls0 : list call.
Hypothesis inst_wf : spec_wf h0 inst = true.
Hypothesis plugins_well_behaved : all_well_behaved f.

(** The loop of Prepare keeps the invariant whatever its outcome; it
    deallocates nothing, records one call per member when it runs to its end,
    collects well-formed outputs, and returns [inst] when it returns early. *)
Lemma Prepare_range_inv (ms : list types.FlavorPlugin) :
  forall (specs : list instance.Spec) (st : state),
    Prepare_inv h0 inst calls0 st ->
    Forall (fun s => spec_wf (st_heap st) s = true) specs ->
    Prepare_inv h0 inst calls0 (combo.Prepare_range f inst allocation ms specs st).2
    /\ heap_le (st_heap st)
         (st_heap (combo.Prepare_range f inst allocation ms specs st).2)
    /\ (exists evs,
          st_calls (combo.Prepare_range f inst allocation ms specs st).2 =
            st_calls st ++ evs
          /\ forall specs',
               (combo.Prepare_range f inst allocation ms specs st).1 = Ok (inr specs') ->
               map call_name evs = map types.Plugin ms)
    /\ match (combo.Prepare_range f inst allocation ms specs st).1 with
       | Ok (inr specs') =>
           Forall (fun s =>
             spec_wf (st_heap (combo.Prepare_range f inst allocation ms specs st).2) s
             = true) specs'
       | Ok (inl r) => r.1 = inst
       | Fault _ => True
       end.
Proof.
  induction ms as [|m ms IH]; intros specs st Hinv Hspecs.
  - simpl. split; [exact Hinv|]. split; [apply heap_extends_le, heap_extends_refl|].
    split; [|exact Hspecs]. exists []. now rewrite app_nil_r.
  - pose proof Hinv as (Hext0 & _).
    assert (Hwf : spec_wf (st_heap st) inst = true).
    { eapply spec_wf_le; [apply heap_extends_le, Hext0 | exact inst_wf]. }
    destruct (cloneSpec_spec inst st Hwf)
      as (c & h1 & Hrun1 & Hext1 & Hraws1 & Hfresh & Hwfc & Hview).
    pose proof (heap_extends_le _ _ Hext1) as Hle1.
    assert (Hinv1 : Prepare_inv h0 inst calls0 (mkState h1 (st_calls st))).
    { apply Prepare_inv_later; [exact Hinv | | exact Hle1].
      eapply heap_extends_trans; eassumption. }
    simpl combo.Prepare_range. rewrite (bind_Ok _ _ _ _ _ Hrun1).
    destruct (combo.flavorPlugins f (types.Plugin m)) as [[p|] [e|]] eqn:Hlook.
    + simpl. split; [exact Hinv1|]. split; [exact Hle1|].
      split; [|reflexivity]. exists []. rewrite app_nil_r. split; [done|]. intros ? [=].
    + rewrite (bind_Ok _ _ _ _ _ (call_Prepare_Some _ _ _ _ _ _)). simpl.
      destruct (Prepare_inv_call h0 inst calls0 st h1 c p (types.Plugin m)
                  (combo.types_RawMessage (types.Properties m)) allocation)
        as (Hinv2 & Hle2 & Hout); try done.
      { eapply plugins_well_behaved, Hlook. }
      destruct (flavor.Plugin.Prepare p
                  (combo.types_RawMessage (types.Properties m)) c allocation h1)
        as [[out [e|]] h2] eqn:Hp; simpl in *.
      * split; [exact Hinv2|]. split; [exact Hle2|].
        split; [|reflexivity]. eexists. split; [reflexivity|]. intros ? [=].
      * destruct (IH (specs ++ [out])
                    (mkState h2 (st_calls st ++
                       [CallPrepare (types.Plugin m)
                          (combo.types_RawMessage (types.Properties m)) c (view h1 c)])))
          as (Hinv3 & Hle3 & (evs & Hcalls & Hnames) & Hres).
        { exact Hinv2. }
        { simpl. apply Forall_app. split; [|by constructor].
          eapply Forall_impl; [exact Hspecs|]. intros s.
          now apply spec_wf_le. }
        split; [exact Hinv3|].
        split; [eapply heap_le_trans; [exact Hle2 | exact Hle3]|].
        split; [|exact Hres].
        eexists. simpl in Hcalls. rewrite Hcalls, <- app_assoc.
        split; [reflexivity|]. intros specs' Hs. simpl. f_equal. eauto.
    + simpl. split; [exact Hinv1|]. split; [exact Hle1|].
      split; [|reflexivity]. exists []. rewrite app_nil_r. split; [done|]. intros ? [=].
    + simpl. split; [exact Hinv1|]. split; [exact Hle1|].
      split; [|exact I]. exists []. rewrite app_nil_r. split; [done|]. intros ? [=].
Qed.

(** The calls the loop of Prepare puts on record are the calls of Prepare on
    the members of a first part of the list, one per member and in listed
    order.  The part is the whole list when the loop runs to its end; when
    the loop returns early, it returns the error of the lookup of the next
    member or of the plugin of the last member called; and it panics only at
    a member whose lookup yields neither a plugin nor an error. *)
Lemma Prepare_range_calls (ms : list types.FlavorPlugin) :
  forall (specs : list instance.Spec) (st : state),
    Prepare_inv h0 inst calls0 st ->
    exists ms1 ms2 evs,
      ms = ms1 ++ ms2
      /\ st_calls (combo.Prepare_range f inst allocation ms specs st).2 =
           st_calls st ++ evs
      /\ Forall2 called ms1 evs
      /\ match (combo.Prepare_range f inst allocation ms specs st).1 with
         | Ok (inr _) => ms2 = []
         | Ok (inl r) => stopped f allocation ms1 ms2 r.2
         | Fault _ =>
             exists m rest,
               ms2 = m :: rest
               /\ combo.flavorPlugins f (types.Plugin m) = (None, None)
         end.
Proof.
  induction ms as [|m ms IH]; intros specs st Hinv.
  - exists [], [], []. simpl. rewrite app_nil_r. repeat split; constructor.
  - pose proof Hinv as (Hext0 & _).
    assert (Hwf : spec_wf (st_heap st) inst = true).
    { eapply spec_wf_le; [apply heap_extends_le, Hext0 | exact inst_wf]. }
    destruct (cloneSpec_spec inst st Hwf)
      as (c & h1 & Hrun1 & Hext1 & Hraws1 & Hfresh & Hwfc & Hview).
    pose proof (heap_extends_le _ _ Hext1) as Hle1.
    simpl combo.Prepare_range. rewrite (bind_Ok _ _ _ _ _ Hrun1).
    destruct (combo.flavorPlugins f (types.Plugin m)) as [[p|] [e|]] eqn:Hlook.
    + exists [], (m :: ms), []. simpl. rewrite app_nil_r.
      split; [done|]. split; [done|]. split; [constructor|].
      left. exists m, ms, (Some p), e. by rewrite Hlook.
    + rewrite (bind_Ok _ _ _ _ _ (call_Prepare_Some _ _ _ _ _ _)). simpl.
      destruct (Prepare_inv_call h0 inst calls0 st h1 c p (types.Plugin m)
                  (combo.types_RawMessage (types.Properties m)) allocation)
        as (Hinv2 & Hle2 & Hout); try done.
      { eapply plugins_well_behaved, Hlook. }
      destruct (flavor.Plugin.Prepare p
                  (combo.types_RawMessage (types.Properties m)) c allocation h1)
        as [[out [e|]] h2] eqn:Hp; simpl in *.
      * exists [m], ms, [CallPrepare (types.Plugin m)
                           (combo.types_RawMessage (types.Properties m)) c (view h1 c)].
        split; [done|]. split; [done|].
        split; [constructor; [by eexists _, _ | constructor]|].
        right. exists [], m, p, c, h1, e. unfold member_props. rewrite Hp, Hlook.
        by repeat split.
      * destruct (IH (specs ++ [out])
                    (mkState h2 (st_calls st ++
                       [CallPrepare (types.Plugin m)
                          (combo.types_RawMessage (types.Properties m)) c (view h1 c)]))
                    Hinv2)
          as (ms1 & ms2 & evs & -> & Hcalls & Hcalled & Hres).
        exists (m :: ms1), ms2,
          (CallPrepare (types.Plugin m)
             (combo.types_RawMessage (types.Properties m)) c (view h1 c) :: evs).
        split; [done|]. simpl in Hcalls. rewrite Hcalls, <- app_assoc.
        split; [done|]. split; [constructor; [by eexists _, _ | exact Hcalled]|].
        destruct (combo.Prepare_range f inst allocation (ms1 ++ ms2) (specs ++ [out]) _).1
          as [[r|?]|?]; try exact Hres.
        destruct Hres as [Hres|(before & m' & p' & c' & h' & e' & -> & Hres)];
          [by left|].
        right. by exists (m :: before), m', p', c', h', e'.
    + exists [], (m :: ms), []. simpl. rewrite app_nil_r.
      split; [done|]. split; [done|]. split; [constructor|].
      left. exists m, ms, None, e. by rewrite Hlook.
    + exists [], (m :: ms), []. simpl. rewrite app_nil_r.
      split; [done|]. split; [done|]. split; [constructor|].
      by exists m, ms.
Qed.

End PrepareLoop.

Section PrepareCalls.
Context `{combo.Externals}.
Variable f : combo.flavorCombo.
Variable inst : instance.Spec.
Variable allocation : types.AllocationMethod.

(** Prepare as a whole keeps the invariant of its loop. *)
Lemma Prepare_inv_final (flavorProperties : RawMessage) (st : state) :
  spec_wf (st_heap st) inst = true ->
  all_well_behaved f ->
  Prepare_inv (st_heap st) inst (st_calls st)
    (combo.Prepare f flavorProperties inst allocation st).2.
Proof.
  intros Hwf Hf. unfold combo.Prepare.
  destruct (combo.json_Unmarshal flavorProperties) as [s [e|]];
    [apply Prepare_inv_start|].
  destruct (Prepare_range_inv f inst allocation (st_heap st) (st_calls st) Hwf Hf
              (combo.Flavors s) [] st (Prepare_inv_start inst st) (Forall_nil_2 _))
    as (Hinv & Hle & _ & Hres).
  unfold bind.
  destruct (combo.Prepare_range f inst allocation (combo.Flavors s) [] st)
    as [[[early|specs]|reason] st1]; simpl in *; try exact Hinv.
  destruct (mergeSpecs_spec inst specs st1) as (r & h' & Hrun & Hext & _);
    [now apply (spec_wf_le (st_heap st)) | exact Hres |].
  rewrite Hrun. simpl. apply Prepare_inv_later; [exact Hinv | | now apply heap_extends_le].
  destruct Hinv as (Hext0 & _). eapply heap_extends_trans; eassumption.
Qed.

(** C3: in a call of Prepare on a well-formed spec, with member plugins that
    write only through what they are handed, every call of a member's Prepare
    receives a clone made of new objects (none of the original spec, none of
    another clone), through which the tags, init, logical identifier and
    attachments of the original spec, as they were when Prepare was called,
    are read, whatever the members called before have written; and when
    Prepare is over, the same is still read through the original spec. *)
Theorem Prepare_hands_each_member_a_fresh_clone
    (flavorProperties : RawMessage) (st : state) :
  spec_wf (st_heap st) inst = true ->
  all_well_behaved f ->
  exists evs,
    st_calls (combo.Prepare f flavorProperties inst allocation st).2 =
      st_calls st ++ evs
    /\ Forall (fun ev =>
         exists name props clone seen,
           ev = CallPrepare name props clone seen
           /\ fresh (st_heap st) clone
           /\ sv_tags seen = read_map (st_heap st) (instance.Tags inst)
           /\ sv_init seen = instance.Init inst
           /\ sv_logicalID seen = sv_logicalID (view (st_heap st) inst)
           /\ sv_attachments seen = read_arr (st_heap st) (instance.Attachments inst))
         evs
    /\ NoDup (omap clone_tags evs)
    /\ NoDup (omap clone_attachments evs)
    /\ isolated (view (st_heap (combo.Prepare f flavorProperties inst allocation st).2) inst)
       = isolated (view (st_heap st) inst)
    /\ match combo.json_Unmarshal flavorProperties with
       | (_, Some _) => evs = []
       | (s, None) =>
           exists ms1 ms2,
             combo.Flavors s = ms1 ++ ms2
             /\ Forall2 called ms1 evs
             /\ match (combo.Prepare f flavorProperties inst allocation st).1 with
                | Ok (_, None) => ms2 = []
                | Ok (_, Some e) => stopped f allocation ms1 ms2 (Some e)
                | Fault _ =>
                    exists m rest,
                      ms2 = m :: rest
                      /\ combo.flavorPlugins f (types.Plugin m) = (None, None)
                end
       end.
Proof.
  intros Hwf Hf.
  destruct (Prepare_inv_final flavorProperties st Hwf Hf)
    as (Hext & evs & Hcalls & Hhands & _ & Hnt & Hna).
  exists evs. split; [exact Hcalls|].
  split.
  { eapply Forall_impl; [exact Hhands|].
    intros ev (clone & seen & Hc & Hs & Hfresh & Hiso).
    destruct ev as [| name props clone' seen' | |]; try discriminate.
    injection Hc as ->. injection Hs as ->.
    exists name, props, clone, seen. split; [reflexivity|]. split; [exact Hfresh|].
    unfold isolated in Hiso. injection Hiso as Ht Hi Hl Ha.
    by repeat split. }
  split; [exact Hnt|]. split; [exact Hna|].
  split; [now apply isolated_view_extends|].
  clear Hhands Hnt Hna Hext. revert Hcalls. unfold combo.Prepare.
  destruct (combo.json_Unmarshal flavorProperties) as [s [e|]].
  { simpl. intros Hcalls. apply (app_inv_head (st_calls st)).
    now rewrite app_nil_r. }
  destruct (Prepare_range_inv f inst allocation (st_heap st) (st_calls st) Hwf Hf
              (combo.Flavors s) [] st (Prepare_inv_start inst st) (Forall_nil_2 _))
    as (_ & Hle & _ & Hout).
  destruct (Prepare_range_calls f inst allocation (st_heap st) (st_calls st) Hwf Hf
              (combo.Flavors s) [] st (Prepare_inv_start inst st))
    as (ms1 & ms2 & evs' & Hms & Hcalls' & Hcalled & Hres).
  unfold bind.
  destruct (combo.Prepare_range f inst allocation (combo.Flavors s) [] st)
    as [[[[r err]|specs]|reason] st1]; simpl in *.
  - intros Hcalls. rewrite Hcalls' in Hcalls. apply app_inv_head in Hcalls as <-.
    exists ms1, ms2. split; [exact Hms|]. split; [exact Hcalled|].
    destruct err as [e|]; [exact Hres|].
    destruct Hres as [(? & ? & ? & ? & _ & _ & [=])
                     |(? & ? & ? & ? & ? & ? & _ & _ & _ & [=])].
  - destruct (mergeSpecs_spec inst specs st1) as (r & h' & Hrun & _);
      [now apply (spec_wf_le (st_heap st)) | exact Hout |].
    rewrite Hrun. simpl. intros Hcalls. rewrite Hcalls' in Hcalls.
    apply app_inv_head in Hcalls as <-.
    exists ms1, ms2. by repeat split.
  - intros Hcalls. rewrite Hcalls' in Hcalls. apply app_inv_head in Hcalls as <-.
    exists ms1, ms2. by repeat split.
Qed.

End PrepareCalls.

(** The plugins of the examples are well-behaved. *)
Lemma keeps_refl {A : Type} (l : list A) (own : option loc) : keeps l l own.
Proof. now intros i x Hi _. Qed.

Lemma keeps_alter {A : Type} (g : A -> A) (l : list A) (own : option loc) :
  keeps l match own with Some i => alter g i l | None => l end own.
Proof.
  destruct own as [i|]; [|apply keeps_refl].
  intros j x Hj Hne. rewrite list_lookup_alter_ne; [done | congruence].
Qed.

Lemma heap_le_refl (h : heap) : heap_le h h.
Proof. unfold heap_le. lia. Qed.

Lemma returns_input_well_behaved (p : flavor.Plugin.t) :
  (forall props spec a h,
      (flavor.Plugin.Prepare p props spec a h).2 = h
      /\ (flavor.Plugin.Prepare p props spec a h).1.1 = spec) ->
  well_behaved p.
Proof.
  intros Hp props spec a h Hwf. cbv zeta.
  destruct (Hp props spec a h) as [-> ->].
  split; [apply heap_le_refl|]. repeat split; try apply keeps_refl. exact Hwf.
Qed.

Lemma tagger_well_behaved : well_behaved demo.tagger.
Proof.
  intros props spec a h Hwf. simpl.
  split.
  { unfold heap_le. simpl.
    destruct (instance.Tags spec), (instance.Attachments spec);
      rewrite ?length_alter; lia. }
  split; [apply keeps_alter|]. split; [apply keeps_alter|].
  split; [apply keeps_refl|].
  apply spec_wf_parts in Hwf as (? & ? & ? & ?). apply spec_wf_parts. simpl.
  repeat split; try done.
  - destruct (instance.Tags spec) as [l|]; [|done].
    destruct (instance.Tags spec); eapply valid_ref_mono; try eassumption;
      now rewrite length_alter.
  - destruct (instance.Attachments spec) as [l|]; [|done].
    eapply valid_ref_mono; [|eassumption]. now rewrite length_alter.
Qed.

Lemma demo_plugins_well_behaved : all_well_behaved demo.plugins.
Proof.
  intros name p e Hlook. unfold demo.plugins in Hlook. simpl in Hlook.
  repeat case_decide; simplify_eq;
    solve [ apply tagger_well_behaved
          | apply returns_input_well_behaved; intros; split; reflexivity ].
Qed.

Lemma Prepare_hands_each_member_a_fresh_clone_witness :
  exists evs,
    st_calls (combo.Prepare (H := demo.externals) demo.plugins (demo.bytes "=tht")
                demo.base demo.one demo.loaded).2 = [] ++ evs
    /\ Forall (fun ev =>
         exists name props clone seen,
           ev = CallPrepare name props clone seen
           /\ fresh demo.store clone
           /\ sv_tags seen = read_map demo.store (Some 2)
           /\ sv_init seen = EmptyString
           /\ sv_logicalID seen = sv_logicalID (view demo.store demo.base)
           /\ sv_attachments seen = read_arr demo.store (Some 0))
         evs
    /\ NoDup (omap clone_tags evs)
    /\ NoDup (omap clone_attachments evs)
    /\ isolated (view (st_heap (combo.Prepare (H := demo.externals) demo.plugins
                                  (demo.bytes "=tht") demo.base demo.one
                                  demo.loaded).2) demo.base)
       = isolated (view demo.store demo.base)
    /\ exists ms1 ms2,
         combo.Flavors (demo.Unmarshal (demo.bytes "=tht")).1 = ms1 ++ ms2
         /\ Forall2 (called (H := demo.externals)) ms1 evs
         /\ ms2 = [].
Proof.
  apply (Prepare_hands_each_member_a_fresh_clone (H := demo.externals) demo.plugins
           demo.base demo.one (demo.bytes "=tht") demo.loaded).
  - reflexivity.
  - exact demo_plugins_well_behaved.
Defined.

Section PrepareFailures.
Context `{combo.Externals}.
Variable f : combo.flavorCombo.
Variable inst : instance.Spec.
Variable allocation : types.AllocationMethod.

(** The loop over a list of members is the loop over its first part and, if
    that runs to its end, the loop over the rest. *)
Lemma Prepare_range_app (ms1 ms2 : list types.FlavorPlugin) :
  forall (specs : list instance.Spec) (st : state),
    combo.Prepare_range f inst allocation (ms1 ++ ms2) specs st =
      match combo.Prepare_range f inst allocation ms1 specs st with
      | (Ok (inr specs1), st1) => combo.Prepare_range f inst allocation ms2 specs1 st1
      | other => other
      end.
Proof.
  induction ms1 as [|m ms1 IH]; intros specs st; [reflexivity|].
  simpl. unfold bind at 1 3.
  destruct (combo.cloneSpec inst st) as [[c|reason] st1]; [|reflexivity].
  destruct (combo.flavorPlugins f (types.Plugin m)) as [p [e|]]; [reflexivity|].
  unfold bind.
  destruct (call_Prepare _ p _ c allocation st1) as [[[out [e|]]|reason] st2];
    try reflexivity.
  apply IH.
Qed.

(** C8: a call of Prepare that fails returns the error as it is, with the
    input spec, and calls no later member.  When the properties do not
    decode, no member is called and the store is untouched.  When the loop
    has run over the members before [m] and the lookup of [m] fails, or the
    Prepare of [m], called on its clone, fails, exactly the members before
    [m] (and [m] itself in the second case) have been called; through the
    returned spec the same tags, init, logical identifier and attachments are
    read as when Prepare was called. *)
Theorem Prepare_fails_fast (flavorProperties : RawMessage) (st : state) :
  spec_wf (st_heap st) inst = true ->
  all_well_behaved f ->
  (forall s e,
      combo.json_Unmarshal flavorProperties = (s, Some e) ->
      combo.Prepare f flavorProperties inst allocation st = (Ok (inst, Some e), st))
  /\ (forall s ms1 m ms2 specs st1 clone st1',
        combo.json_Unmarshal flavorProperties = (s, None) ->
        combo.Flavors s = ms1 ++ m :: ms2 ->
        combo.Prepare_range f inst allocation ms1 [] st = (Ok (inr specs), st1) ->
        combo.cloneSpec inst st1 = (Ok clone, st1') ->
        (forall p e,
            combo.flavorPlugins f (types.Plugin m) = (p, Some e) ->
            exists st2 evs,
              combo.Prepare f flavorProperties inst allocation st =
                (Ok (inst, Some e), st2)
              /\ st_calls st2 = st_calls st ++ evs
              /\ map call_name evs = map types.Plugin ms1
              /\ isolated (view (st_heap st2) inst) = isolated (view (st_heap st) inst))
        /\ (forall p e,
            combo.flavorPlugins f (types.Plugin m) = (Some p, None) ->
            (flavor.Plugin.Prepare p (member_props m) clone allocation
               (st_heap st1')).1.2 = Some e ->
            exists st2 evs,
              combo.Prepare f flavorProperties inst allocation st =
                (Ok (inst, Some e), st2)
              /\ st_calls st2 = st_calls st ++ evs
              /\ map call_name evs = map types.Plugin (ms1 ++ [m])
              /\ isolated (view (st_heap st2) inst) = isolated (view (st_heap st) inst))).
Proof.
  intros Hwf Hf.
  pose proof (Prepare_inv_final f inst allocation flavorProperties st Hwf Hf)
    as (Hfinal & _).
  split.
  { intros s e Hdec. unfold combo.Prepare. now rewrite Hdec. }
  intros s ms1 m ms2 specs st1 clone st1' Hdec Hms Hloop Hclone.
  destruct (Prepare_range_inv f inst allocation (st_heap st) (st_calls st) Hwf Hf
              ms1 [] st (Prepare_inv_start inst st) (Forall_nil_2 _))
    as (_ & Hle & (evs & Hcalls & Hnames) & _).
  rewrite Hloop in Hle, Hcalls, Hnames. simpl in Hle, Hcalls, Hnames.
  specialize (Hnames specs eq_refl).
  destruct (cloneSpec_spec inst st1) as (c & h1 & Hrun1 & _);
    [now apply (spec_wf_le (st_heap st))|].
  rewrite Hclone in Hrun1. injection Hrun1 as -> ->.
  assert (Hstep : forall r st2,
            combo.Prepare_range f inst allocation (m :: ms2) specs st1 =
              (Ok (inl r), st2) ->
            combo.Prepare f flavorProperties inst allocation st = (Ok r, st2)).
  { intros r st2 Hr. unfold combo.Prepare. rewrite Hdec, Hms.
    unfold bind. now rewrite Prepare_range_app, Hloop, Hr. }
  split.
  - intros p e Hlook.
    assert (Hr : combo.Prepare_range f inst allocation (m :: ms2) specs st1 =
                 (Ok (inl (inst, Some e)), mkState h1 (st_calls st1))).
    { simpl. rewrite (bind_Ok _ _ _ _ _ Hclone), Hlook. reflexivity. }
    apply Hstep in Hr. exists (mkState h1 (st_calls st1)), evs.
    split; [exact Hr|]. split; [exact Hcalls|]. split; [exact Hnames|].
    rewrite Hr in Hfinal. now apply isolated_view_extends.
  - intros p e Hlook Hfail.
    assert (Hr : combo.Prepare_range f inst allocation (m :: ms2) specs st1 =
                 (Ok (inl (inst, Some e)),
                  mkState (flavor.Plugin.Prepare p (member_props m) c allocation h1).2
                    (st_calls st1 ++
                       [CallPrepare (types.Plugin m) (member_props m) c (view h1 c)]))).
    { simpl. rewrite (bind_Ok _ _ _ _ _ Hclone), Hlook.
      rewrite (bind_Ok _ _ _ _ _ (call_Prepare_Some _ _ _ _ _ _)). simpl.
      fold (member_props m). simpl in Hfail.
      destruct (flavor.Plugin.Prepare p (member_props m) c allocation h1)
        as [[out err] h2]. simpl in Hfail. now rewrite Hfail. }
    apply Hstep in Hr. eexists _, (evs ++ [_]).
    split; [exact Hr|]. simpl.
    split; [now rewrite Hcalls, app_assoc|].
    split; [now rewrite !map_app, Hnames|].
    rewrite Hr in Hfinal. now apply isolated_view_extends.
Qed.

End PrepareFailures.

Lemma Prepare_fails_fast_witness :
  combo.Prepare (H := demo.externals) demo.plugins (demo.bytes "!") demo.base
    demo.one demo.loaded = (Ok (demo.base, Some "invalid character"), demo.loaded)
  /\ (exists st2 evs,
        combo.Prepare (H := demo.externals) demo.plugins (demo.bytes "=t?h")
          demo.base demo.one demo.loaded =
          (Ok (demo.base, Some "plugin not found: ?"), st2)
        /\ st_calls st2 = [] ++ evs
        /\ map call_name evs = ["t"]
        /\ isolated (view (st_heap st2) demo.base) =
           isolated (view demo.store demo.base))
  /\ (exists st2 evs,
        combo.Prepare (H := demo.externals) demo.plugins (demo.bytes "=txh")
          demo.base demo.one demo.loaded = (Ok (demo.base, Some "x"), st2)
        /\ st_calls st2 = [] ++ evs
        /\ map call_name evs = ["t"; "x"]
        /\ isolated (view (st_heap st2) demo.base) =
           isolated (view demo.store demo.base)).
Proof.
  split; [|split].
  - apply (proj1 (Prepare_fails_fast (H := demo.externals) demo.plugins demo.base
                    demo.one (demo.bytes "!") demo.loaded eq_refl
                    demo_plugins_well_behaved) (combo.mkSpec [])).
    reflexivity.
  - destruct (Prepare_fails_fast (H := demo.externals) demo.plugins demo.base
                demo.one (demo.bytes "=t?h") demo.loaded eq_refl
                demo_plugins_well_behaved) as [_ Hloop].
    eassert (Hrange : combo.Prepare_range (H := demo.externals) demo.plugins
                        demo.base demo.one [demo.member_of_byte "t"%byte] []
                        demo.loaded = (Ok (inr _), _))
      by (vm_compute; reflexivity).
    match type of Hrange with
    | _ = (_, ?st1) =>
        eassert (Hclone : combo.cloneSpec demo.base st1 = (Ok _, _))
          by (vm_compute; reflexivity)
    end.
    destruct (Hloop (combo.mkSpec (map demo.member_of_byte (demo.bytes "t?h")))
                [demo.member_of_byte "t"%byte] (demo.member_of_byte "?"%byte)
                [demo.member_of_byte "h"%byte] _ _ _ _ eq_refl eq_refl Hrange Hclone)
      as [Hlookup _].
    apply (Hlookup None "plugin not found: ?"). reflexivity.
  - destruct (Prepare_fails_fast (H := demo.externals) demo.plugins demo.base
                demo.one (demo.bytes "=txh") demo.loaded eq_refl
                demo_plugins_well_behaved) as [_ Hloop].
    eassert (Hrange : combo.Prepare_range (H := demo.externals) demo.plugins
                        demo.base demo.one [demo.member_of_byte "t"%byte] []
                        demo.loaded = (Ok (inr _), _))
      by (vm_compute; reflexivity).
    match type of Hrange with
    | _ = (_, ?st1) =>
        eassert (Hclone : combo.cloneSpec demo.base st1 = (Ok _, _))
          by (vm_compute; reflexivity)
    end.
    destruct (Hloop (combo.mkSpec (map demo.member_of_byte (demo.bytes "txh")))
                [demo.member_of_byte "t"%byte] (demo.member_of_byte "x"%byte)
                [demo.member_of_byte "h"%byte] _ _ _ _ eq_refl eq_refl Hrange Hclone)
      as [_ Hmember].
    apply (Hmember (demo.failing "x") "x"); reflexivity.
Defined.

(** * Further properties of the combo flavor plugin *)

Lemma mergeSpecs_attachments_in_order_witness :
  exists result st',
    combo.mergeSpecs demo.base [demo.outA; demo.outB; demo.outC] demo.loaded =
      (Ok (result, None), st')
    /\ read_arr (st_heap st') (instance.Attachments result) = ["x"; "x"; "y"; "z"].
Proof.
  destruct (mergeSpecs_attachments_in_order demo.base
              [demo.outA; demo.outB; demo.outC] demo.loaded)
    as (result & st' & Hrun & Hatt).
  - reflexivity.
  - repeat constructor.
  - exists result, st'. split; [exact Hrun|]. rewrite Hatt. reflexivity.
Defined.

(** X2: mergeSpecs never alters the properties and the logical identifier: through
    the merged spec those of the initial spec are read, whatever the member
    outputs hold, and the properties are the very raw message the initial spec
    points to. *)
Theorem mergeSpecs_keeps_properties_and_logicalID
    (initial : instance.Spec) (specs : list instance.Spec) (st : state) :
  spec_wf (st_heap st) initial = true ->
  Forall (fun s => spec_wf (st_heap st) s = true) specs ->
  exists result st',
    combo.mergeSpecs initial specs st = (Ok (result, None), st')
    /\ sv_properties (view (st_heap st') result) =
         sv_properties (view (st_heap st) initial)
    /\ sv_logicalID (view (st_heap st') result) =
         sv_logicalID (view (st_heap st) initial).
Proof.
  intros Hinit Hspecs.
  destruct (mergeSpecs_spec initial specs st Hinit Hspecs)
    as (result & h' & Hrun & _ & _ & _ & Hview).
  exists result, (mkState h' (st_calls st)). split; [exact Hrun|].
  cbn [st_heap]. rewrite Hview. apply merged_properties.
Qed.

Lemma mergeSpecs_keeps_properties_and_logicalID_witness :
  exists result st',
    combo.mergeSpecs demo.base [demo.outA; demo.outB; demo.outC] demo.loaded =
      (Ok (result, None), st')
    /\ sv_properties (view (st_heap st') result) = Some (demo.bytes "{}")
    /\ sv_logicalID (view (st_heap st') result) = Some "10.0.0.1".
Proof.
  destruct (mergeSpecs_keeps_properties_and_logicalID demo.base
              [demo.outA; demo.outB; demo.outC] demo.loaded)
    as (result & st' & Hrun & Hp & Hl).
  - reflexivity.
  - repeat constructor.
  - exists result, st'. split; [exact Hrun|]. rewrite Hp, Hl. split; reflexivity.
Defined.

Lemma mergeSpecs_range_keeps_map (h0 : heap) (specs : list instance.Spec) :
  Forall (fun s => spec_wf h0 s = true) specs ->
  forall (result : instance.Spec) (lt : loc) (st : state),
    heap_extends h0 (st_heap st) ->
    spec_wf (st_heap st) result = true ->
    instance.Tags result = Some lt ->
    length (h_maps h0) <= lt ->
    forall r st',
      combo.mergeSpecs_range result specs st = (Ok r, st') ->
      instance.Tags r = Some lt.
Proof.
  induction 1 as [|spec specs Hspec _ IH];
    intros result lt st Hext Hres Htags Hlt r st' Hrun.
  - simpl in Hrun. unfold ret in Hrun. congruence.
  - destruct (merge_one_spec h0 result spec lt st)
      as (r1 & h1 & Hrun1 & Hext1 & _ & Hwf1 & Htags1 & _); [done..|].
    simpl in Hrun. rewrite (bind_Ok _ _ _ _ _ Hrun1) in Hrun.
    now apply (IH r1 lt (mkState h1 (st_calls st)) Hext1 Hwf1 Htags1 Hlt r st').
Qed.

(** X3: mergeSpecs writes to no object of its arguments and calls no plugin: when
    it returns, the same is read through the initial spec and through every
    spec of the list as before, and the merged spec has a map of its own. *)
Theorem mergeSpecs_leaves_its_arguments
    (initial : instance.Spec) (specs : list instance.Spec) (st : state) :
  spec_wf (st_heap st) initial = true ->
  Forall (fun s => spec_wf (st_heap st) s = true) specs ->
  exists result st',
    combo.mergeSpecs initial specs st = (Ok (result, None), st')
    /\ st_calls st' = st_calls st
    /\ view (st_heap st') initial = view (st_heap st) initial
    /\ Forall (fun s => view (st_heap st') s = view (st_heap st) s) specs
    /\ instance.Tags result <> instance.Tags initial
    /\ Forall (fun s => instance.Tags result <> instance.Tags s) specs.
Proof.
  intros Hinit Hspecs.
  destruct (cloneSpec_spec initial st Hinit)
    as (c & h1 & Hrun1 & Hext1 & Hraws1 & Hfresh & Hwf1 & Hview1).
  destruct Hfresh as ((lt & Htags & Hlt) & _).
  destruct (mergeSpecs_range_spec (st_heap st) specs Hspecs c lt
              (mkState h1 (st_calls st)))
    as (r & h2 & Hrun2 & Hext2 & Hraws2 & Hwf2 & Hview2); [done..|].
  simpl in Hrun2, Hraws2.
  assert (Hkeep : instance.Tags r = Some lt).
  { now apply (mergeSpecs_range_keeps_map (st_heap st) specs Hspecs c lt
                (mkState h1 (st_calls st)) Hext1 Hwf1 Htags Hlt r
                (mkState h2 (st_calls st))). }
  exists r, (mkState h2 (st_calls st)). unfold combo.mergeSpecs.
  rewrite (bind_Ok _ _ _ _ _ Hrun1), (bind_Ok _ _ _ _ _ Hrun2).
  split; [reflexivity|]. split; [reflexivity|]. simpl.
  assert (Hraws : h_raws h2 = h_raws (st_heap st)) by congruence.
  split; [now apply view_extends|].
  split.
  { eapply Forall_impl; [exact Hspecs|]. intros s Hs. now apply view_extends. }
  assert (Hold : forall s, spec_wf (st_heap st) s = true ->
                   instance.Tags r <> instance.Tags s).
  { intros s (_ & Hv & _)%spec_wf_parts Heq. rewrite <- Heq, Hkeep in Hv.
    apply valid_ref_Some in Hv. lia. }
  split; [now apply Hold|].
  eapply Forall_impl; [exact Hspecs|]. exact Hold.
Qed.

Lemma mergeSpecs_leaves_its_arguments_witness :
  exists result st',
    combo.mergeSpecs demo.base [demo.outA; demo.outB] demo.loaded =
      (Ok (result, None), st')
    /\ st_calls st' = []
    /\ view (st_heap st') demo.base = view demo.store demo.base
    /\ Forall (fun s => view (st_heap st') s = view demo.store s)
         [demo.outA; demo.outB]
    /\ instance.Tags result <> Some 2
    /\ Forall (fun s => instance.Tags result <> instance.Tags s)
         [demo.outA; demo.outB].
Proof.
  apply (mergeSpecs_leaves_its_arguments demo.base [demo.outA; demo.outB]
           demo.loaded).
  - reflexivity.
  - repeat constructor.
Defined.

(** X4: cloneSpec copies the tags, the logical identifier and the attachments
    into new objects and shares the properties: the clone points to the raw
    message of the spec, so the same is read through both, and no object that
    existed before the call is written. *)
Theorem cloneSpec_copies_all_but_properties (spec : instance.Spec) (st : state) :
  spec_wf (st_heap st) spec = true ->
  exists c st',
    combo.cloneSpec spec st = (Ok c, st')
    /\ st_calls st' = st_calls st
    /\ view (st_heap st') c = view (st_heap st) spec
    /\ view (st_heap st') spec = view (st_heap st) spec
    /\ fresh (st_heap st) c
    /\ instance.Properties c = instance.Properties spec
    /\ instance.Init c = instance.Init spec
    /\ (is_Some (instance.LogicalID_ c) <-> is_Some (instance.LogicalID_ spec)).
Proof.
  intros Hwf.
  destruct (cloneSpec_spec spec st Hwf)
    as (c & h' & Hrun & Hext & Hraws & Hfresh & Hwfc & Hview).
  destruct (cloneSpec_allocates spec st Hwf) as (c' & st' & Hrun' & _ & _ & Hprops).
  rewrite Hrun in Hrun'. injection Hrun' as <- <-.
  exists c, (mkState h' (st_calls st)). split; [exact Hrun|].
  split; [reflexivity|]. split; [exact Hview|].
  split; [now apply view_extends|]. split; [exact Hfresh|].
  split; [exact Hprops|].
  assert (Hi : sv_init (view h' c) = sv_init (view (st_heap st) spec))
    by now rewrite Hview.
  split; [exact Hi|].
  assert (Hl : sv_logicalID (view h' c) = sv_logicalID (view (st_heap st) spec))
    by now rewrite Hview.
  simpl in Hl. apply spec_wf_parts in Hwf as (_ & _ & Hvs & _).
  apply spec_wf_parts in Hwfc as (_ & _ & Hvc & _).
  destruct (instance.LogicalID_ c) as [lc|], (instance.LogicalID_ spec) as [ls|];
    simpl in Hl; try done.
  - apply valid_ref_Some, lookup_lt_is_Some_2 in Hvc as [x Hx].
    rewrite Hx in Hl. discriminate.
  - apply valid_ref_Some, lookup_lt_is_Some_2 in Hvs as [x Hx].
    rewrite Hx in Hl. discriminate.
Qed.

Lemma cloneSpec_copies_all_but_properties_witness :
  exists c st',
    combo.cloneSpec demo.base demo.loaded = (Ok c, st')
    /\ st_calls st' = []
    /\ view (st_heap st') c = view demo.store demo.base
    /\ view (st_heap st') demo.base = view demo.store demo.base
    /\ fresh demo.store c
    /\ instance.Properties c = Some 0
    /\ instance.Init c = EmptyString
    /\ (is_Some (instance.LogicalID_ c) <-> is_Some (Some 0)).
Proof.
  apply (cloneSpec_copies_all_but_properties demo.base demo.loaded). reflexivity.
Defined.

Section MoreAggregation.
Context `{combo.Externals}.
Variable f : combo.flavorCombo.
Variable inst : instance.Description.

(** X5: Healthy stops at the first member whose lookup fails: it returns Unknown
    with the lookup error, having called the members before it, and not the
    plugin the lookup may have returned with the error; when the lookup
    yields neither a plugin nor an error the call through the nil plugin
    panics.  A payload that does not decode is answered with Unknown and the
    decoder's error, and no member is consulted. *)
Theorem Healthy_stops_at_failed_lookup
    (flavorProperties : RawMessage) (st : state) :
  (forall s e,
      combo.json_Unmarshal flavorProperties = (s, Some e) ->
      combo.Healthy f flavorProperties inst st = (Ok (flavor.Unknown, Some e), st))
  /\ (forall s ms1 m ms2,
        combo.json_Unmarshal flavorProperties = (s, None) ->
        combo.Flavors s = ms1 ++ m :: ms2 ->
        Forall (fun x => member_Healthy f inst x = Some (flavor.Healthy, None)) ms1 ->
        (forall p e,
            combo.flavorPlugins f (types.Plugin m) = (p, Some e) ->
            combo.Healthy f flavorProperties inst st =
              (Ok (flavor.Unknown, Some e), log_calls st (map Healthy_call ms1)))
        /\ (combo.flavorPlugins f (types.Plugin m) = (None, None) ->
            combo.Healthy f flavorProperties inst st =
              (Fault nil_dereference, log_calls st (map Healthy_call ms1)))).
Proof.
  split.
  { intros s e Hdec. unfold combo.Healthy. now rewrite Hdec. }
  intros s ms1 m ms2 Hdec Hms Hpass.
  unfold combo.Healthy. rewrite Hdec, Hms, Healthy_range_passing by done.
  split.
  - intros p e Hlook. simpl. now rewrite Hlook.
  - intros Hlook. simpl. now rewrite Hlook.
Qed.

(** One round of the loop of Drain on a member whose lookup yields a
    plugin. *)
Lemma Drain_range_round (m : types.FlavorPlugin) (rest : list types.FlavorPlugin)
    (errs : list string) (st : state) :
  has_plugin f m = true ->
  combo.Drain_range f inst (m :: rest) errs st =
    combo.Drain_range f inst rest (errs ++ Drain_round f inst m)
      (log_calls st [Drain_call m]).
Proof.
  unfold has_plugin, Drain_round. simpl.
  destruct (combo.flavorPlugins f (types.Plugin m)) as [[p|] err]; [|done].
  intros _. unfold call_Drain, bind, record_call, ret. fold (member_props m).
  destruct err as [e|], (flavor.Plugin.Drain p (member_props m) inst) as [d|];
    simpl; rewrite ?app_nil_r, <- ?app_assoc; reflexivity.
Qed.

Lemma Drain_range_with_plugins (ms : list types.FlavorPlugin) (errs : list string)
    (st : state) :
  Forall (fun m => has_plugin f m = true) ms ->
  combo.Drain_range f inst ms errs st =
    (Ok (errs ++ flat_map (Drain_round f inst) ms),
     log_calls st (map Drain_call ms)).
Proof.
  intros Hall. revert errs st.
  induction Hall as [|m ms Hm _ IH]; intros errs st.
  - simpl. unfold ret. now rewrite app_nil_r, log_calls_nil.
  - rewrite (Drain_range_round _ _ _ _ Hm), IH, log_calls_app, <- app_assoc.
    reflexivity.
Qed.

(** X6: Drain with lookups that all yield a plugin: every member is drained in
    listed order, also a member whose lookup came with an error, and the
    result joins, member by member, the lookup error and then the error of
    Drain; there is no error exactly when there is no such message. *)
Theorem Drain_joins_lookup_and_drain_errors
    (flavorProperties : RawMessage) (s : combo.Spec) (st : state) :
  combo.json_Unmarshal flavorProperties = (s, None) ->
  Forall (fun m => has_plugin f m = true) (combo.Flavors s) ->
  combo.Drain f flavorProperties inst st =
    (Ok match flat_map (Drain_round f inst) (combo.Flavors s) with
        | [] => None
        | msgs => Some (String.concat ", " msgs)
        end,
     log_calls st (map Drain_call (combo.Flavors s))).
Proof.
  intros Hdec Hall. unfold combo.Drain. rewrite Hdec.
  erewrite bind_Ok by (now apply Drain_range_with_plugins).
  simpl. now destruct (flat_map (Drain_round f inst) (combo.Flavors s)).
Qed.

(** X7: Drain panics at the first member whose lookup yields no plugin, with or
    without an error: the members before it have been drained, those behind
    it are not, and what was collected is lost.  A payload that does not
    decode is answered with the decoder's error and no member is drained. *)
Theorem Drain_panics_at_first_missing_plugin
    (flavorProperties : RawMessage) (st : state) :
  (forall s e,
      combo.json_Unmarshal flavorProperties = (s, Some e) ->
      combo.Drain f flavorProperties inst st = (Ok (Some e), st))
  /\ (forall s ms1 m ms2,
        combo.json_Unmarshal flavorProperties = (s, None) ->
        combo.Flavors s = ms1 ++ m :: ms2 ->
        Forall (fun x => has_plugin f x = true) ms1 ->
        has_plugin f m = false ->
        combo.Drain f flavorProperties inst st =
          (Fault nil_dereference, log_calls st (map Drain_call ms1))).
Proof.
  split.
  { intros s e Hdec. unfold combo.Drain. now rewrite Hdec. }
  intros s ms1 m ms2 Hdec Hms Hall Hm.
  unfold combo.Drain. rewrite Hdec, Hms.
  assert (Hrun : forall errs st0,
            combo.Drain_range f inst (ms1 ++ m :: ms2) errs st0 =
              (Fault nil_dereference, log_calls st0 (map Drain_call ms1))).
  { clear -Hall Hm. induction Hall as [|x ms1 Hx _ IH]; intros errs st0.
    - simpl. unfold has_plugin in Hm.
      destruct (combo.flavorPlugins f (types.Plugin m)) as [[p|] err]; [done|].
      now rewrite log_calls_nil.
    - rewrite <- app_comm_cons, (Drain_range_round _ _ _ _ Hx), IH, log_calls_app.
      reflexivity. }
  now rewrite (bind_Fault _ _ _ _ _ (Hrun _ _)).
Qed.

End MoreAggregation.

Lemma Healthy_stops_at_failed_lookup_witness :
  combo.Healthy (H := demo.externals) demo.plugins (demo.bytes "=h?u")
    demo.machine demo.start =
    (Ok (flavor.Unknown, Some "plugin not found: ?"),
     log_calls demo.start [CallHealthy "h" []]).
Proof.
  destruct (Healthy_stops_at_failed_lookup (H := demo.externals) demo.plugins
              demo.machine (demo.bytes "=h?u") demo.start) as (_ & Hfail).
  destruct (Hfail (combo.mkSpec (map demo.member_of_byte (demo.bytes "h?u")))
              [demo.member_of_byte "h"%byte] (demo.member_of_byte "?"%byte)
              [demo.member_of_byte "u"%byte] eq_refl eq_refl) as (Herr & _).
  - repeat constructor.
  - apply (Herr None). reflexivity.
Defined.

Lemma Drain_joins_lookup_and_drain_errors_witness :
  combo.Drain (H := demo.externals) demo2.stale (demo.bytes "=hxy")
    demo.machine demo.start =
    (Ok (Some "stale entry: x, x, stale entry: y, y"),
     log_calls demo.start [CallDrain "h" []; CallDrain "x" []; CallDrain "y" []]).
Proof.
  apply (Drain_joins_lookup_and_drain_errors (H := demo.externals) demo2.stale
           demo.machine (demo.bytes "=hxy") _ demo.start eq_refl).
  repeat constructor.
Defined.

Lemma Drain_panics_at_first_missing_plugin_witness :
  combo.Drain (H := demo.externals) demo.plugins (demo.bytes "=xh?y")
    demo.machine demo.start =
    (Fault nil_dereference,
     log_calls demo.start [CallDrain "x" []; CallDrain "h" []]).
Proof.
  destruct (Drain_panics_at_first_missing_plugin (H := demo.externals)
              demo.plugins demo.machine (demo.bytes "=xh?y") demo.start)
    as (_ & Hpanic).
  apply (Hpanic (combo.mkSpec (map demo.member_of_byte (demo.bytes "xh?y")))
           [demo.member_of_byte "x"%byte; demo.member_of_byte "h"%byte]
           (demo.member_of_byte "?"%byte) [demo.member_of_byte "y"%byte]
           eq_refl eq_refl).
  - repeat constructor.
  - reflexivity.
Defined.

Section MorePreparing.
Context `{combo.Externals}.
Variable f : combo.flavorCombo.
Variable inst : instance.Spec.
Variable allocation : types.AllocationMethod.
Variable h0 : heap.
Variable calls0 : list call.
Hypothesis inst_wf : spec_wf h0 inst = true.
Hypothesis plugins_well_behaved : all_well_behaved f.

(** The loop of Prepare does not panic when every lookup answers. *)
Lemma Prepare_range_returns (ms : list types.FlavorPlugin) :
  Forall (fun m => answers f m = true) ms ->
  forall (specs : list instance.Spec) (st : state),
    Prepare_inv h0 inst calls0 st ->
    Forall (fun s => spec_wf (st_heap st) s = true) specs ->
    exists r st', combo.Prepare_range f inst allocation ms specs st = (Ok r, st').
Proof.
  induction 1 as [|m ms Hm _ IH]; intros specs st Hinv Hspecs.
  - by eexists _, _.
  - pose proof Hinv as (Hext0 & _).
    assert (Hwf : spec_wf (st_heap st) inst = true).
    { eapply spec_wf_le; [apply heap_extends_le, Hext0 | exact inst_wf]. }
    destruct (cloneSpec_spec inst st Hwf)
      as (c & h1 & Hrun1 & Hext1 & Hraws1 & Hfresh & Hwfc & Hview).
    simpl combo.Prepare_range. rewrite (bind_Ok _ _ _ _ _ Hrun1).
    unfold answers in Hm.
    destruct (combo.flavorPlugins f (types.Plugin m)) as [[p|] [e|]] eqn:Hlook;
      try discriminate; try (by eexists _, _).
    rewrite (bind_Ok _ _ _ _ _ (call_Prepare_Some _ _ _ _ _ _)). simpl.
    destruct (Prepare_inv_call h0 inst calls0 st h1 c p (types.Plugin m)
                (combo.types_RawMessage (types.Properties m)) allocation)
      as (Hinv2 & Hle2 & Hout); try done.
    { eapply plugins_well_behaved, Hlook. }
    destruct (flavor.Plugin.Prepare p
                (combo.types_RawMessage (types.Properties m)) c allocation h1)
      as [[out [e|]] h2] eqn:Hp; simpl in *; [by eexists _, _|].
    apply IH; [exact Hinv2|]. simpl.
    apply Forall_app. split; [|by constructor].
    eapply Forall_impl; [exact Hspecs|]. intros s. now apply spec_wf_le.
Qed.

(** The loop of Prepare runs to its end, with one output per member, when no
    member fails. *)
Lemma Prepare_range_completes (ms : list types.FlavorPlugin) :
  Forall (never_fails f) ms ->
  forall (specs : list instance.Spec) (st : state),
    Prepare_inv h0 inst calls0 st ->
    Forall (fun s => spec_wf (st_heap st) s = true) specs ->
    exists specs' st',
      combo.Prepare_range f inst allocation ms specs st = (Ok (inr specs'), st')
      /\ length specs' = length specs + length ms.
Proof.
  induction 1 as [|m ms (p & Hlook & Hok) _ IH]; intros specs st Hinv Hspecs.
  - exists specs, st. split; [reflexivity | simpl; lia].
  - pose proof Hinv as (Hext0 & _).
    assert (Hwf : spec_wf (st_heap st) inst = true).
    { eapply spec_wf_le; [apply heap_extends_le, Hext0 | exact inst_wf]. }
    destruct (cloneSpec_spec inst st Hwf)
      as (c & h1 & Hrun1 & Hext1 & Hraws1 & Hfresh & Hwfc & Hview).
    simpl combo.Prepare_range. rewrite (bind_Ok _ _ _ _ _ Hrun1), Hlook.
    rewrite (bind_Ok _ _ _ _ _ (call_Prepare_Some _ _ _ _ _ _)). simpl.
    destruct (Prepare_inv_call h0 inst calls0 st h1 c p (types.Plugin m)
                (combo.types_RawMessage (types.Properties m)) allocation)
      as (Hinv2 & Hle2 & Hout); try done.
    { eapply plugins_well_behaved, Hlook. }
    specialize (Hok (combo.types_RawMessage (types.Properties m)) c allocation h1).
    destruct (flavor.Plugin.Prepare p
                (combo.types_RawMessage (types.Properties m)) c allocation h1)
      as [[out err] h2] eqn:Hp; simpl in *. subst err.
    destruct (IH (specs ++ [out])
                (mkState h2 (st_calls st ++
                   [CallPrepare (types.Plugin m)
                      (combo.types_RawMessage (types.Properties m)) c (view h1 c)])))
      as (specs' & st' & Hrun & Hlen).
    + exact Hinv2.
    + simpl. apply Forall_app. split; [|by constructor].
      eapply Forall_impl; [exact Hspecs|]. intros s. now apply spec_wf_le.
    + exists specs', st'. split; [exact Hrun|].
      rewrite Hlen, length_app. simpl. lia.
Qed.

End MorePreparing.

Section MorePrepare.
Context `{combo.Externals}.
Variable f : combo.flavorCombo.
Variable inst : instance.Spec.
Variable allocation : types.AllocationMethod.

(** What the loop of Prepare has collected when it runs to its end are the
    outputs of the members, in listed order, behind what it started with. *)
Lemma Prepare_range_collects (ms : list types.FlavorPlugin) :
  forall (specs specs' : list instance.Spec) (st st' : state),
    combo.Prepare_range f inst allocation ms specs st = (Ok (inr specs'), st') ->
    exists outs,
      specs' = specs ++ outs /\ collects f inst allocation ms st outs st'.
Proof.
  induction ms as [|m ms IH]; intros specs specs' st st'.
  - intros [= <- <-]. exists []. rewrite app_nil_r. split; [done | constructor].
  - simpl combo.Prepare_range. unfold bind at 1.
    destruct (combo.cloneSpec inst st) as [[c|?] st1] eqn:Hclone; [|discriminate].
    destruct (combo.flavorPlugins f (types.Plugin m)) as [[p|] [e|]] eqn:Hlook;
      try discriminate.
    rewrite (bind_Ok _ _ _ _ _ (call_Prepare_Some _ _ _ _ _ _)).
    destruct (flavor.Plugin.Prepare p
                (combo.types_RawMessage (types.Properties m)) c allocation
                (st_heap st1)) as [[out [e|]] h2] eqn:Hp; simpl; [discriminate|].
    intros Hrest. apply IH in Hrest as (outs & -> & Hcollects).
    exists (out :: outs). rewrite <- app_assoc. split; [done|].
    econstructor; eassumption.
Qed.

(** X8: Prepare with members that all resolve and never fail: every member is
    called once, in listed order, each on a clone of the original spec; the
    loop collects the outputs the members' plugins return, one per member
    and in listed order; and the result is the merge of these outputs, as
    they are read when the loop ends, onto the original spec, whose tags,
    init, logical identifier and attachments are then still those of the
    time of the call. *)
Theorem Prepare_merges_member_outputs
    (flavorProperties : RawMessage) (s : combo.Spec) (st : state) :
  spec_wf (st_heap st) inst = true ->
  all_well_behaved f ->
  combo.json_Unmarshal flavorProperties = (s, None) ->
  Forall (never_fails f) (combo.Flavors s) ->
  exists specs st1 result st2,
    combo.Prepare_range f inst allocation (combo.Flavors s) [] st =
      (Ok (inr specs), st1)
    /\ collects f inst allocation (combo.Flavors s) st specs st1
    /\ length specs = length (combo.Flavors s)
    /\ combo.Prepare f flavorProperties inst allocation st = (Ok (result, None), st2)
    /\ st_calls st2 = st_calls st1
    /\ (exists evs, st_calls st1 = st_calls st ++ evs
                    /\ map call_name evs = map types.Plugin (combo.Flavors s))
    /\ view (st_heap st2) result =
         fold_left merge_view (map (view (st_heap st1)) specs)
           (view (st_heap st1) inst)
    /\ isolated (view (st_heap st1) inst) = isolated (view (st_heap st) inst).
Proof.
  intros Hwf Hf Hdec Hall.
  destruct (Prepare_range_completes f inst allocation (st_heap st) (st_calls st)
              Hwf Hf (combo.Flavors s) Hall [] st (Prepare_inv_start inst st)
              (Forall_nil_2 _)) as (specs & st1 & Hloop & Hlen).
  destruct (Prepare_range_inv f inst allocation (st_heap st) (st_calls st) Hwf Hf
              (combo.Flavors s) [] st (Prepare_inv_start inst st) (Forall_nil_2 _))
    as ((Hext & _) & Hle & (evs & Hcalls & Hnames) & Hres).
  rewrite Hloop in Hext, Hle, Hcalls, Hnames, Hres.
  simpl in Hext, Hle, Hcalls, Hnames, Hres.
  destruct (mergeSpecs_spec inst specs st1) as (r & h2 & Hrun & _ & _ & _ & Hview);
    [now apply (spec_wf_le (st_heap st)) | exact Hres |].
  exists specs, st1, r, (mkState h2 (st_calls st1)).
  split; [exact Hloop|].
  split.
  { destruct (Prepare_range_collects _ _ _ _ _ Hloop) as (outs & -> & Hcollects).
    exact Hcollects. }
  split; [exact Hlen|].
  split.
  { unfold combo.Prepare. rewrite Hdec, (bind_Ok _ _ _ _ _ Hloop). exact Hrun. }
  split; [reflexivity|].
  split; [exists evs; split; [exact Hcalls | now apply (Hnames specs)]|].
  split; [exact Hview|]. now apply isolated_view_extends.
Qed.

(** X9: Prepare returns, with a spec or an error, unless a lookup yields neither a
    plugin nor an error; at the first member with such a lookup it panics in
    the call through the nil plugin, after the calls to the members before
    it. *)
Theorem Prepare_panics_only_on_nil_lookup
    (flavorProperties : RawMessage) (st : state) :
  spec_wf (st_heap st) inst = true ->
  all_well_behaved f ->
  (Forall (fun m => answers f m = true)
     (combo.Flavors (combo.json_Unmarshal flavorProperties).1) ->
   exists r st',
     combo.Prepare f flavorProperties inst allocation st = (Ok r, st'))
  /\ (forall s ms1 m ms2 specs st1,
        combo.json_Unmarshal flavorProperties = (s, None) ->
        combo.Flavors s = ms1 ++ m :: ms2 ->
        combo.Prepare_range f inst allocation ms1 [] st = (Ok (inr specs), st1) ->
        answers f m = false ->
        exists st2,
          combo.Prepare f flavorProperties inst allocation st =
            (Fault nil_dereference, st2)
          /\ st_calls st2 = st_calls st1).
Proof.
  intros Hwf Hf. split.
  - intros Hall. unfold combo.Prepare.
    destruct (combo.json_Unmarshal flavorProperties) as [s [e|]];
      [by eexists _, _|]. simpl in Hall.
    destruct (Prepare_range_returns f inst allocation (st_heap st) (st_calls st)
                Hwf Hf (combo.Flavors s) Hall [] st (Prepare_inv_start inst st)
                (Forall_nil_2 _)) as (r & st1 & Hloop).
    rewrite (bind_Ok _ _ _ _ _ Hloop).
    destruct r as [early|specs]; [by eexists _, _|].
    destruct (Prepare_range_inv f inst allocation (st_heap st) (st_calls st) Hwf Hf
                (combo.Flavors s) [] st (Prepare_inv_start inst st) (Forall_nil_2 _))
      as (_ & Hle & _ & Hres).
    rewrite Hloop in Hle, Hres. simpl in Hle, Hres.
    destruct (mergeSpecs_spec inst specs st1) as (r & h2 & Hrun & _);
      [now apply (spec_wf_le (st_heap st)) | exact Hres |].
    by eexists _, _.
  - intros s ms1 m ms2 specs st1 Hdec Hms Hloop Hm.
    destruct (Prepare_range_inv f inst allocation (st_heap st) (st_calls st) Hwf Hf
                ms1 [] st (Prepare_inv_start inst st) (Forall_nil_2 _))
      as (_ & Hle & _ & _).
    rewrite Hloop in Hle. simpl in Hle.
    destruct (cloneSpec_spec inst st1) as (c & h1 & Hrun1 & _);
      [now apply (spec_wf_le (st_heap st))|].
    exists (mkState h1 (st_calls st1)). split; [|reflexivity].
    unfold combo.Prepare. rewrite Hdec, Hms. unfold bind at 1.
    rewrite Prepare_range_app, Hloop. simpl.
    rewrite (bind_Ok _ _ _ _ _ Hrun1). unfold answers in Hm.
    destruct (combo.flavorPlugins f (types.Plugin m)) as [[p|] [e|]];
      try discriminate. reflexivity.
Qed.

End MorePrepare.

Lemma demo_stale_well_behaved : all_well_behaved demo2.stale.
Proof.
  intros name p e Hlook. unfold demo2.stale in Hlook. simpl in Hlook.
  repeat case_decide; simplify_eq;
    apply returns_input_well_behaved; intros; split; reflexivity.
Qed.

Lemma Prepare_merges_member_outputs_witness :
  exists specs st1 result st2,
    combo.Prepare_range (H := demo.externals) demo.plugins demo.base demo.one
      (map demo.member_of_byte (demo.bytes "th")) [] demo.loaded =
      (Ok (inr specs), st1)
    /\ collects (H := demo.externals) demo.plugins demo.base demo.one
         (map demo.member_of_byte (demo.bytes "th")) demo.loaded specs st1
    /\ length specs = 2
    /\ combo.Prepare (H := demo.externals) demo.plugins (demo.bytes "=th")
         demo.base demo.one demo.loaded = (Ok (result, None), st2)
    /\ st_calls st2 = st_calls st1
    /\ (exists evs, st_calls st1 = [] ++ evs /\ map call_name evs = ["t"; "h"])
    /\ view (st_heap st2) result =
         fold_left merge_view (map (view (st_heap st1)) specs)
           (view (st_heap st1) demo.base)
    /\ isolated (view (st_heap st1) demo.base) =
       isolated (view demo.store demo.base).
Proof.
  apply (Prepare_merges_member_outputs (H := demo.externals) demo.plugins
           demo.base demo.one (demo.bytes "=th") _ demo.loaded eq_refl
           demo_plugins_well_behaved eq_refl).
  repeat constructor.
  - exists demo.tagger. split; [reflexivity | intros; reflexivity].
  - exists (demo.steady flavor.Healthy). split; [reflexivity | intros; reflexivity].
Defined.

Lemma Prepare_panics_only_on_nil_lookup_witness :
  (exists r st',
     combo.Prepare (H := demo.externals) demo.plugins (demo.bytes "=t?h")
       demo.base demo.one demo.loaded = (Ok r, st'))
  /\ (exists st2,
        combo.Prepare (H := demo.externals) demo2.stale (demo.bytes "=h?h")
          demo.base demo.one demo.loaded = (Fault nil_dereference, st2)
        /\ map call_name (st_calls st2) = ["h"]).
Proof.
  split.
  - apply (Prepare_panics_only_on_nil_lookup (H := demo.externals) demo.plugins
             demo.base demo.one (demo.bytes "=t?h") demo.loaded eq_refl
             demo_plugins_well_behaved).
    repeat constructor.
  - destruct (Prepare_panics_only_on_nil_lookup (H := demo.externals) demo2.stale
                demo.base demo.one (demo.bytes "=h?h") demo.loaded eq_refl
                demo_stale_well_behaved) as (_ & Hpanic).
    eassert (Hrange : combo.Prepare_range (H := demo.externals) demo2.stale
                        demo.base demo.one [demo.member_of_byte "h"%byte] []
                        demo.loaded = (Ok (inr _), _))
      by (vm_compute; reflexivity).
    destruct (Hpanic (combo.mkSpec (map demo.member_of_byte (demo.bytes "h?h")))
                [demo.member_of_byte "h"%byte] (demo.member_of_byte "?"%byte)
                [demo.member_of_byte "h"%byte] _ _ eq_refl eq_refl Hrange eq_refl)
      as (st2 & Hrun & Hcalls).
    exists st2. split; [exact Hrun|]. rewrite Hcalls. reflexivity.
Defined.

(** * Further properties of the RPC flavor service *)

(** X10: Every handler that returns has copied the type of the request into its
    response, whether it returns an error or not.  Validate and Prepare
    always return; Healthy and Drain return unless the type resolves to a
    plugin and the request has nil properties. *)
Theorem handlers_echo_the_type
    (p : rpc.Flavor) (st : state)
    (vreq : rpc.ValidateRequest.t) (vresp : rpc.ValidateResponse.t)
    (preq : rpc.PrepareRequest.t) (presp : rpc.PrepareResponse.t)
    (hreq : rpc.HealthyRequest.t) (hresp : rpc.HealthyResponse.t)
    (dreq : rpc.DrainRequest.t) (dresp : rpc.DrainResponse.t) :
  match (rpc.Validate p vreq vresp st).1 with
  | Ok (r, _) => rpc.ValidateResponse.Type_ r = rpc.ValidateRequest.Type_ vreq
  | Fault _ => False
  end
  /\ match (rpc.Prepare p preq presp st).1 with
     | Ok (r, _) => rpc.PrepareResponse.Type_ r = rpc.PrepareRequest.Type_ preq
     | Fault _ => False
     end
  /\ match (rpc.Healthy p hreq hresp st).1 with
     | Ok (r, _) => rpc.HealthyResponse.Type_ r = rpc.HealthyRequest.Type_ hreq
     | Fault _ =>
         rpc.HealthyRequest.Properties hreq = None
         /\ is_Some (rpc.getPlugin p (rpc.HealthyRequest.Type_ hreq))
     end
  /\ match (rpc.Drain p dreq dresp st).1 with
     | Ok (r, _) => rpc.DrainResponse.Type_ r = rpc.DrainRequest.Type_ dreq
     | Fault _ =>
         rpc.DrainRequest.Properties dreq = None
         /\ is_Some (rpc.getPlugin p (rpc.DrainRequest.Type_ dreq))
     end.
Proof.
  repeat split.
  - unfold rpc.Validate.
    destruct (rpc.getPlugin p _) as [c|]; [|reflexivity].
    unfold call_Validate, bind, record_call, ret. simpl.
    now destruct (flavor.Plugin.Validate c _ _).
  - unfold rpc.Prepare.
    destruct (rpc.getPlugin p _) as [c|]; [|reflexivity].
    rewrite (bind_Ok _ _ _ _ _ (call_Prepare_Some _ _ _ _ _ _)).
    now destruct (flavor.Plugin.Prepare c _ _ _ _).1 as [out [e|]].
  - unfold rpc.Healthy.
    destruct (rpc.getPlugin p _) as [c|]; [|reflexivity].
    destruct (rpc.HealthyRequest.Properties hreq) as [props|]; simpl; [|by eauto].
    unfold call_Healthy, bind, record_call, ret. simpl.
    now destruct (flavor.Plugin.Healthy c _ _) as [health [e|]].
  - unfold rpc.Drain.
    destruct (rpc.getPlugin p _) as [c|]; [|reflexivity].
    destruct (rpc.DrainRequest.Properties dreq) as [props|]; simpl; [|by eauto].
    unfold call_Drain, bind, record_call, ret. simpl.
    now destruct (flavor.Plugin.Drain c _ _).
Qed.

(** X11: Validate and Drain, called with a response whose OK is unset, set OK
    exactly when they return no error. *)
Theorem Validate_and_Drain_set_OK_on_success
    (p : rpc.Flavor) (st : state)
    (vreq : rpc.ValidateRequest.t) (vresp : rpc.ValidateResponse.t)
    (dreq : rpc.DrainRequest.t) (dresp : rpc.DrainResponse.t) :
  rpc.ValidateResponse.OK vresp = false ->
  rpc.DrainResponse.OK dresp = false ->
  match (rpc.Validate p vreq vresp st).1 with
  | Ok (r, e) => rpc.ValidateResponse.OK r = true <-> e = None
  | Fault _ => True
  end
  /\ match (rpc.Drain p dreq dresp st).1 with
     | Ok (r, e) => rpc.DrainResponse.OK r = true <-> e = None
     | Fault _ => True
     end.
Proof.
  intros Hv Hd. split.
  - unfold rpc.Validate.
    destruct (rpc.getPlugin p _) as [c|]; simpl; [|by rewrite Hv].
    unfold call_Validate, bind, record_call, ret. simpl.
    destruct (flavor.Plugin.Validate c _ _); simpl; [by rewrite Hv | done].
  - unfold rpc.Drain.
    destruct (rpc.getPlugin p _) as [c|]; simpl; [|by rewrite Hd].
    destruct (rpc.DrainRequest.Properties dreq) as [props|]; simpl; [|done].
    unfold call_Drain, bind, record_call, ret. simpl.
    destruct (flavor.Plugin.Drain c _ _); simpl; [by rewrite Hd | done].
Qed.

Lemma Validate_and_Drain_set_OK_on_success_witness :
  match (rpc.Validate (rpc.PluginServer (Some (demo.failing "bad")))
           (rpc.ValidateRequest.mk EmptyString None demo.one)
           (rpc.ValidateResponse.mk EmptyString false) demo.start).1 with
  | Ok (r, e) => rpc.ValidateResponse.OK r = true <-> e = None
  | Fault _ => True
  end
  /\ match (rpc.Drain (rpc.PluginServer (Some (demo.failing "bad")))
              (rpc.DrainRequest.mk EmptyString (Some []) demo.machine)
              (rpc.DrainResponse.mk "old" false) demo.start).1 with
     | Ok (r, e) => rpc.DrainResponse.OK r = true <-> e = None
     | Fault _ => True
     end.
Proof.
  apply (Validate_and_Drain_set_OK_on_success
           (rpc.PluginServer (Some (demo.failing "bad"))) demo.start
           (rpc.ValidateRequest.mk EmptyString None demo.one)
           (rpc.ValidateResponse.mk EmptyString false)
           (rpc.DrainRequest.mk EmptyString (Some []) demo.machine)
           (rpc.DrainResponse.mk "old" false)); reflexivity.
Defined.

(** X12: Healthy and Prepare put the plugin's answer into the response only when
    the plugin returns no error: then the response holds the health (the
    spec) the plugin returned, and the plugin has been called once with the
    payload of the request; when they return an error the health (the spec)
    of the response is as it was. *)
Theorem Healthy_and_Prepare_answer_only_on_success
    (p : rpc.Flavor) (st : state)
    (hreq : rpc.HealthyRequest.t) (hresp : rpc.HealthyResponse.t)
    (preq : rpc.PrepareRequest.t) (presp : rpc.PrepareResponse.t) :
  match rpc.Healthy p hreq hresp st with
  | (Ok (r, Some _), _) =>
      rpc.HealthyResponse.Health r = rpc.HealthyResponse.Health hresp
  | (Ok (r, None), st') =>
      exists c props,
        rpc.getPlugin p (rpc.HealthyRequest.Type_ hreq) = Some c
        /\ rpc.HealthyRequest.Properties hreq = Some props
        /\ flavor.Plugin.Healthy c props (rpc.HealthyRequest.Instance hreq) =
             (rpc.HealthyResponse.Health r, None)
        /\ st' = log_calls st [CallHealthy (rpc.HealthyRequest.Type_ hreq) props]
  | (Fault _, _) => True
  end
  /\ match rpc.Prepare p preq presp st with
     | (Ok (r, Some _), _) =>
         rpc.PrepareResponse.Spec r = rpc.PrepareResponse.Spec presp
     | (Ok (r, None), st') =>
         exists c,
           rpc.getPlugin p (rpc.PrepareRequest.Type_ preq) = Some c
           /\ (flavor.Plugin.Prepare c
                 (default [] (rpc.PrepareRequest.Properties preq))
                 (rpc.PrepareRequest.Spec preq) (rpc.PrepareRequest.Allocation preq)
                 (st_heap st)).1 = (rpc.PrepareResponse.Spec r, None)
           /\ map call_name (st_calls st') =
                map call_name (st_calls st) ++ [rpc.PrepareRequest.Type_ preq]
     | (Fault _, _) => True
     end.
Proof.
  split.
  - unfold rpc.Healthy.
    destruct (rpc.getPlugin p _) as [c|]; [|reflexivity].
    destruct (rpc.HealthyRequest.Properties hreq) as [props|]; simpl; [|done].
    unfold call_Healthy, bind, record_call, ret. simpl.
    destruct (flavor.Plugin.Healthy c _ _) as [health [e|]] eqn:Hh; [reflexivity|].
    exists c, props. by repeat split.
  - unfold rpc.Prepare.
    destruct (rpc.getPlugin p _) as [c|]; [|reflexivity].
    rewrite (bind_Ok _ _ _ _ _ (call_Prepare_Some _ _ _ _ _ _)).
    assert (Hraw : match rpc.PrepareRequest.Properties preq with
                   | Some r => r
                   | None => []
                   end = default [] (rpc.PrepareRequest.Properties preq))
      by now destruct (rpc.PrepareRequest.Properties preq).
    rewrite Hraw.
    destruct (flavor.Plugin.Prepare c _ _ _ _).1 as [out [e|]] eqn:Hp;
      [reflexivity|].
    exists c. split; [reflexivity|]. split; [exact Hp|].
    simpl. now rewrite map_app.
Qed.

(** X13: A non-empty type is looked up in the registry and nowhere else: it
    resolves to the plugin registered under it, whatever the default plugin
    is; a type registered with a nil plugin, or not registered, resolves to
    nothing; and the empty type resolves to the default plugin even when the
    registry has an entry under the empty name. *)
Theorem getPlugin_looks_up_the_registry
    (dflt : option flavor.Plugin.t)
    (typed : gmap string (option flavor.Plugin.t))
    (tag : string) (q : flavor.Plugin.t) :
  tag <> EmptyString ->
  rpc.getPlugin (rpc.mkFlavor dflt (Some typed)) tag = typed !! tag ≫= id
  /\ rpc.getPlugin (rpc.mkFlavor dflt (Some (<[tag := Some q]> typed))) tag = Some q
  /\ rpc.getPlugin (rpc.mkFlavor dflt (Some (<[tag := None]> typed))) tag = None
  /\ rpc.getPlugin (rpc.mkFlavor dflt (Some (delete tag typed))) tag = None
  /\ rpc.getPlugin (rpc.mkFlavor dflt (Some (<[EmptyString := Some q]> typed)))
       EmptyString = dflt.
Proof.
  intros Hne. rewrite !getPlugin_typed by done. simpl.
  rewrite !lookup_insert_eq, lookup_delete_eq. by repeat split.
Qed.

Lemma getPlugin_looks_up_the_registry_witness :
  rpc.getPlugin
    (rpc.mkFlavor (Some (demo.failing "default"))
       (Some {[ "swarm" := Some (demo.steady flavor.Healthy) ]})) "swarm" =
    Some (demo.steady flavor.Healthy)
  /\ rpc.getPlugin
       (rpc.mkFlavor (Some (demo.failing "default"))
          (Some {[ EmptyString := Some (demo.steady flavor.Healthy) ]}))
       EmptyString = Some (demo.failing "default").
Proof.
  destruct (getPlugin_looks_up_the_registry (Some (demo.failing "default")) ∅
              "swarm" (demo.steady flavor.Healthy)) as (_ & Hreg & _ & _ & Hempty).
  - discriminate.
  - split; [exact Hreg | exact Hempty].
Defined.

Section Examples.
Context `{rpcx.Assertions}.

(** X14: SetExampleProperties puts the example of the default plugin, when
    there is one, into the Properties of a Prepare, Healthy or Drain request
    and changes nothing else: the request is of the same type as before, and
    its Type, Spec and Allocation, or Type and Instance, are those it had; a
    Validate request, and a request of any kind when exampleProperties yields
    nil, is left as it is; a second call changes nothing more.  A server
    built from a registry of typed plugins has no vendor information and no
    example, whatever its plugins implement. *)
Theorem SetExampleProperties_sets_the_example
    (p : rpc.Flavor) (req : rpcx.request)
    (typed : option (gmap string (option flavor.Plugin.t))) :
  rpcx.request_Properties (rpcx.SetExampleProperties p req) =
    (if rpcx.takes_example req
     then match rpcx.exampleProperties p with
          | Some example => Some example
          | None => rpcx.request_Properties req
          end
     else rpcx.request_Properties req)
  /\ rpcx.takes_example (rpcx.SetExampleProperties p req) = rpcx.takes_example req
  /\ rpcx.SetExampleProperties p (rpcx.SetExampleProperties p req) =
     rpcx.SetExampleProperties p req
  /\ match req, rpcx.SetExampleProperties p req with
     | rpcx.PrepareRequestPtr r, rpcx.PrepareRequestPtr r' =>
         rpc.PrepareRequest.Type_ r' = rpc.PrepareRequest.Type_ r
         /\ rpc.PrepareRequest.Spec r' = rpc.PrepareRequest.Spec r
         /\ rpc.PrepareRequest.Allocation r' = rpc.PrepareRequest.Allocation r
     | rpcx.HealthyRequestPtr r, rpcx.HealthyRequestPtr r' =>
         rpc.HealthyRequest.Type_ r' = rpc.HealthyRequest.Type_ r
         /\ rpc.HealthyRequest.Instance r' = rpc.HealthyRequest.Instance r
     | rpcx.DrainRequestPtr r, rpcx.DrainRequestPtr r' =>
         rpc.DrainRequest.Type_ r' = rpc.DrainRequest.Type_ r
         /\ rpc.DrainRequest.Instance r' = rpc.DrainRequest.Instance r
     | rpcx.ValidateRequestPtr r, rpcx.ValidateRequestPtr r' => r' = r
     | rpcx.OtherValue, rpcx.OtherValue => True
     | _, _ => False
     end
  /\ (rpcx.takes_example req && bool_decide (is_Some (rpcx.exampleProperties p))
      = false ->
      rpcx.SetExampleProperties p req = req)
  /\ rpcx.SetExampleProperties (rpc.PluginServerWithTypes typed) req = req
  /\ rpcx.exampleProperties (rpc.PluginServerWithTypes typed) = None
  /\ rpcx.VendorInfo (rpc.PluginServerWithTypes typed) = None.
Proof.
  unfold rpcx.SetExampleProperties, rpcx.exampleProperties, rpcx.VendorInfo.
  simpl. destruct (rpc.plugin p) as [c|]; simpl.
  - destruct (rpcx.as_InputExample c) as [[example|]|]; simpl;
      destruct req; simpl; repeat split; try rewrite andb_false_r; done.
  - destruct req; simpl; repeat split; done.
Qed.

End Examples.

(** * Template functions *)

Lemma Split_newline_nonempty (s : string) : template.strings_Split_newline s <> [].
Proof.
  destruct s as [|c s]; simpl; [done|]. case_decide; [done|].
  now destruct (template.strings_Split_newline s).
Qed.

Lemma concat_String (sep : string) (c : ascii) (x : string) (l : list string) :
  String.concat sep (String c x :: l) = String c (String.concat sep (x :: l)).
Proof. now destruct l. Qed.

Lemma concat_empty_head (l : list string) :
  l <> [] ->
  String.concat newline (EmptyString :: l) =
    String template.newline_char (String.concat newline l).
Proof. now destruct l. Qed.

Lemma Join_Split_newline (s : string) :
  String.concat newline (template.strings_Split_newline s) = s.
Proof.
  induction s as [|c s IH]; [reflexivity|]. simpl.
  destruct (decide (c = template.newline_char)) as [->|Hc].
  - rewrite concat_empty_head by apply Split_newline_nonempty. now rewrite IH.
  - pose proof (Split_newline_nonempty s) as Hne.
    destruct (template.strings_Split_newline s) as [|line lines]; [done|].
    now rewrite concat_String, IH.
Qed.

Lemma Split_newline_one_line (s : string) :
  Forall template.one_line (template.strings_Split_newline s).
Proof.
  induction s as [|c s IH]; simpl.
  - constructor; [|constructor]. unfold template.one_line. simpl.
    apply not_elem_of_nil.
  - destruct (decide (c = template.newline_char)) as [->|Hc].
    + constructor; [|exact IH]. unfold template.one_line. simpl.
      apply not_elem_of_nil.
    + pose proof (Split_newline_nonempty s) as Hne.
      destruct (template.strings_Split_newline s) as [|line lines]; [done|].
      apply Forall_cons in IH as [Hline Hlines]. constructor; [|exact Hlines].
      unfold template.one_line in *. simpl.
      intros [?|?]%elem_of_cons; congruence.
Qed.

Lemma Split_String_newline (s : string) :
  template.strings_Split_newline (String template.newline_char s) =
    EmptyString :: template.strings_Split_newline s.
Proof. reflexivity. Qed.

Lemma Split_String_other (c : ascii) (s : string) :
  c <> template.newline_char ->
  template.strings_Split_newline (String c s) =
    match template.strings_Split_newline s with
    | line :: lines => String c line :: lines
    | [] => [String c EmptyString]
    end.
Proof. intros Hc. simpl. now rewrite decide_False. Qed.

Lemma Split_Join_newline (lines : list string) :
  lines <> [] -> Forall template.one_line lines ->
  template.strings_Split_newline (String.concat newline lines) = lines.
Proof.
  induction lines as [|x lines IH]; [done|]. intros _ Hall.
  apply Forall_cons in Hall as [Hx Hlines].
  induction x as [|c x IHx].
  - destruct lines as [|y lines]; [reflexivity|].
    rewrite concat_empty_head by done.
    rewrite Split_String_newline. now rewrite IH.
  - rewrite concat_String.
    unfold template.one_line in Hx. simpl in Hx.
    apply not_elem_of_cons in Hx as [Hc Hx].
    rewrite Split_String_other by congruence. now rewrite IHx.
Qed.

(** X15: SplitLines on a string returns, without error, at least one line; no line
    holds a line feed, the lines joined by line feeds are the string again,
    and they are the only such lines; a byte slice is split as the string of
    its bytes; a value of any other type gets the error
    not-supported-value-type and no line. *)
Theorem SplitLines_inverts_Join (s : string) (lines : list string) :
  (template.SplitLines (template.AString s)).2 = None
  /\ (template.SplitLines (template.AString s)).1 <> []
  /\ Forall template.one_line (template.SplitLines (template.AString s)).1
  /\ String.concat newline (template.SplitLines (template.AString s)).1 = s
  /\ (lines <> [] -> Forall template.one_line lines ->
      String.concat newline lines = s ->
      (template.SplitLines (template.AString s)).1 = lines)
  /\ template.SplitLines (template.ABytes (list_byte_of_string s)) =
     template.SplitLines (template.AString s)
  /\ template.SplitLines template.AOther = ([], Some "not-supported-value-type").
Proof.
  simpl. split; [reflexivity|]. split; [apply Split_newline_nonempty|].
  split; [apply Split_newline_one_line|]. split; [apply Join_Split_newline|].
  split; [|split; [|reflexivity]].
  - intros Hne Hall <-. now apply Split_Join_newline.
  - now rewrite string_of_list_byte_of_string.
Qed.

Lemma SplitLines_inverts_Join_witness :
  (template.SplitLines
     (template.AString ("a" +:+ newline +:+ newline +:+ "b"))).1 =
    ["a"; EmptyString; "b"].
Proof.
  apply (SplitLines_inverts_Join ("a" +:+ newline +:+ newline +:+ "b")
           ["a"; EmptyString; "b"]).
  - discriminate.
  - repeat constructor; unfold template.one_line; vm_compute;
      intros Hin; repeat (apply elem_of_cons in Hin as [Hin|Hin]; [discriminate|]);
      now apply not_elem_of_nil in Hin.
  - reflexivity.
Defined.

(** X16: "var" returns what "global" has bound to the name, whatever defaults it
    is given, a later binding replacing an earlier one; a binding of another
    name does not change it; and for a name that is not bound it returns the
    slice of all the defaults it was given (not the first of them). *)
Theorem var_returns_what_global_binds
    (value : Type) (binds : gmap string value) (name other doc : string)
    (v w : value) (defaults : list value) :
  other <> name ->
  template.DefaultFuncs_var value
    (template.DefaultFuncs_global value binds name v).1 name doc defaults = inl v
  /\ template.DefaultFuncs_var value
       (template.DefaultFuncs_global value
          (template.DefaultFuncs_global value binds name w).1 name v).1
       name doc defaults = inl v
  /\ template.DefaultFuncs_var value
       (template.DefaultFuncs_global value binds other w).1 name doc defaults =
     template.DefaultFuncs_var value binds name doc defaults
  /\ template.DefaultFuncs_var value (delete name binds) name doc defaults =
     inr defaults
  /\ (template.DefaultFuncs_global value binds name v).2 = EmptyString.
Proof.
  intros Hne. unfold template.DefaultFuncs_var, template.DefaultFuncs_global.
  simpl. rewrite !lookup_insert_eq, lookup_insert_ne, lookup_delete_eq by done.
  by repeat split.
Qed.

Lemma var_returns_what_global_binds_witness :
  template.DefaultFuncs_var nat
    (template.DefaultFuncs_global nat ∅ "region" 7).1 "region" "the region" [1; 2]
    = inl 7
  /\ template.DefaultFuncs_var nat
       (template.DefaultFuncs_global nat ∅ "zone" 3).1 "region" "the region" [1; 2]
     = inr [1; 2].
Proof.
  destruct (var_returns_what_global_binds nat ∅ "region" "zone" "the region"
              7 3 [1; 2]) as (Hset & _ & Hother & _).
  - discriminate.
  - split; [exact Hset|]. rewrite Hother. reflexivity.
Defined.

(** * The vagrant instance plugin *)

(** The loop over the requested tags finds them all exactly when they are a
    part of the tags of the machine. *)
Lemma allMatched_subseteq (tags machineTags : gmap string string) :
  vagrant.allMatched tags machineTags = true <-> tags ⊆ machineTags.
Proof.
  unfold vagrant.allMatched.
  apply (map_fold_weak_ind
           (fun (r : bool) (m : gmap string string) => r = true <-> m ⊆ machineTags)).
  - split; [intros _; apply map_empty_subseteq | done].
  - intros k v m r Hk IH. rewrite andb_true_iff, bool_decide_eq_true, IH.
    split.
    + intros [Hm Hv]. now apply insert_subseteq_l.
    + intros Hsub. split.
      * etrans; [|exact Hsub]. now apply insert_subseteq.
      * eapply lookup_weaken; [|exact Hsub]. apply lookup_insert_eq.
Qed.

Section Describing.
Context `{vagrant.Files}.
Variable v : vagrant.vagrantPlugin.
Variable tags : gmap string string.

(** The loop of DescribeInstances, when it runs to its end, has appended the
    descriptions of the selected entries, in the order of the entries. *)
Lemma DescribeInstances_range_success (files : list vagrant.FileInfo) :
  forall acc ds,
    vagrant.DescribeInstances_range v tags files acc = (ds, None) ->
    ds = acc ++ omap (vagrant.selected v tags) files.
Proof.
  induction files as [|file files IH]; intros acc ds Hrun; simpl in Hrun.
  - injection Hrun as <-. simpl. now rewrite app_nil_r.
  - unfold vagrant.selected, vagrant.machine_tags, vagrant.machine_ip. simpl.
    destruct (vagrant.IsDir file); simpl in *; [|now apply IH].
    destruct (vagrant.ioutil_ReadFile
                (vagrant.path_Join
                   (vagrant.path_Join (vagrant.VagrantfilesDir v) (vagrant.Name file))
                   "tags")) as [tagData [e|]]; simpl.
    { destruct (vagrant.os_IsNotExist e); [now apply IH | discriminate]. }
    destruct (vagrant.json_Unmarshal_tags tagData) as [machineTags [e|]];
      [discriminate|]. simpl.
    destruct (vagrant.allMatched tags machineTags); [|now apply IH].
    destruct (vagrant.ioutil_ReadFile
                (vagrant.path_Join
                   (vagrant.path_Join (vagrant.VagrantfilesDir v) (vagrant.Name file))
                   "ip")) as [ipData [e|]]; simpl.
    + destruct (vagrant.os_IsNotExist e); [|discriminate].
      apply IH in Hrun. now rewrite <- app_assoc in Hrun.
    + apply IH in Hrun. now rewrite <- app_assoc in Hrun.
Qed.

Lemma DescribeInstances_range_error (files : list vagrant.FileInfo) :
  forall acc ds e,
    vagrant.DescribeInstances_range v tags files acc = (ds, Some e) -> ds = [].
Proof.
  induction files as [|file files IH]; intros acc ds e0 Hrun; simpl in Hrun;
    [discriminate|].
  destruct (vagrant.IsDir file); simpl in *; [|now apply IH in Hrun].
  destruct (vagrant.ioutil_ReadFile _) as [tagData [e|]].
  { destruct (vagrant.os_IsNotExist e); [now apply IH in Hrun | congruence]. }
  destruct (vagrant.json_Unmarshal_tags tagData) as [machineTags [e|]];
    [congruence|].
  destruct (vagrant.allMatched tags machineTags); [|now apply IH in Hrun].
  destruct (vagrant.ioutil_ReadFile _) as [ipData [e|]].
  - destruct (vagrant.os_IsNotExist e); [now apply IH in Hrun | congruence].
  - now apply IH in Hrun.
Qed.

Lemma selected_names_sublist (files : list vagrant.FileInfo) :
  map instance.ID (omap (vagrant.selected v tags) files)
    `sublist_of` map vagrant.Name files.
Proof.
  induction files as [|file files IH]; [constructor|]. simpl.
  unfold vagrant.selected at 1.
  destruct (vagrant.machine_tags v file) as [mt|]; simpl;
    [|now apply sublist_cons].
  destruct (vagrant.allMatched tags mt); simpl;
    [now apply sublist_skip | now apply sublist_cons].
Qed.

End Describing.

Lemma omap_sublist {A B : Type} (f g : A -> option B) (l : list A) :
  (forall x y, f x = Some y -> g x = Some y) ->
  omap f l `sublist_of` omap g l.
Proof.
  intros Hfg. induction l as [|x l IH]; [constructor|]. simpl.
  destruct (f x) as [y|] eqn:Hf.
  - rewrite (Hfg _ _ Hf). now apply sublist_skip.
  - destruct (g x); [now apply sublist_cons | exact IH].
Qed.

Section DescribingMore.
Context `{vagrant.Files}.
Variable v : vagrant.vagrantPlugin.

Lemma elem_of_selected (tags : gmap string string) (files : list vagrant.FileInfo)
    (d : instance.Description) :
  d ∈ omap (vagrant.selected v tags) files <->
  exists file machineTags,
    file ∈ files
    /\ vagrant.machine_tags v file = Some machineTags
    /\ tags ⊆ machineTags
    /\ d = instance.mkDescription (vagrant.Name file)
             (vagrant.machine_ip v (vagrant.Name file)) machineTags.
Proof.
  rewrite list_elem_of_omap. unfold vagrant.selected. split.
  - intros (file & Hin & Hsel).
    destruct (vagrant.machine_tags v file) as [mt|] eqn:Hmt; [|done]. simpl in Hsel.
    destruct (vagrant.allMatched tags mt) eqn:Hall; [|done].
    injection Hsel as <-. exists file, mt.
    split; [done|]. split; [done|]. split; [now apply allMatched_subseteq | done].
  - intros (file & mt & Hin & Hmt & Hsub & ->). exists file. split; [done|].
    rewrite Hmt. simpl. apply allMatched_subseteq in Hsub. now rewrite Hsub.
Qed.

(** X17: When DescribeInstances returns no error, it returns, in the order of the
    directory listing, one description for every entry that is a directory
    with a tags file whose tags include all the requested tags, and nothing
    else; the description has the name of the entry as its ID, all the tags
    of the machine, and the contents of the ip file, if there is one, as its
    logical identifier. *)
Theorem DescribeInstances_selects_by_tags
    (tags : gmap string string) (ds : list instance.Description) :
  vagrant.DescribeInstances v tags = (ds, None) ->
  map instance.ID ds
    `sublist_of` map vagrant.Name
                   (vagrant.ioutil_ReadDir (vagrant.VagrantfilesDir v)).1
  /\ forall d,
       d ∈ ds <->
       exists file machineTags,
         file ∈ (vagrant.ioutil_ReadDir (vagrant.VagrantfilesDir v)).1
         /\ vagrant.machine_tags v file = Some machineTags
         /\ tags ⊆ machineTags
         /\ d = instance.mkDescription (vagrant.Name file)
                  (vagrant.machine_ip v (vagrant.Name file)) machineTags.
Proof.
  unfold vagrant.DescribeInstances.
  destruct (vagrant.ioutil_ReadDir (vagrant.VagrantfilesDir v)) as [files [e|]];
    [discriminate|].
  intros ->%DescribeInstances_range_success. simpl.
  split; [apply selected_names_sublist|]. intros d. apply elem_of_selected.
Qed.

(** X18: A query with more tags returns, when both queries succeed, the
    descriptions of the other query's result that have these tags too, in the
    same order. *)
Theorem DescribeInstances_stricter_query
    (tags tags' : gmap string string) (ds ds' : list instance.Description) :
  tags ⊆ tags' ->
  vagrant.DescribeInstances v tags = (ds, None) ->
  vagrant.DescribeInstances v tags' = (ds', None) ->
  ds' `sublist_of` ds
  /\ forall d, d ∈ ds' <-> d ∈ ds /\ tags' ⊆ instance.DescTags d.
Proof.
  intros Hsub. unfold vagrant.DescribeInstances.
  destruct (vagrant.ioutil_ReadDir (vagrant.VagrantfilesDir v)) as [files [e|]];
    [discriminate|].
  intros ->%DescribeInstances_range_success ->%DescribeInstances_range_success.
  simpl. split.
  - apply omap_sublist. intros file d. unfold vagrant.selected.
    destruct (vagrant.machine_tags v file) as [mt|]; simpl; [|done].
    destruct (vagrant.allMatched tags' mt) eqn:Hall'; [|done].
    assert (Hall : vagrant.allMatched tags mt = true).
    { apply allMatched_subseteq. etrans; [exact Hsub|].
      now apply allMatched_subseteq. }
    now rewrite Hall.
  - intros d. rewrite !elem_of_selected. split.
    + intros (file & mt & Hin & Hmt & Hsub' & ->). simpl. split; [|done].
      exists file, mt. split; [done|]. split; [done|].
      split; [etrans; [exact Hsub | exact Hsub'] | done].
    + intros [(file & mt & Hin & Hmt & _ & ->) Hsub']. simpl in Hsub'.
      exists file, mt. split; [done|]. split; [done|]. split; done.
Qed.

(** X19: DescribeInstances returns no description together with an error, and
    when the directory cannot be listed it returns the error of the listing
    and reads no file. *)
Theorem DescribeInstances_error_returns_nothing (tags : gmap string string) :
  (forall ds e, vagrant.DescribeInstances v tags = (ds, Some e) -> ds = [])
  /\ (forall files e,
        vagrant.ioutil_ReadDir (vagrant.VagrantfilesDir v) = (files, Some e) ->
        vagrant.DescribeInstances v tags = ([], Some e)).
Proof.
  unfold vagrant.DescribeInstances. split.
  - intros ds e.
    destruct (vagrant.ioutil_ReadDir (vagrant.VagrantfilesDir v)) as [files [e'|]].
    + now intros [= <- _].
    + apply DescribeInstances_range_error.
  - intros files e ->. reflexivity.
Qed.

End DescribingMore.

Lemma DescribeInstances_selects_by_tags_witness :
  map instance.ID
    [instance.mkDescription "m1" (Some "10.0.0.5") {[ "role" := "web" ]}]
    `sublist_of` map vagrant.Name
                   (vagrant.ioutil_ReadDir (Files := demo3.files) "/vms").1
  /\ forall d,
       d ∈ [instance.mkDescription "m1" (Some "10.0.0.5") {[ "role" := "web" ]}] <->
       exists file machineTags,
         file ∈ (vagrant.ioutil_ReadDir (Files := demo3.files) "/vms").1
         /\ vagrant.machine_tags (H := demo3.files) demo3.vms file = Some machineTags
         /\ {[ "role" := "web" ]} ⊆ machineTags
         /\ d = instance.mkDescription (vagrant.Name file)
                  (vagrant.machine_ip (H := demo3.files) demo3.vms (vagrant.Name file))
                  machineTags.
Proof.
  apply (DescribeInstances_selects_by_tags (H := demo3.files) demo3.vms
           {[ "role" := "web" ]}).
  reflexivity.
Defined.

Lemma DescribeInstances_stricter_query_witness :
  [instance.mkDescription "m1" (Some "10.0.0.5") {[ "role" := "web" ]}]
    `sublist_of`
    [instance.mkDescription "m1" (Some "10.0.0.5") {[ "role" := "web" ]};
     instance.mkDescription "m3" None {[ "role" := "db" ]}]
  /\ forall d,
       d ∈ [instance.mkDescription "m1" (Some "10.0.0.5") {[ "role" := "web" ]}] <->
       d ∈ [instance.mkDescription "m1" (Some "10.0.0.5") {[ "role" := "web" ]};
            instance.mkDescription "m3" None {[ "role" := "db" ]}]
       /\ {[ "role" := "web" ]} ⊆ instance.DescTags d.
Proof.
  apply (DescribeInstances_stricter_query (H := demo3.files) demo3.vms
           ∅ {[ "role" := "web" ]}).
  - apply map_empty_subseteq.
  - reflexivity.
  - reflexivity.
Defined.

(** ** Provision and Destroy of the vagrant plugin *)

Ltac io_unfold :=
  unfold vagrant.inheritedEnvCommand, vagrant.io_bind, vagrant.call,
    vagrant.io_ret, vagrant.or_return.

Ltac io_cases :=
  repeat first
    [ progress cbn [fst snd vagrant.r_err vagrant.r_out]
    | match goal with
      | |- context [match vagrant.r_err ?r with _ => _ end] =>
          destruct (vagrant.r_err r) eqn:?
      | |- context [match vagrant.os_IsNotExist ?e with _ => _ end] =>
          destruct (vagrant.os_IsNotExist e) eqn:?
      | |- context [match vagrant.json_Marshal_tags ?t with _ => _ end] =>
          destruct (vagrant.json_Marshal_tags t) as [? [?|]] eqn:?
      | |- context [match sv_logicalID ?s with _ => _ end] =>
          destruct (sv_logicalID s) eqn:?
      end ].

(** The events of a run that ends with a removal: those before it, as one
    list after the events [tr] the run starts from. *)
Lemma trace_snoc (tr evs before : list vagrant.os_call) (c : vagrant.os_call) :
  before = tr ++ evs -> before ++ [c] = tr ++ evs ++ [c].
Proof. intros ->. now rewrite app_assoc. Qed.

Ltac io_last tr :=
  match goal with
  | |- exists evs, (Ok (vagrant.r_err (vagrant.answer ?before _)), _) = _ /\ _ =>
      let evs := fresh "evs" in
      let Hevs := fresh "Hevs" in
      evar (evs : list vagrant.os_call);
      assert (Hevs : before = tr ++ evs)
        by (subst evs; rewrite <- ?app_assoc; cbn [app]; reflexivity);
      exists evs; split;
        [ rewrite (trace_snoc tr evs before _ Hevs), <- Hevs; reflexivity
        | subst evs; split; [ apply list_elem_of_In; cbn [In]; tauto | reflexivity ] ]
  end.

(** Names for the properties and the network options Provision hands to the
    template, so that the events of a run stay small. *)
Ltac name_template_input properties spec :=
  cbv zeta;
  set (p1 := if vagrant.is_nil (properties !! "CPUs")
             then <["CPUs" := Some (vagrant.JInt 2)]> properties else properties);
  set (used := if vagrant.is_nil (p1 !! "Memory")
               then <["Memory" := Some (vagrant.JInt 512)]> p1 else p1);
  set (options := match sv_logicalID spec with
                  | Some id => ", ip: " +:+ vagrant.quote +:+ id +:+ vagrant.quote
                  | None => ", type: " +:+ vagrant.quote +:+ "dhcp" +:+ vagrant.quote
                  end).

Section Destroying.
Context {files : vagrant.Files} {system : vagrant.System}.
Variable v : vagrant.vagrantPlugin.

(** X20: Destroy of an instance whose directory does not exist returns the error
    "Instance does not exist" after the look at the directory: it runs no
    command and removes nothing. *)
Theorem Destroy_missing_instance_runs_nothing
    (id : string) (tr : list vagrant.os_call) (e : error) :
  vagrant.r_err
    (vagrant.answer (tr ++ [vagrant.Println ["Destroying "; id]])
       (vagrant.Stat (vagrant.path_Join (vagrant.VagrantfilesDir v) id))) = Some e ->
  vagrant.os_IsNotExist e = true ->
  vagrant.Destroy v id tr =
    (Ok (Some "Instance does not exist"),
     tr ++ [vagrant.Println ["Destroying "; id];
            vagrant.Stat (vagrant.path_Join (vagrant.VagrantfilesDir v) id)]).
Proof.
  intros Hstat Hmissing. unfold vagrant.Destroy. io_unfold.
  cbn [fst snd]. rewrite Hstat, Hmissing.
  now rewrite <- app_assoc.
Qed.

(** X21: Unless the look at the directory of the instance says that it does
    not exist, Destroy runs vagrant destroy -f in that directory and then
    removes the directory, once and as its last step, whether or not vagrant
    failed; the error of Destroy is the error of the removal. *)
Theorem Destroy_removes_the_directory_whatever_vagrant_says
    (id : string) (tr : list vagrant.os_call) :
  (forall e,
     vagrant.r_err
       (vagrant.answer (tr ++ [vagrant.Println ["Destroying "; id]])
          (vagrant.Stat (vagrant.path_Join (vagrant.VagrantfilesDir v) id))) = Some e ->
     vagrant.os_IsNotExist e = false) ->
  exists evs,
    vagrant.Destroy v id tr =
      (Ok (vagrant.r_err
             (vagrant.answer (tr ++ evs)
                (vagrant.RemoveAll (vagrant.path_Join (vagrant.VagrantfilesDir v) id)))),
       tr ++ evs ++
         [vagrant.RemoveAll (vagrant.path_Join (vagrant.VagrantfilesDir v) id)])
    /\ vagrant.CombinedOutput "vagrant" ["destroy"; "-f"]
         ["VAGRANT_CWD=" +:+ vagrant.path_Join (vagrant.VagrantfilesDir v) id] ∈ evs
    /\ existsb vagrant.is_RemoveAll evs = false.
Proof.
  intros Hstat. unfold vagrant.Destroy. io_unfold. cbn [fst snd].
  set (dir := vagrant.path_Join (vagrant.VagrantfilesDir v) id) in *.
  destruct (vagrant.r_err
              (vagrant.answer (tr ++ [vagrant.Println ["Destroying "; id]])
                 (vagrant.Stat dir))) as [e|] eqn:Hs.
  - rewrite (Hstat e eq_refl). io_cases; io_last tr.
  - io_cases; io_last tr.
Qed.

(** Destroy returns, with or without an error, and adds its events to those
    on record. *)
Lemma Destroy_returns (id : string) (tr : list vagrant.os_call) :
  exists d evs, vagrant.Destroy v id tr = (Ok d, tr ++ evs).
Proof.
  unfold vagrant.Destroy. io_unfold. io_cases.
  all: eexists _, _; rewrite <- ?app_assoc; cbn [app]; reflexivity.
Qed.

(** The events with no removal and no vagrant destroy among them. *)
Lemma no_cleanup (evs pre post : list vagrant.os_call) (c : vagrant.os_call) :
  existsb (fun c => vagrant.is_RemoveAll c || vagrant.is_vagrant_destroy c) evs = false ->
  evs = pre ++ c :: post ->
  vagrant.is_RemoveAll c || vagrant.is_vagrant_destroy c = true ->
  False.
Proof.
  intros Hnone -> Hc. rewrite existsb_app in Hnone. simpl in Hnone.
  rewrite Hc, orb_true_r in Hnone. discriminate.
Qed.

(** What [cleanup_follows_failed_up] computes: before every removal and
    every vagrant destroy there is a vagrant up that was answered with an
    error. *)
Lemma cleanup_follows_failed_up_spec (evs : list vagrant.os_call) :
  forall (tr : list vagrant.os_call) (failed : bool),
    vagrant.cleanup_follows_failed_up tr failed evs = true ->
    forall pre c post,
      evs = pre ++ c :: post ->
      vagrant.is_RemoveAll c || vagrant.is_vagrant_destroy c = true ->
      failed = true
      \/ exists pre1 up pre2,
           pre = pre1 ++ up :: pre2
           /\ vagrant.is_vagrant_up up = true
           /\ is_Some (vagrant.r_err (vagrant.answer (tr ++ pre1) up)).
Proof.
  induction evs as [|a evs IH]; intros tr failed Hok pre c post Hevs Hc.
  - now destruct pre.
  - simpl in Hok. apply andb_true_iff in Hok as [Hhead Hrest].
    destruct pre as [|a' pre]; simpl in Hevs; injection Hevs as -> ->.
    + rewrite Hc in Hhead. now left.
    + destruct (IH _ _ Hrest pre c post eq_refl Hc)
        as [Hfailed|(pre1 & up & pre2 & -> & Hup & Hsome)].
      * apply orb_true_iff in Hfailed as [Hfailed|Hnow]; [now left|].
        apply andb_true_iff in Hnow as [Hup Hsome]. right.
        exists [], a', pre. rewrite app_nil_r. split; [done|]. split; [done|].
        now apply bool_decide_eq_true in Hsome.
      * right. exists (a' :: pre1), up, pre2. split; [done|]. split; [done|].
        now rewrite <- app_assoc in Hsome.
Qed.

End Destroying.

Section Provisioning.
Context {files : vagrant.Files} {system : vagrant.System}.
Variable v : vagrant.vagrantPlugin.

(** The properties Provision hands to the template: the decoded ones, with
    CPUs and Memory filled in where they are nil. *)
Lemma defaults_lookup (properties : gmap string (option vagrant.jvalue)) :
  let p1 := if vagrant.is_nil (properties !! "CPUs")
            then <["CPUs" := Some (vagrant.JInt 2)]> properties else properties in
  let used := if vagrant.is_nil (p1 !! "Memory")
              then <["Memory" := Some (vagrant.JInt 512)]> p1 else p1 in
  used !! "CPUs" =
    (if vagrant.is_nil (properties !! "CPUs")
     then Some (Some (vagrant.JInt 2)) else properties !! "CPUs")
  /\ used !! "Memory" =
       (if vagrant.is_nil (properties !! "Memory")
        then Some (Some (vagrant.JInt 512)) else properties !! "Memory")
  /\ forall k, k <> "CPUs" -> k <> "Memory" -> used !! k = properties !! k.
Proof.
  intros p1 used. subst p1 used.
  destruct (vagrant.is_nil (properties !! "CPUs")) eqn:Hc.
  - rewrite lookup_insert_ne by done.
    destruct (vagrant.is_nil (properties !! "Memory")) eqn:Hm.
    + rewrite lookup_insert_ne by done. rewrite !lookup_insert_eq.
      split; [done|]. split; [done|]. intros k ? ?.
      now rewrite !lookup_insert_ne by done.
    + rewrite lookup_insert_eq. rewrite lookup_insert_ne by done.
      split; [done|]. split; [done|]. intros k ? ?.
      now rewrite lookup_insert_ne by done.
  - destruct (vagrant.is_nil (properties !! "Memory")) eqn:Hm.
    + rewrite lookup_insert_eq. rewrite lookup_insert_ne by done.
      split; [done|]. split; [done|]. intros k ? ?.
      now rewrite lookup_insert_ne by done.
    + done.
Qed.

(** X22: Provision refuses properties that do not decode or that leave Box nil
    (a spec without properties among them) before it does anything: the
    instance is nil, there is an error, and no call has been made. *)
Theorem Provision_rejects_before_acting
    (h : heap) (s : instance.Spec) (tr : list vagrant.os_call) :
  (forall raw,
     sv_properties (view h s) = Some raw ->
     is_Some (vagrant.json_Unmarshal_properties raw).2
     \/ vagrant.is_nil ((vagrant.json_Unmarshal_properties raw).1 !! "Box") = true) ->
  exists e, vagrant.Provision v h s tr = (Ok (None, Some e), tr).
Proof.
  intros Hbad. unfold vagrant.Provision.
  set (spec := view h s) in *. clearbody spec.
  destruct (sv_properties spec) as [raw|].
  - specialize (Hbad raw eq_refl).
    destruct (vagrant.json_Unmarshal_properties raw) as [properties [e|]]; [now eexists|].
    destruct Hbad as [[? [=]]|Hbox]. cbn [fst] in Hbox. rewrite Hbox. now eexists.
  - rewrite lookup_empty. now eexists.
Qed.

(** X23: With properties that decode and set Box, the first thing Provision does
    is to run the template, on the decoded properties with CPUs 2 and Memory
    512 where these are nil and nothing else changed, and with the logical
    ID as the ip of the network, or dhcp when there is none. *)
Theorem Provision_fills_in_defaults
    (h : heap) (s : instance.Spec) (tr : list vagrant.os_call)
    (raw : RawMessage) (properties : gmap string (option vagrant.jvalue)) :
  sv_properties (view h s) = Some raw ->
  vagrant.json_Unmarshal_properties raw = (properties, None) ->
  vagrant.is_nil (properties !! "Box") = false ->
  exists used,
    (exists res rest,
       vagrant.Provision v h s tr =
         (res,
          tr ++ vagrant.Execute
                  match sv_logicalID (view h s) with
                  | Some id => ", ip: " +:+ vagrant.quote +:+ id +:+ vagrant.quote
                  | None => ", type: " +:+ vagrant.quote +:+ "dhcp" +:+ vagrant.quote
                  end used :: rest))
    /\ used !! "CPUs" =
         (if vagrant.is_nil (properties !! "CPUs")
          then Some (Some (vagrant.JInt 2)) else properties !! "CPUs")
    /\ used !! "Memory" =
         (if vagrant.is_nil (properties !! "Memory")
          then Some (Some (vagrant.JInt 512)) else properties !! "Memory")
    /\ forall k, k <> "CPUs" -> k <> "Memory" -> used !! k = properties !! k.
Proof.
  intros Hraw Hdecode Hbox.
  unfold vagrant.Provision, vagrant.Destroy. rewrite Hraw, Hdecode, Hbox.
  generalize (vagrant.spec_Tags h s). intros tags.
  set (spec := view h s) in *. clearbody spec.
  name_template_input properties spec.
  exists used. split; [|subst used p1; apply (defaults_lookup properties)].
  clearbody used options. clear p1.
  io_unfold. io_cases.
  all: eexists _, _; rewrite <- ?app_assoc; cbn [app]; reflexivity.
Qed.

(** X24: Provision never panics and returns either an instance or an
    error, not both and not neither; whenever it runs vagrant destroy or
    removes a directory, it has before that run a vagrant up that failed,
    and it returns no instance. *)
Theorem Provision_cleans_up_only_after_vagrant_up
    (h : heap) (s : instance.Spec) (tr : list vagrant.os_call) :
  exists res evs,
    vagrant.Provision v h s tr = (Ok res, tr ++ evs)
    /\ (res.1 = None <-> is_Some res.2)
    /\ (forall pre c post,
          evs = pre ++ c :: post ->
          vagrant.is_RemoveAll c || vagrant.is_vagrant_destroy c = true ->
          res.1 = None
          /\ exists pre1 up pre2,
               pre = pre1 ++ up :: pre2
               /\ vagrant.is_vagrant_up up = true
               /\ is_Some (vagrant.r_err (vagrant.answer (tr ++ pre1) up))).
Proof.
  unfold vagrant.Provision, vagrant.Destroy.
  generalize (vagrant.spec_Tags h s). intros tags.
  set (spec := view h s) in *. clearbody spec.
  destruct (match sv_properties spec with
            | Some raw => vagrant.json_Unmarshal_properties raw
            | None => (∅, None)
            end) as [properties [e|]].
  { exists (None, Some ("Invalid instance properties: " +:+ e)), [].
    rewrite app_nil_r. split; [done|]. split; [split; [now eexists|done]|].
    intros [|? ?] ? ?; discriminate. }
  destruct (vagrant.is_nil (properties !! "Box")).
  { eexists (None, Some _), []. rewrite app_nil_r. split; [reflexivity|].
    split; [split; [now eexists|done]|].
    intros [|? ?] ? ?; discriminate. }
  name_template_input properties spec. clearbody used options. clear p1.
  io_unfold. io_cases.
  all: eexists (_, _), _; split;
    [ rewrite <- ?app_assoc; cbn [app]; reflexivity |].
  all: cbn [fst snd]; split;
    [ split; [ try done; now eexists | try done; intros [? [=]] ] |].
  all: intros pre c post Hevs Hc.
  all: split;
    [ first [ reflexivity | exfalso; eapply no_cleanup; [|exact Hevs|exact Hc]; reflexivity ]
    | ].
  all: match type of Hevs with
       | ?evs = _ =>
           assert (Hok : vagrant.cleanup_follows_failed_up tr false evs = true)
       end;
    [ cbn [vagrant.cleanup_follows_failed_up];
      repeat match goal with
             | Hx : vagrant.r_err
                      (vagrant.answer _ (vagrant.CombinedOutput "vagrant" ["up"] _)) = _
               |- _ => rewrite Hx; clear Hx
             end;
      reflexivity
    | ].
  all: destruct (cleanup_follows_failed_up_spec _ tr false Hok pre c post Hevs Hc)
         as [Hfalse|Hfound]; [discriminate Hfalse | exact Hfound].
Qed.

(** X25: When Provision returns an instance there is no error; the
    properties of the spec have decoded and set Box; Provision has run the
    template, made a temporary directory below the directory of the plugin,
    named the instance after it, and then written into it exactly boot.sh
    with the init script, the Vagrantfile with what the template has
    printed, the marshalled tags and, for a spec with a logical ID, the file
    ip with it, in this order; nothing has been removed. *)
Theorem Provision_success_has_written_the_machine
    (h : heap) (s : instance.Spec) (tr tr' : list vagrant.os_call)
    (id : string) (err : option error) :
  vagrant.Provision v h s tr = (Ok (Some id, err), tr') ->
  err = None
  /\ exists raw properties used post,
       sv_properties (view h s) = Some raw
       /\ vagrant.json_Unmarshal_properties raw = (properties, None)
       /\ vagrant.is_nil (properties !! "Box") = false
       /\ (let options :=
             match sv_logicalID (view h s) with
             | Some ip => ", ip: " +:+ vagrant.quote +:+ ip +:+ vagrant.quote
             | None => ", type: " +:+ vagrant.quote +:+ "dhcp" +:+ vagrant.quote
             end in
           let config :=
             vagrant.r_out (vagrant.answer tr (vagrant.Execute options used)) in
           let machineDir :=
             vagrant.r_out
               (vagrant.answer (tr ++ [vagrant.Execute options used])
                  (vagrant.TempDir (vagrant.VagrantfilesDir v) "infrakit-")) in
           tr' = tr ++ vagrant.Execute options used
                   :: vagrant.TempDir (vagrant.VagrantfilesDir v) "infrakit-" :: post
           /\ id = vagrant.path_Base machineDir
           /\ omap vagrant.written post =
                [(vagrant.path_Join machineDir "boot.sh",
                  list_byte_of_string (sv_init (view h s)));
                 (vagrant.path_Join machineDir "Vagrantfile",
                  list_byte_of_string config);
                 (vagrant.path_Join machineDir "tags",
                  (vagrant.json_Marshal_tags (vagrant.spec_Tags h s)).1)]
                ++ match sv_logicalID (view h s) with
                   | Some ip =>
                       [(vagrant.path_Join machineDir "ip", list_byte_of_string ip)]
                   | None => []
                   end
           /\ existsb vagrant.is_RemoveAll post = false)
       /\ used !! "CPUs" =
            (if vagrant.is_nil (properties !! "CPUs")
             then Some (Some (vagrant.JInt 2)) else properties !! "CPUs")
       /\ used !! "Memory" =
            (if vagrant.is_nil (properties !! "Memory")
             then Some (Some (vagrant.JInt 512)) else properties !! "Memory")
       /\ forall k, k <> "CPUs" -> k <> "Memory" -> used !! k = properties !! k.
Proof.
  unfold vagrant.Provision, vagrant.Destroy.
  generalize (vagrant.spec_Tags h s). intros tags.
  set (spec := view h s) in *. clearbody spec.
  destruct (sv_properties spec) as [raw|]; [|rewrite lookup_empty; discriminate].
  destruct (vagrant.json_Unmarshal_properties raw) as [properties [e|]] eqn:Hdec;
    [discriminate|].
  destruct (vagrant.is_nil (properties !! "Box")) eqn:Hbox; [discriminate|].
  name_template_input properties spec.
  assert (Hused :
    used !! "CPUs" =
      (if vagrant.is_nil (properties !! "CPUs")
       then Some (Some (vagrant.JInt 2)) else properties !! "CPUs")
    /\ used !! "Memory" =
         (if vagrant.is_nil (properties !! "Memory")
          then Some (Some (vagrant.JInt 512)) else properties !! "Memory")
    /\ forall k, k <> "CPUs" -> k <> "Memory" -> used !! k = properties !! k)
    by (subst used p1; apply (defaults_lookup properties)).
  clearbody used options. clear p1.
  io_unfold. io_cases.
  all: intros [= <- <- <-] || discriminate.
  all: split; [reflexivity|].
  all: exists raw, properties, used; eexists.
  all: split; [reflexivity|]; split; [exact Hdec|]; split; [exact Hbox|].
  all: split; [|exact Hused].
  all: split; [ rewrite <- ?app_assoc; cbn [app]; reflexivity |].
  all: split; [reflexivity|]; split; reflexivity.
Qed.

(** X26: Where vagrant up fails, Provision never returns an instance.  Once
    it has run vagrant up it returns the error of vagrant up, whatever
    Destroy returns: by then it has run the template, made the temporary
    directory, written boot.sh with the init script and the Vagrantfile with
    what the template printed, run vagrant up in that directory and printed
    its output and its error, and all it does after that is Destroy of the
    instance named after the directory. *)
Theorem Provision_failed_up_returns_its_error_and_destroys
    (h : heap) (s : instance.Spec) (tr : list vagrant.os_call) (e : error) :
  (forall tr0 env,
     vagrant.r_err (vagrant.answer tr0 (vagrant.CombinedOutput "vagrant" ["up"] env))
     = Some e) ->
  exists res evs,
    vagrant.Provision v h s tr = (Ok res, tr ++ evs)
    /\ res.1 = None
    /\ (existsb vagrant.is_vagrant_up evs = true ->
        res.2 = Some e
        /\ exists used d after,
             let options :=
               match sv_logicalID (view h s) with
               | Some ip => ", ip: " +:+ vagrant.quote +:+ ip +:+ vagrant.quote
               | None => ", type: " +:+ vagrant.quote +:+ "dhcp" +:+ vagrant.quote
               end in
             let config :=
               vagrant.r_out (vagrant.answer tr (vagrant.Execute options used)) in
             let machineDir :=
               vagrant.r_out
                 (vagrant.answer (tr ++ [vagrant.Execute options used])
                    (vagrant.TempDir (vagrant.VagrantfilesDir v) "infrakit-")) in
             let ran :=
               [vagrant.Execute options used;
                vagrant.TempDir (vagrant.VagrantfilesDir v) "infrakit-";
                vagrant.WriteFile (vagrant.path_Join machineDir "boot.sh")
                  (list_byte_of_string (sv_init (view h s))) 493;
                vagrant.WriteFile (vagrant.path_Join machineDir "Vagrantfile")
                  (list_byte_of_string config) 438] in
             let up :=
               vagrant.CombinedOutput "vagrant" ["up"]
                 ["VAGRANT_CWD=" +:+ machineDir] in
             let prints :=
               [vagrant.Printf ("DEBUGGING cmd output: %s" +:+ newline)
                  [vagrant.r_out (vagrant.answer (tr ++ ran) up)];
                vagrant.Printf ("Err: %s" +:+ newline) [e]] in
             evs = ran ++ up :: prints ++ after
             /\ vagrant.Destroy v (vagrant.path_Base machineDir)
                  (tr ++ ran ++ up :: prints)
                = (Ok d, (tr ++ ran ++ up :: prints) ++ after)).
Proof.
  intros Hup. unfold vagrant.Provision.
  generalize (vagrant.spec_Tags h s). intros tags.
  set (spec := view h s) in *. clearbody spec.
  destruct (match sv_properties spec with
            | Some raw => vagrant.json_Unmarshal_properties raw
            | None => (∅, None)
            end) as [properties [e'|]].
  { eexists (None, Some _), []. rewrite app_nil_r. split; [reflexivity|]. done. }
  destruct (vagrant.is_nil (properties !! "Box")).
  { eexists (None, Some _), []. rewrite app_nil_r. split; [reflexivity|]. done. }
  name_template_input properties spec. clearbody used options. clear p1.
  io_unfold. io_cases.
  all: repeat match goal with
       | Hx : vagrant.r_err
                (vagrant.answer _ (vagrant.CombinedOutput "vagrant" ["up"] _)) = _ |- _ =>
           rewrite Hup in Hx; simplify_eq
       end.
  all: try match goal with
       | |- context [vagrant.Destroy ?v0 ?id0 ?X] =>
           destruct (Destroy_returns v0 id0 X) as (d & after & HD); rewrite HD
       end.
  all: eexists (_, _), _; split;
    [ rewrite <- ?app_assoc; cbn [app]; reflexivity |].
  all: cbn [fst snd]; split; [reflexivity|].
  all: first [ intros Hfalse; cbn in Hfalse; discriminate Hfalse | intros _ ].
  all: split; [reflexivity|].
  all: exists used, d, after; split; [reflexivity|].
  all: rewrite <- ?app_assoc in HD; cbn [app] in HD.
  all: rewrite <- ?app_assoc; cbn [app]; exact HD.
Qed.

End Provisioning.

Lemma Destroy_missing_instance_runs_nothing_witness :
  vagrant.Destroy (files := demo3.files) (system := demo3.system) demo3.vms "m9" [] =
    (Ok (Some "Instance does not exist"),
     [] ++ [vagrant.Println ["Destroying "; "m9"];
            vagrant.Stat
              (vagrant.path_Join (Files := demo3.files)
                 (vagrant.VagrantfilesDir demo3.vms) "m9")]).
Proof.
  apply (Destroy_missing_instance_runs_nothing
           (files := demo3.files) (system := demo3.system)
           demo3.vms "m9" [] "no such file").
  - reflexivity.
  - reflexivity.
Defined.

Lemma Destroy_removes_the_directory_whatever_vagrant_says_witness :
  exists evs,
    vagrant.Destroy (files := demo3.files) (system := demo3.system) demo3.vms "m1" [] =
      (Ok (vagrant.r_err
             (vagrant.answer (System := demo3.system) ([] ++ evs)
                (vagrant.RemoveAll
                   (vagrant.path_Join (Files := demo3.files)
                      (vagrant.VagrantfilesDir demo3.vms) "m1")))),
       [] ++ evs ++
         [vagrant.RemoveAll
            (vagrant.path_Join (Files := demo3.files)
               (vagrant.VagrantfilesDir demo3.vms) "m1")])
    /\ vagrant.CombinedOutput "vagrant" ["destroy"; "-f"]
         ["VAGRANT_CWD=" +:+
          vagrant.path_Join (Files := demo3.files)
            (vagrant.VagrantfilesDir demo3.vms) "m1"] ∈ evs
    /\ existsb vagrant.is_RemoveAll evs = false.
Proof.
  apply (Destroy_removes_the_directory_whatever_vagrant_says
           (files := demo3.files) (system := demo3.system) demo3.vms "m1" []).
  intros e. vm_compute. discriminate.
Defined.

Lemma Provision_rejects_before_acting_witness :
  exists e,
    vagrant.Provision (files := demo3.files) (system := demo3.system) demo3.vms
      demo.store (instance.mkSpec None None "echo" None None) [] =
      (Ok (None, Some e), []).
Proof.
  apply (Provision_rejects_before_acting
           (files := demo3.files) (system := demo3.system) demo3.vms
           demo.store (instance.mkSpec None None "echo" None None) []).
  intros raw. vm_compute. discriminate.
Defined.

Lemma Provision_fills_in_defaults_witness :
  exists used,
    (exists res rest,
       vagrant.Provision (files := demo3.files) (system := demo3.system) demo3.vms
         demo3.store demo3.machine [] =
         (res,
          [] ++ vagrant.Execute
                  match sv_logicalID (view demo3.store demo3.machine) with
                  | Some id => ", ip: " +:+ vagrant.quote +:+ id +:+ vagrant.quote
                  | None => ", type: " +:+ vagrant.quote +:+ "dhcp" +:+ vagrant.quote
                  end used :: rest))
    /\ used !! "CPUs" =
         (if vagrant.is_nil
               (({[ "Box" := Some (vagrant.JDecoded (demo.bytes demo3.box_value)) ]}
                   : gmap string (option vagrant.jvalue)) !! "CPUs")
          then Some (Some (vagrant.JInt 2))
          else ({[ "Box" := Some (vagrant.JDecoded (demo.bytes demo3.box_value)) ]}
                  : gmap string (option vagrant.jvalue)) !! "CPUs")
    /\ used !! "Memory" =
         (if vagrant.is_nil
               (({[ "Box" := Some (vagrant.JDecoded (demo.bytes demo3.box_value)) ]}
                   : gmap string (option vagrant.jvalue)) !! "Memory")
          then Some (Some (vagrant.JInt 512))
          else ({[ "Box" := Some (vagrant.JDecoded (demo.bytes demo3.box_value)) ]}
                  : gmap string (option vagrant.jvalue)) !! "Memory")
    /\ forall k, k <> "CPUs" -> k <> "Memory" ->
         used !! k =
           ({[ "Box" := Some (vagrant.JDecoded (demo.bytes demo3.box_value)) ]}
              : gmap string (option vagrant.jvalue)) !! k.
Proof.
  apply (Provision_fills_in_defaults
           (files := demo3.files) (system := demo3.system) demo3.vms
           demo3.store demo3.machine [] (demo.bytes demo3.box_properties)).
  - reflexivity.
  - vm_compute. reflexivity.
  - reflexivity.
Defined.

Lemma Provision_success_has_written_the_machine_witness :
  (vagrant.Provision (files := demo3.files) (system := demo3.system) demo3.vms
     demo3.store demo3.machine []).1 = Ok (Some "infrakit-7", None)
  /\ (@None error = None
      /\ exists raw properties used post,
           sv_properties (view demo3.store demo3.machine) = Some raw
           /\ vagrant.json_Unmarshal_properties (System := demo3.system) raw
              = (properties, None)
           /\ vagrant.is_nil (properties !! "Box") = false
           /\ (let options :=
                 match sv_logicalID (view demo3.store demo3.machine) with
                 | Some ip => ", ip: " +:+ vagrant.quote +:+ ip +:+ vagrant.quote
                 | None => ", type: " +:+ vagrant.quote +:+ "dhcp" +:+ vagrant.quote
                 end in
               let config :=
                 vagrant.r_out
                   (vagrant.answer (System := demo3.system) []
                      (vagrant.Execute options used)) in
               let machineDir :=
                 vagrant.r_out
                   (vagrant.answer (System := demo3.system)
                      ([] ++ [vagrant.Execute options used])
                      (vagrant.TempDir (vagrant.VagrantfilesDir demo3.vms)
                         "infrakit-")) in
               (vagrant.Provision (files := demo3.files) (system := demo3.system)
                  demo3.vms demo3.store demo3.machine []).2
               = [] ++ vagrant.Execute options used
                   :: vagrant.TempDir (vagrant.VagrantfilesDir demo3.vms) "infrakit-"
                   :: post
               /\ "infrakit-7" = vagrant.path_Base (System := demo3.system) machineDir
               /\ omap vagrant.written post =
                    [(vagrant.path_Join (Files := demo3.files) machineDir "boot.sh",
                      list_byte_of_string (sv_init (view demo3.store demo3.machine)));
                     (vagrant.path_Join (Files := demo3.files) machineDir "Vagrantfile",
                      list_byte_of_string config);
                     (vagrant.path_Join (Files := demo3.files) machineDir "tags",
                      (vagrant.json_Marshal_tags (System := demo3.system)
                         (vagrant.spec_Tags demo3.store demo3.machine)).1)]
                    ++ match sv_logicalID (view demo3.store demo3.machine) with
                       | Some ip =>
                           [(vagrant.path_Join (Files := demo3.files) machineDir "ip",
                             list_byte_of_string ip)]
                       | None => []
                       end
               /\ existsb vagrant.is_RemoveAll post = false)
           /\ used !! "CPUs" =
                (if vagrant.is_nil (properties !! "CPUs")
                 then Some (Some (vagrant.JInt 2)) else properties !! "CPUs")
           /\ used !! "Memory" =
                (if vagrant.is_nil (properties !! "Memory")
                 then Some (Some (vagrant.JInt 512)) else properties !! "Memory")
           /\ forall k, k <> "CPUs" -> k <> "Memory" ->
                used !! k = properties !! k).
Proof.
  split; [vm_compute; reflexivity|].
  apply (Provision_success_has_written_the_machine
           (files := demo3.files) (system := demo3.system) demo3.vms
           demo3.store demo3.machine []).
  vm_compute. reflexivity.
Defined.

Lemma Provision_failed_up_returns_its_error_and_destroys_witness :
  (existsb vagrant.is_vagrant_up
     (vagrant.Provision (files := demo3.files) (system := demo3.broken) demo3.vms
        demo3.store demo3.machine []).2 = true
   /\ existsb vagrant.is_vagrant_destroy
        (vagrant.Provision (files := demo3.files) (system := demo3.broken) demo3.vms
           demo3.store demo3.machine []).2 = true)
  /\ exists res evs,
       vagrant.Provision (files := demo3.files) (system := demo3.broken) demo3.vms
         demo3.store demo3.machine [] = (Ok res, [] ++ evs)
       /\ res.1 = None
       /\ (existsb vagrant.is_vagrant_up evs = true ->
           res.2 = Some "exit status 1"
           /\ exists used d after,
                let options :=
                  match sv_logicalID (view demo3.store demo3.machine) with
                  | Some ip => ", ip: " +:+ vagrant.quote +:+ ip +:+ vagrant.quote
                  | None => ", type: " +:+ vagrant.quote +:+ "dhcp" +:+ vagrant.quote
                  end in
                let config :=
                  vagrant.r_out
                    (vagrant.answer (System := demo3.broken) []
                       (vagrant.Execute options used)) in
                let machineDir :=
                  vagrant.r_out
                    (vagrant.answer (System := demo3.broken)
                       ([] ++ [vagrant.Execute options used])
                       (vagrant.TempDir (vagrant.VagrantfilesDir demo3.vms)
                          "infrakit-")) in
                let ran :=
                  [vagrant.Execute options used;
                   vagrant.TempDir (vagrant.VagrantfilesDir demo3.vms) "infrakit-";
                   vagrant.WriteFile
                     (vagrant.path_Join (Files := demo3.files) machineDir "boot.sh")
                     (list_byte_of_string (sv_init (view demo3.store demo3.machine)))
                     493;
                   vagrant.WriteFile
                     (vagrant.path_Join (Files := demo3.files) machineDir "Vagrantfile")
                     (list_byte_of_string config) 438] in
                let up :=
                  vagrant.CombinedOutput "vagrant" ["up"]
                    ["VAGRANT_CWD=" +:+ machineDir] in
                let prints :=
                  [vagrant.Printf ("DEBUGGING cmd output: %s" +:+ newline)
                     [vagrant.r_out
                        (vagrant.answer (System := demo3.broken) ([] ++ ran) up)];
                   vagrant.Printf ("Err: %s" +:+ newline) ["exit status 1"]] in
                evs = ran ++ up :: prints ++ after
                /\ vagrant.Destroy (files := demo3.files) (system := demo3.broken)
                     demo3.vms (vagrant.path_Base (System := demo3.broken) machineDir)
                     ([] ++ ran ++ up :: prints)
                   = (Ok d, ([] ++ ran ++ up :: prints) ++ after)).
Proof.
  split; [split; vm_compute; reflexivity|].
  apply (Provision_failed_up_returns_its_error_and_destroys
           (files := demo3.files) (system := demo3.broken) demo3.vms
           demo3.store demo3.machine [] "exit status 1").
  intros tr0 env. reflexivity.
Defined.
